(** * AkaDako board: a shallow embedding of [akadako-board.js]

    The development follows the source file top-down: the number helpers,
    the two-byte sensor decoder, the NeoPixel gamma table and colour
    packing, then the [AkaDakoBoard] class as a record of its fields with
    the methods written in a small state-and-exception monad.  The Firmata
    object the class drives is an external library; it is represented by
    its pin table, its listener table and the log of the calls made on it. *)

From Stdlib Require Import ZArith List Bool Lia String.
From Stdlib Require Import Reals Lra Zfloor.
From stdpp Require Import base option list.
Import ListNotations.
Local Open Scope Z_scope.

(** ** JavaScript numbers restricted to the integers

    Pins, lengths, indices and bytes are integral [number]s.  The bitwise
    operators first convert their operands with [ToInt32]. *)

Module JS.

Definition toInt32 (z : Z) : Z := (z + 2 ^ 31) mod 2 ^ 32 - 2 ^ 31.

(** [a & b], [a | b], [a << n], [a >> n]. *)
Definition and (a b : Z) : Z := Z.land (toInt32 a) (toInt32 b).
Definition or (a b : Z) : Z := Z.lor (toInt32 a) (toInt32 b).
Definition shl (a n : Z) : Z := toInt32 (Z.shiftl (toInt32 a) (n mod 32)).
Definition shr (a n : Z) : Z := Z.shiftr (toInt32 a) (n mod 32).

(** A [number] that may be [NaN]: [None] stands for [NaN]. *)
Definition num := option Z.

(** [ToInt32] of a possibly-[NaN] number: [NaN] converts to [0]. *)
Definition toInt32_num (n : num) : Z :=
  match n with Some z => toInt32 z | None => 0 end.

(** [a % b] on integers: the remainder truncates towards zero and takes the
    sign of the dividend; a zero divisor gives [NaN]. *)
Definition rem (a b : Z) : num :=
  if b =? 0 then None else Some (Z.rem a b).

(** [Math.max(0, x)]: [NaN] is contagious. *)
Definition max0 (x : num) : num :=
  match x with Some z => Some (Z.max 0 z) | None => None end.

(** [a + b] where either side may be [NaN]. *)
Definition add (a b : num) : num :=
  match a, b with Some x, Some y => Some (x + y) | _, _ => None end.

End JS.

(** The integers [0 .. n-1]: the indices of a table of [n] entries. *)
Definition zrange (n : nat) : list Z := map Z.of_nat (seq 0 n).

(** ** [decodeInt16FromTwo7bitBytes] *)

(** [bytes[i]] inside a bitwise expression: a missing element is
    [undefined], which [ToInt32] turns into [0]. *)
Definition byte_at (bytes : list Z) (i : nat) : Z := nth i bytes 0.

(** [new Uint8Array([lsb, msb])] keeps each element modulo 256;
    [getInt16(0, true)] reads the two bytes little-endian, two's complement. *)
Definition getInt16_le (lo hi : Z) : Z :=
  let u := lo mod 256 + 256 * (hi mod 256) in
  if u <? 32768 then u else u - 65536.

Definition decodeInt16FromTwo7bitBytes (bytes : list Z) : Z :=
  let b0 := byte_at bytes 0 in
  let b1 := byte_at bytes 1 in
  let lsb := JS.and (JS.or b0 (JS.shl b1 7)) 255 in
  let msb := JS.or (JS.shr b1 1) (if JS.shr b1 6 =? 0 then 0 else 192) in
  getInt16_le lsb msb.

(** The reading the specification gives of the payload: fourteen
    significant bits, seven per byte, low byte first ... *)
Definition reassemble14 (b0 b1 : Z) : Z := b0 + 128 * b1.

(** ... sign-extended from bit 13. *)
Definition sign_extend14 (v : Z) : Z :=
  if Z.testbit v 13 then v - 2 ^ 14 else v.

(** The sign fill of the high byte: [(b1 >> 6) ? 0b11000000 : 0]. *)
Definition sign_fill (b1 : Z) : Z := if b1 / 64 =? 0 then 0 else 192.

(** ** [neoPixelGammaTable]

    The table is filled once, at load time, with
    [Math.floor((Math.pow((i / 255.0), gamma) * 255) + 0.5)] for
    [i = 0 .. steps-1], [steps = 256], [gamma = 2.8].  The expression is
    evaluated in double precision and [Math.pow] is only specified up to an
    implementation-dependent approximation, so the embedding takes the
    evaluated double as a function [fl] of [i] and keeps from the source the
    final, exact, [Math.floor] and the loop. *)

Definition gammaTableIIFE (fl : Z -> R) (steps : nat) : list Z :=
  map (fun i => Zfloor (fl i)) (zrange steps).

(** [x ^ y] for a base [x >= 0] and an exponent [y > 0], over the reals. *)
Definition real_pow (x y : R) : R :=
  match Rlt_dec 0 x with
  | left _ => Rpower x y
  | right _ => 0%R
  end.

(** The exponent 2.8. *)
Definition gamma : R := (14 / 5)%R.

(** The source expression read over the reals. *)
Definition gamma_expr (i : Z) : R :=
  (real_pow (IZR i / 255) gamma * 255 + / 2)%R.

(** [Math.round]: the nearest integer, halves going up. *)
Definition round_half_up (x : R) : Z := Zfloor (x + / 2)%R.

(** The 256 values of the table. *)
Definition neoPixelGammaTable : list Z :=
  [
     0;   0;   0;   0;   0;   0;   0;   0;   0;   0;   0;   0;   0;   0;   0;   0;
     0;   0;   0;   0;   0;   0;   0;   0;   0;   0;   0;   0;   1;   1;   1;   1;
     1;   1;   1;   1;   1;   1;   1;   1;   1;   2;   2;   2;   2;   2;   2;   2;
     2;   3;   3;   3;   3;   3;   3;   3;   4;   4;   4;   4;   4;   5;   5;   5;
     5;   6;   6;   6;   6;   7;   7;   7;   7;   8;   8;   8;   9;   9;   9;  10;
    10;  10;  11;  11;  11;  12;  12;  13;  13;  13;  14;  14;  15;  15;  16;  16;
    17;  17;  18;  18;  19;  19;  20;  20;  21;  21;  22;  22;  23;  24;  24;  25;
    25;  26;  27;  27;  28;  29;  29;  30;  31;  32;  32;  33;  34;  35;  35;  36;
    37;  38;  39;  39;  40;  41;  42;  43;  44;  45;  46;  47;  48;  49;  50;  50;
    51;  52;  54;  55;  56;  57;  58;  59;  60;  61;  62;  63;  64;  66;  67;  68;
    69;  70;  72;  73;  74;  75;  77;  78;  79;  81;  82;  83;  85;  86;  87;  89;
    90;  92;  93;  95;  96;  98;  99; 101; 102; 104; 105; 107; 109; 110; 112; 114;
   115; 117; 119; 120; 122; 124; 126; 127; 129; 131; 133; 135; 137; 138; 140; 142;
   144; 146; 148; 150; 152; 154; 156; 158; 160; 162; 164; 167; 169; 171; 173; 175;
   177; 180; 182; 184; 186; 189; 191; 193; 196; 198; 200; 203; 205; 208; 210; 213;
   215; 218; 220; 223; 225; 228; 231; 233; 236; 239; 241; 244; 247; 249; 252; 255
  ].

Definition gammaTable_at (i : Z) : Z := nth (Z.to_nat i) neoPixelGammaTable 0.

(** Integer certificates that entry [k] of index [i] is the floor of
    [gamma_expr i] with a margin of 1/2048 on both sides:
    [k + 1/2048 <= 255 (i/255)^(14/5) + 1/2 <= k + 1 - 1/2048], raised to the
    fifth power and cleared of denominators ([522240 = 2048 * 255]). *)
Definition gamma_lower_ok (i k : Z) : bool :=
  (2048 * k - 1023 <=? 0)
  || ((2048 * k - 1023) ^ 5 * 255 ^ 14 <=? 522240 ^ 5 * i ^ 14).

Definition gamma_upper_ok (i k : Z) : bool :=
  522240 ^ 5 * i ^ 14 <=? (2048 * k + 1023) ^ 5 * 255 ^ 14.

Definition gamma_entry_ok (i : Z) : bool :=
  (0 <=? gammaTable_at i)
  && gamma_lower_ok i (gammaTable_at i) && gamma_upper_ok i (gammaTable_at i).

Definition gamma_step_ok (i : Z) : bool :=
  gammaTable_at i <=? gammaTable_at (i + 1).

(** ** Constants

    The query codes are declared at the top of the source file. *)

Definition BOARD_VERSION_QUERY : Z := 0x0F.
Definition ULTRASONIC_DISTANCE_QUERY : Z := 0x01.
Definition WATER_TEMPERATURE_QUERY : Z := 0x02.
Definition DEVICE_ENABLE : Z := 0x03.

(** The NeoPixel sub-command codes and the colour order come from
    [./node-pixel-constants], which is not part of the sources at hand:
    they are parameters of the development. *)
Class NodePixelConstants := {
  COLOR_ORDER_GRB : Z;
  PIXEL_COMMAND : Z;
  PIXEL_CONFIG : Z;
  PIXEL_SET_PIXEL : Z;
  PIXEL_SHOW : Z
}.

(** Modelled from the spec: [FIRMATA_7BIT_MASK] of [./node-pixel-constants],
    the mask of the 7-bit packing, where each wire byte carries only seven
    significant bits. *)
Definition FIRMATA_7BIT_MASK : Z := 0x7F.

(** ** The Firmata object

    [firmata-io] is an external library.  What the class needs of it is its
    table of pin modes, its pin table, its event listeners and the requests
    it is asked to send, kept here as a log of calls, oldest first. *)

Record Modes := {
  INPUT : Z; OUTPUT : Z; ANALOG : Z; PULLUP : Z; ONEWIRE : Z; PING_READ : Z
}.

Module Pin.
Record t := { mode : Z; value : Z }.
Definition set_mode (p : t) (m : Z) : t := {| mode := m; value := value p |}.
Definition set_value (p : t) (v : Z) : t := {| mode := mode p; value := v |}.
End Pin.

(** A OneWire device identifier: the bytes of its ROM code. *)
Definition Device := list Z.

Inductive Call :=
| call_pinMode (pin mode : Z)
| call_digitalWrite (pin value : Z) (enqueue : bool)
| call_sysexCommand (message : list Z)
| call_reset
| call_transport_close
| call_sendOneWireConfig (pin : Z) (enableParasiticPower : bool)
| call_sendOneWireSearch (pin : Z)
| call_sendOneWireDelay (pin delay : Z)
| call_sendOneWireWrite (pin : Z) (device : option Device) (data : list Z)
| call_sendOneWireRead (pin : Z) (device : option Device) (numBytes : Z)
| call_sendOneWireWriteAndRead (pin : Z) (device : option Device)
    (data : list Z) (numBytes : Z).

(** Event names on the Firmata emitter.  The names built with a template
    string, [`ultrasonic-distance-reply-${pin}`] and [`water-temp-reply-${pin}`],
    are kept apart by their pin. *)
Inductive EventName :=
| board_version_reply
| ultrasonic_distance_reply (pin : Z)
| water_temp_reply (pin : Z)
| lifecycle (name : string).

Definition event_eqb (a b : EventName) : bool :=
  match a, b with
  | board_version_reply, board_version_reply => true
  | ultrasonic_distance_reply p, ultrasonic_distance_reply q => p =? q
  | water_temp_reply p, water_temp_reply q => p =? q
  | lifecycle n, lifecycle m => String.eqb n m
  | _, _ => false
  end.

(** The closures registered with [firmata.once]; [req] names the pending
    request whose [resolve] and [reject] the closure captured. *)
Inductive Listener :=
| version_listener (req : nat)
| sensor_listener (req : nat).

Definition listener_req (l : Listener) : nat :=
  match l with version_listener r | sensor_listener r => r end.

Record Transport := { isOpen : bool }.

Record Firmata := {
  MODES : Modes;
  pins : list Pin.t;
  transport : option Transport;
  listeners : list (EventName * Listener);
  calls : list Call
}.

Definition Firmata_set_pins (f : Firmata) (ps : list Pin.t) : Firmata :=
  {| MODES := MODES f; pins := ps; transport := transport f;
     listeners := listeners f; calls := calls f |}.
Definition Firmata_set_transport (f : Firmata) (t : option Transport) : Firmata :=
  {| MODES := MODES f; pins := pins f; transport := t;
     listeners := listeners f; calls := calls f |}.
Definition Firmata_set_listeners (f : Firmata) (ls : list (EventName * Listener)) : Firmata :=
  {| MODES := MODES f; pins := pins f; transport := transport f;
     listeners := ls; calls := calls f |}.
Definition Firmata_log (f : Firmata) (c : Call) : Firmata :=
  {| MODES := MODES f; pins := pins f; transport := transport f;
     listeners := listeners f; calls := calls f ++ [c] |}.

(** [pins[pin]]: [undefined] outside the table. *)
Definition pin_at (ps : list Pin.t) (pin : Z) : option Pin.t :=
  if pin <? 0 then None else ps !! Z.to_nat pin.

Definition pin_update (ps : list Pin.t) (pin : Z) (p : Pin.t) : list Pin.t :=
  if pin <? 0 then ps else <[Z.to_nat pin := p]> ps.

(** ** Promises and pending requests *)

Inductive Error := TypeError | RangeError.

Inductive Reason :=
| timeout_reason (delay : Z)
| not_available
| no_device
| device_error (message : string)
| thrown (e : Error).

Inductive Settled (A : Type) :=
| Pending
| Resolved (a : A)
| Rejected (r : Reason).
Arguments Pending {A}.
Arguments Resolved {A} a.
Arguments Rejected {A} r.

Module Version.
Record t := { type : Z; major : Z; minor : Z }.
End Version.

Inductive Value :=
| version_string (v : Version.t)
| number (z : Z).

(** A query in flight: the event it listens to, the Firmata object its
    closures captured, the delay of its [timeoutReject], the [request]
    promise the listener settles and the promise handed to the caller,
    [Promise.race([request, timeoutReject(timeout)]).catch(...)]. *)
Record Request := {
  req_event : EventName;
  req_firmata : nat;
  req_delay : Z;
  req_request : Settled Value;
  req_result : Settled Value
}.

Definition Request_set_request (r : Request) (s : Settled Value) : Request :=
  {| req_event := req_event r; req_firmata := req_firmata r;
     req_delay := req_delay r; req_request := s; req_result := req_result r |}.
Definition Request_set_result (r : Request) (s : Settled Value) : Request :=
  {| req_event := req_event r; req_firmata := req_firmata r;
     req_delay := req_delay r; req_request := req_request r; req_result := s |}.

(** ** The board object *)

(** A slot of a colour buffer: a hole of a sparse array (read back as
    [undefined]), [null], or a colour [[r, g, b]]. *)
Inductive Slot :=
| Hole
| Null
| Col (color : list Z).

Module Strip.
Record t := { pin : Z; length : Z; colors : option (list Slot) }.
Definition set_length (s : t) (n : Z) : t :=
  {| pin := pin s; length := n; colors := colors s |}.
Definition set_colors (s : t) (c : option (list Slot)) : t :=
  {| pin := pin s; length := length s; colors := c |}.
End Strip.

(** The waiting times and defaults the constructor sets and no method
    changes. *)
Record Settings := {
  connectingWaitingTime : Z;
  sendingInterval : Z;
  i2cReadWaitingTime : Z;
  oneWireReadWaitingTime : Z;
  ultrasonicDistanceWaitingTime : Z;
  boardVersionWaitingTime : Z;
  getWaterTempWaitingTime : Z;
  defaultNeoPixelLength : Z
}.

(** What the board emits, on itself as an [EventEmitter] and on the
    Scratch runtime. *)
Inductive Emitted :=
| board_event (name : string)
| runtime_connection_lost (extensionId : option string).

(** The fields of [AkaDakoBoard].  [firmata] is a reference into the heap
    of Firmata objects, [None] for [null].  [neoPixelThrottledQueue] is the
    sequence of messages handed to the throttled queue, which passes them
    one by one, in order, to [firmata.sysexCommand].  [oneWireDevices] and
    [transport] are not set by the constructor: [None] is [undefined] or
    [null]. *)
Record Board := {
  settings : Settings;
  version : option Version.t;
  state : string;
  firmata : option nat;
  extensionId : option string;
  neoPixel : list Strip.t;
  neoPixelThrottledQueue : list (list Z);
  oneWireDevices : option (list Device);
  board_transport : option Transport;
  emitted : list Emitted
}.

Definition Board_set_version (b : Board) (v : option Version.t) : Board :=
  {| settings := settings b; version := v; state := state b;
     firmata := firmata b; extensionId := extensionId b;
     neoPixel := neoPixel b;
     neoPixelThrottledQueue := neoPixelThrottledQueue b;
     oneWireDevices := oneWireDevices b;
     board_transport := board_transport b; emitted := emitted b |}.
Definition Board_set_state (b : Board) (s : string) : Board :=
  {| settings := settings b; version := version b; state := s;
     firmata := firmata b; extensionId := extensionId b;
     neoPixel := neoPixel b;
     neoPixelThrottledQueue := neoPixelThrottledQueue b;
     oneWireDevices := oneWireDevices b;
     board_transport := board_transport b; emitted := emitted b |}.
Definition Board_set_firmata (b : Board) (f : option nat) : Board :=
  {| settings := settings b; version := version b; state := state b;
     firmata := f; extensionId := extensionId b;
     neoPixel := neoPixel b;
     neoPixelThrottledQueue := neoPixelThrottledQueue b;
     oneWireDevices := oneWireDevices b;
     board_transport := board_transport b; emitted := emitted b |}.
Definition Board_set_extensionId (b : Board) (e : option string) : Board :=
  {| settings := settings b; version := version b; state := state b;
     firmata := firmata b; extensionId := e;
     neoPixel := neoPixel b;
     neoPixelThrottledQueue := neoPixelThrottledQueue b;
     oneWireDevices := oneWireDevices b;
     board_transport := board_transport b; emitted := emitted b |}.
Definition Board_set_neoPixel (b : Board) (n : list Strip.t) : Board :=
  {| settings := settings b; version := version b; state := state b;
     firmata := firmata b; extensionId := extensionId b;
     neoPixel := n;
     neoPixelThrottledQueue := neoPixelThrottledQueue b;
     oneWireDevices := oneWireDevices b;
     board_transport := board_transport b; emitted := emitted b |}.
Definition Board_enqueue (b : Board) (message : list Z) : Board :=
  {| settings := settings b; version := version b; state := state b;
     firmata := firmata b; extensionId := extensionId b;
     neoPixel := neoPixel b;
     neoPixelThrottledQueue := neoPixelThrottledQueue b ++ [message];
     oneWireDevices := oneWireDevices b;
     board_transport := board_transport b; emitted := emitted b |}.
Definition Board_set_oneWireDevices (b : Board) (d : option (list Device)) : Board :=
  {| settings := settings b; version := version b; state := state b;
     firmata := firmata b; extensionId := extensionId b;
     neoPixel := neoPixel b;
     neoPixelThrottledQueue := neoPixelThrottledQueue b;
     oneWireDevices := d;
     board_transport := board_transport b; emitted := emitted b |}.
Definition Board_set_transport (b : Board) (t : option Transport) : Board :=
  {| settings := settings b; version := version b; state := state b;
     firmata := firmata b; extensionId := extensionId b;
     neoPixel := neoPixel b;
     neoPixelThrottledQueue := neoPixelThrottledQueue b;
     oneWireDevices := oneWireDevices b;
     board_transport := t; emitted := emitted b |}.
Definition Board_emit (b : Board) (e : Emitted) : Board :=
  {| settings := settings b; version := version b; state := state b;
     firmata := firmata b; extensionId := extensionId b;
     neoPixel := neoPixel b;
     neoPixelThrottledQueue := neoPixelThrottledQueue b;
     oneWireDevices := oneWireDevices b;
     board_transport := board_transport b; emitted := emitted b ++ [e] |}.

(** The constructor. *)
Definition default_settings : Settings :=
  {| connectingWaitingTime := 1000; sendingInterval := 10;
     i2cReadWaitingTime := 100; oneWireReadWaitingTime := 100;
     ultrasonicDistanceWaitingTime := 1000; boardVersionWaitingTime := 200;
     getWaterTempWaitingTime := 2000; defaultNeoPixelLength := 3 |}.

Definition constructor : Board :=
  {| settings := default_settings; version := None; state := "disconnect";
     firmata := None; extensionId := None; neoPixel := [];
     neoPixelThrottledQueue := []; oneWireDevices := None;
     board_transport := None; emitted := [] |}.

(** ** The world: the board, the Firmata objects and the requests in flight *)

Record World := {
  board : Board;
  heap : list Firmata;
  requests : list Request
}.

Definition World_set_board (w : World) (b : Board) : World :=
  {| board := b; heap := heap w; requests := requests w |}.
Definition World_set_heap (w : World) (h : list Firmata) : World :=
  {| board := board w; heap := h; requests := requests w |}.
Definition World_set_requests (w : World) (r : list Request) : World :=
  {| board := board w; heap := heap w; requests := r |}.

(** ** Methods run in a state monad with exceptions *)

Inductive Res (A : Type) :=
| Ok (a : A)
| Throw (e : Error).
Arguments Ok {A} a.
Arguments Throw {A} e.

Definition M (A : Type) : Type := World -> Res A * World.

Definition ret {A} (a : A) : M A := fun w => (Ok a, w).
Definition throw {A} (e : Error) : M A := fun w => (Throw e, w).
Definition bind {A B} (m : M A) (k : A -> M B) : M B :=
  fun w => match m w with
           | (Ok a, w') => k a w'
           | (Throw e, w') => (Throw e, w')
           end.

Notation "'let*' x ':=' m 'in' k" := (bind m (fun x => k))
  (at level 10, x name, m at level 100, k at level 200).
Notation "m '>>' k" := (bind m (fun _ => k))
  (at level 90, right associativity).

Definition gets {A} (f : Board -> A) : M A := fun w => (Ok (f (board w)), w).
Definition modify (f : Board -> Board) : M unit :=
  fun w => (Ok tt, World_set_board w (f (board w))).

(** A sequential loop over a list. *)
Fixpoint for_each {A} (l : list A) (body : A -> M unit) : M unit :=
  match l with
  | [] => ret tt
  | x :: tl => body x >> for_each tl body
  end.

(** ** The Firmata library, as far as the class uses it

    Each operation acts on one Firmata object.  [pinMode] and
    [digitalWrite] mirror what they send in the pin table; the other
    requests leave the table alone.  An access to a pin outside the table
    raises a [TypeError], as [pins[pin].mode] does on [undefined]. *)

Definition Firmata_pinMode (pin mode : Z) (f : Firmata) : Res Firmata :=
  match pin_at (pins f) pin with
  | Some p =>
      Ok (Firmata_log
            (Firmata_set_pins f (pin_update (pins f) pin (Pin.set_mode p mode)))
            (call_pinMode pin mode))
  | None => Throw TypeError
  end.

Definition Firmata_digitalWrite (pin value : Z) (enqueue : bool) (f : Firmata)
  : Res Firmata :=
  match pin_at (pins f) pin with
  | Some p =>
      Ok (Firmata_log
            (Firmata_set_pins f (pin_update (pins f) pin (Pin.set_value p value)))
            (call_digitalWrite pin value enqueue))
  | None => Throw TypeError
  end.

(** A request that only writes to the transport. *)
Definition Firmata_send (c : Call) (f : Firmata) : Res Firmata :=
  Ok (Firmata_log f c).

Definition Firmata_once (ev : EventName) (l : Listener) (f : Firmata) : Res Firmata :=
  Ok (Firmata_set_listeners f (listeners f ++ [(ev, l)])).

Definition listens_to (ev : EventName) (entry : EventName * Listener) : bool :=
  event_eqb (fst entry) ev.

(** [removeAllListeners(event)], and [removeAllListeners()] for [None]. *)
Definition Firmata_removeAllListeners (ev : option EventName) (f : Firmata) : Firmata :=
  Firmata_set_listeners f
    match ev with
    | Some e => List.filter (fun entry => negb (listens_to e entry)) (listeners f)
    | None => []
    end.

(** [firmata.transport.close()]. *)
Definition Firmata_transport_close (f : Firmata) : Firmata :=
  Firmata_log (Firmata_set_transport f (Some {| isOpen := false |}))
    call_transport_close.

(** [this.firmata]: the reference, a [TypeError] when a member of [null]
    is accessed. *)
Definition this_firmata : M nat :=
  fun w => match firmata (board w) with
           | Some fid => (Ok fid, w)
           | None => (Throw TypeError, w)
           end.

Definition firmata_get (fid : nat) : M Firmata :=
  fun w => match heap w !! fid with
           | Some f => (Ok f, w)
           | None => (Throw TypeError, w)
           end.

Definition firmata_do (fid : nat) (op : Firmata -> Res Firmata) : M unit :=
  fun w => match heap w !! fid with
           | Some f => match op f with
                       | Ok f' => (Ok tt, World_set_heap w (<[fid := f']> (heap w)))
                       | Throw e => (Throw e, w)
                       end
           | None => (Throw TypeError, w)
           end.

(** [firmata.pins[pin]], a [TypeError] when a field of [undefined] is read. *)
Definition firmata_pin (fid : nat) (pin : Z) : M Pin.t :=
  let* f := firmata_get fid in
  match pin_at (pins f) pin with
  | Some p => ret p
  | None => throw TypeError
  end.

(** A promise executor or a [then] callback: an exception raised inside
    rejects the promise. *)
Definition in_promise {A} (m : M (Settled A)) : M (Settled A) :=
  fun w => match m w with
           | (Ok s, w') => (Ok s, w')
           | (Throw e, w') => (Ok (Rejected (thrown e)), w')
           end.

(** ** Lifecycle *)

(** [releaseBoard]. *)
Definition releaseBoard : M unit :=
  modify (fun b => Board_set_state b "disconnect") >>
  modify (fun b => Board_set_neoPixel b []) >>
  (let* fref := gets firmata in
   match fref with
   | Some fid =>
       let* f := firmata_get fid in
       (match transport f with
        | Some _ => firmata_do fid (fun f => Ok (Firmata_transport_close f))
        | None => ret tt
        end) >>
       firmata_do fid (fun f => Ok (Firmata_removeAllListeners None f)) >>
       modify (fun b => Board_set_firmata b None)
   | None => ret tt
   end) >>
  (let* t := gets board_transport in
   match t with
   | Some _ => modify (fun b => Board_set_transport b None)
   | None => ret tt
   end) >>
  modify (fun b => Board_set_oneWireDevices b None) >>
  modify (fun b => Board_set_extensionId b None) >>
  modify (fun b => Board_emit b (board_event "disconnect")) >>
  modify (fun b => Board_emit b (board_event "RELEASED")).

(** [disconnect]. *)
Definition disconnect : M unit :=
  let* st := gets state in
  if String.eqb st "disconnect" then ret tt
  else
    (let* fref := gets firmata in
     match fref with
     | Some fid =>
         let* f := firmata_get fid in
         match transport f with
         | Some t => if isOpen t then firmata_do fid (Firmata_send call_reset)
                     else ret tt
         | None => throw TypeError
         end
     | None => ret tt
     end) >>
    releaseBoard.

(** [handleDisconnectError]. *)
Definition handleDisconnectError : M unit :=
  let* st := gets state in
  if String.eqb st "disconnect" then ret tt
  else
    let* ext := gets extensionId in
    modify (fun b => Board_emit b (runtime_connection_lost ext)) >>
    disconnect.

(** ** Digital output *)

(** [digitalWrite]: the promise it returns resolves after
    [sendingInterval] on either path and carries no value. *)
Definition digitalWrite (pin value : Z) (enqueue : bool) : M unit :=
  let* fid := this_firmata in
  let* p := firmata_pin fid pin in
  if Pin.value p =? value then ret tt
  else
    let* f := firmata_get fid in
    firmata_do fid (Firmata_pinMode pin (OUTPUT (MODES f))) >>
    firmata_do fid (Firmata_digitalWrite pin value enqueue).

(** ** OneWire *)

(** How the callback given to [firmata.sendOneWireSearch] has been called:
    not yet, with an error, or with the identifiers found.  The library
    calls it with an error of its own when the board has not answered after
    5000 ms, so that the promise of a search is pending only until then. *)
Inductive SearchReply :=
| no_search_reply
| search_error (message : string)
| search_found (founds : list Device).

(** [searchOneWireDevices], with the way the callback of the search it may
    start has been called.  The promise resolves with
    [this.oneWireDevices]; it is pending as long as the callback has not
    been called. *)
Definition searchOneWireDevices (pin : Z) (reply : SearchReply)
  : M (Settled (option (list Device))) :=
  in_promise
    (let* fid := this_firmata in
     let* p := firmata_pin fid pin in
     let* f := firmata_get fid in
     if negb (Pin.mode p =? ONEWIRE (MODES f)) then
       firmata_do fid (Firmata_send (call_sendOneWireConfig pin true)) >>
       firmata_do fid (Firmata_send (call_sendOneWireSearch pin)) >>
       match reply with
       | no_search_reply => ret Pending
       | search_error e => ret (Rejected (device_error e))
       | search_found founds =>
           if (List.length founds <? 1)%nat then ret (Rejected no_device)
           else
             firmata_do fid (Firmata_pinMode pin (ONEWIRE (MODES f))) >>
             modify (fun b => Board_set_oneWireDevices b (Some founds)) >>
             firmata_do fid (Firmata_send (call_sendOneWireDelay pin 1)) >>
             let* ds := gets oneWireDevices in
             ret (Resolved ds)
       end
     else
       let* ds := gets oneWireDevices in
       ret (Resolved ds)).

(** [devices[0]] in the [then] callbacks: a [TypeError] on [null] or
    [undefined], [undefined] on an empty array. *)
Definition first_device (devices : option (list Device)) : M (option Device) :=
  match devices with
  | Some ds => ret (head ds)
  | None => throw TypeError
  end.

(** How the callback given to [firmata.sendOneWireRead] or
    [firmata.sendOneWireWriteAndRead] has been called when the timer of the
    race fires: not yet, with an error, or with the bytes. *)
Inductive ReadReply :=
| no_read_reply
| read_error (message : string)
| read_data (data : list Z).

Definition read_outcome (reply : ReadReply) : Settled (list Z) :=
  match reply with
  | no_read_reply => Pending
  | read_error e => Rejected (device_error e)
  | read_data d => Resolved d
  end.

(** [Promise.race([request, timeoutReject(timeout)])] when the timer
    fires: a request still pending then loses to the timer. *)
Definition race_timeout {A} (request : Settled A) (timeout : Z) : Settled A :=
  match request with
  | Pending => Rejected (timeout_reason timeout)
  | s => s
  end.

(** [timeout ? timeout : fallback], [None] being [undefined]. *)
Definition timeout_or (timeout : option Z) (fallback : Z) : Z :=
  match timeout with
  | Some t => if t =? 0 then fallback else t
  | None => fallback
  end.

(** [oneWireWrite]. *)
Definition oneWireWrite (pin : Z) (data : list Z) (reply : SearchReply)
  : M (Settled unit) :=
  let* found := searchOneWireDevices pin reply in
  match found with
  | Resolved devices =>
      in_promise
        (let* d := first_device devices in
         let* fid := this_firmata in
         firmata_do fid (Firmata_send (call_sendOneWireWrite pin d data)) >>
         ret (Resolved tt))
  | Rejected r => ret (Rejected r)
  | Pending => ret Pending
  end.

(** [oneWireRead]. *)
Definition oneWireRead (pin length : Z) (timeout : option Z)
  (reply : SearchReply) (answer : ReadReply) : M (Settled (list Z)) :=
  let* default := gets (fun b => oneWireReadWaitingTime (settings b)) in
  let timeout := timeout_or timeout default in
  let* found := searchOneWireDevices pin reply in
  let* request :=
    match found with
    | Resolved devices =>
        in_promise
          (let* d := first_device devices in
           let* fid := this_firmata in
           firmata_do fid (Firmata_send (call_sendOneWireRead pin d length)) >>
           ret (read_outcome answer))
    | Rejected r => ret (Rejected r)
    | Pending => ret Pending
    end in
  ret (race_timeout request timeout).

(** [oneWireWriteAndRead]. *)
Definition oneWireWriteAndRead (pin : Z) (data : list Z) (readLength : Z)
  (timeout : option Z) (reply : SearchReply) (answer : ReadReply)
  : M (Settled (list Z)) :=
  let* default := gets (fun b => oneWireReadWaitingTime (settings b)) in
  let timeout := timeout_or timeout default in
  let* found := searchOneWireDevices pin reply in
  let* request :=
    match found with
    | Resolved devices =>
        in_promise
          (let* d := first_device devices in
           let* fid := this_firmata in
           firmata_do fid
             (Firmata_send (call_sendOneWireWriteAndRead pin d data readLength)) >>
           ret (read_outcome answer))
    | Rejected r => ret (Rejected r)
    | Pending => ret Pending
    end in
  ret (race_timeout request timeout).

(** ** NeoPixel *)

(** [gammaTable[c]] for a colour component [c]: [undefined] outside the
    table and when the component itself is missing. *)
Definition table_at (gammaTable : list Z) (c : option Z) : option Z :=
  match c with
  | Some v => if v <? 0 then None else gammaTable !! Z.to_nat v
  | None => None
  end.

(** [g << n] for a corrected component [g]: [undefined] shifts as [0]. *)
Definition shl_component (g : option Z) (n : Z) : Z :=
  JS.shl (match g with Some v => v | None => 0 end) n.

(** [neoPixelColorValue]: the sum of the three shifted components; the
    last one is added unshifted, so [undefined] there turns the sum into
    [NaN]. *)
Definition neoPixelColorValue (colors : list Z) (gammaTable : list Z) : JS.num :=
  let g0 := table_at gammaTable (colors !! 0%nat) in
  let g1 := table_at gammaTable (colors !! 1%nat) in
  let g2 := table_at gammaTable (colors !! 2%nat) in
  JS.add (Some (shl_component g0 16 + shl_component g1 8)) g2.

(** [x & mask] and [(x >> n) & mask] on a number that may be [NaN]. *)
Definition and_num (x : JS.num) (mask : Z) : Z :=
  JS.and (JS.toInt32_num x) mask.
Definition shr_and_num (x : JS.num) (n mask : Z) : Z :=
  JS.and (JS.shr (JS.toInt32_num x) n) mask.

(** [Array(n)]: [n] holes, a [RangeError] when [n] is not an array length. *)
Definition new_Array (n : Z) : M (list Slot) :=
  if (0 <=? n) && (n <? 2 ^ 32) then ret (repeat Hole (Z.to_nat n))
  else throw RangeError.

(** [arr[index] = x]: past the end the array grows, the gap left as holes;
    an index that is negative or beyond the largest array index names a
    property, not an element. *)
Definition array_set (arr : list Slot) (index : Z) (x : Slot) : list Slot :=
  if (index <? 0) || (2 ^ 32 - 1 <=? index) then arr
  else
    let i := Z.to_nat index in
    if (i <? List.length arr)%nat then <[i := x]> arr
    else arr ++ repeat Hole (i - List.length arr) ++ [x].

(** [arr.splice(start)]: everything from [start] on is removed; a negative
    [start] counts from the end. *)
Definition array_splice (arr : list Slot) (start : Z) : list Slot :=
  let len := Z.of_nat (List.length arr) in
  let actualStart := if start <? 0 then Z.max (len + start) 0 else Z.min start len in
  take (Z.to_nat actualStart) arr.

Section NeoPixel.
Context `{NodePixelConstants}.

Definition on_pin (pin : Z) (aStrip : Strip.t) : bool := Strip.pin aStrip =? pin.

(** The strip object found by [find] is mutated in place: the first
    strip on the pin is replaced. *)
Fixpoint update_strip (pin : Z) (s' : Strip.t) (strips : list Strip.t)
  : list Strip.t :=
  match strips with
  | [] => []
  | s :: tl => if on_pin pin s then s' :: tl else s :: update_strip pin s' tl
  end.

(** The configuration message: one triple per strip, in registry order. *)
Definition config_message (strips : list Strip.t) : list Z :=
  [PIXEL_COMMAND; PIXEL_CONFIG]
  ++ flat_map
       (fun aStrip =>
          [JS.or (JS.shl COLOR_ORDER_GRB 5) (Strip.pin aStrip);
           JS.and (Strip.length aStrip) FIRMATA_7BIT_MASK;
           JS.and (JS.shr (Strip.length aStrip) 7) FIRMATA_7BIT_MASK])
       strips.

(** [this.neoPixelThrottledQueue(() => {this.firmata.sysexCommand(message)})]:
    the message is handed to the queue.  The callback reads [this.firmata]
    when the queue runs it; this is the call on a board that holds a Firmata
    object, where the callback does not throw. *)
Definition enqueue (message : list Z) : M unit :=
  modify (fun b => Board_enqueue b message).

(** [neoPixelConfigStrip]. *)
Definition neoPixelConfigStrip (pin length : Z) : M unit :=
  let* fid := this_firmata in
  let* p := firmata_pin fid pin in
  firmata_do fid
    (fun f => Ok (Firmata_set_pins f
                    (pin_update (pins f) pin (Pin.set_mode p PIXEL_COMMAND)))) >>
  let* strips := gets neoPixel in
  let others := List.filter (fun aStrip => negb (on_pin pin aStrip)) strips in
  (match List.find (on_pin pin) strips with
   | Some oldStrip =>
       modify (fun b => Board_set_neoPixel b
                          (others ++ [Strip.set_length oldStrip length]))
   | None =>
       modify (fun b => Board_set_neoPixel b
                          (others ++ [{| Strip.pin := pin; Strip.length := length;
                                         Strip.colors := None |}]))
   end) >>
  let* strips' := gets neoPixel in
  enqueue (config_message strips').

(** One turn of the address loop of [neoPixelSetColor]; the state is
    [(address, prevStrip)]. *)
Definition address_step (pin index : Z) (acc : JS.num * bool) (aStrip : Strip.t)
  : JS.num * bool :=
  let acc1 :=
    if on_pin pin aStrip
    then (JS.add (fst acc) (JS.max0 (JS.rem index (Strip.length aStrip))), false)
    else acc in
  if snd acc1
  then (JS.add (fst acc1) (Some (Strip.length aStrip)), snd acc1)
  else acc1.

Definition address_loop (strips : list Strip.t) (pin index : Z) : JS.num * bool :=
  fold_left (address_step pin index) strips (Some 0, true).

Definition set_pixel_message (address colorValue : JS.num) : list Z :=
  [PIXEL_COMMAND;
   PIXEL_SET_PIXEL;
   and_num address FIRMATA_7BIT_MASK;
   shr_and_num address 7 FIRMATA_7BIT_MASK;
   and_num colorValue FIRMATA_7BIT_MASK;
   shr_and_num colorValue 7 FIRMATA_7BIT_MASK;
   shr_and_num colorValue 14 FIRMATA_7BIT_MASK;
   shr_and_num colorValue 21 FIRMATA_7BIT_MASK].

(** [neoPixelSetColor]; [index] is [None] when the argument is left out. *)
Definition neoPixelSetColor (pin : Z) (color : list Z) (index : option Z)
  : M unit :=
  let index := match index with Some i => i | None => 0 end in
  let* strips := gets neoPixel in
  let address := fst (address_loop strips pin index) in
  let prevStrip := snd (address_loop strips pin index) in
  (if prevStrip
   then let* n := gets (fun b => defaultNeoPixelLength (settings b)) in
        neoPixelConfigStrip pin n
   else ret tt) >>
  let* strips := gets neoPixel in
  match List.find (on_pin pin) strips with
  | None => throw TypeError
  | Some strip =>
      let* buffer :=
        match Strip.colors strip with
        | Some c => ret c
        | None => new_Array (Strip.length strip)
        end in
      let strip' := Strip.set_colors strip (Some (array_set buffer index (Col color))) in
      modify (fun b => Board_set_neoPixel b (update_strip pin strip' (neoPixel b))) >>
      let colorValue := neoPixelColorValue color neoPixelGammaTable in
      enqueue (set_pixel_message address colorValue)
  end.

(** The two resizing statements of [neoPixelFillColor]. *)
Definition fill_resize (oldColors : list Slot) (length : Z) : list Slot :=
  let grown :=
    if Z.of_nat (List.length oldColors) <? length
    then array_set oldColors (length - 1) Null
    else oldColors in
  if length <? Z.of_nat (List.length grown)
  then array_splice grown length
  else grown.

(** [colorMapFn(color, index, oldColors)]: [None] for [null] or
    [undefined]. *)
Definition ColorMapFn := Slot -> Z -> list Slot -> option (list Z).

(** [[...oldColors].map(colorMapFn)]. *)
Definition map_colors (colorMapFn : ColorMapFn) (oldColors : list Slot)
  : list (option (list Z)) :=
  imap (fun i c => colorMapFn c (Z.of_nat i) oldColors) oldColors.

(** [neoPixelFillColor].  When the strip has a colour buffer,
    [oldColors] is that very array, and resizing it resizes the buffer. *)
Definition neoPixelFillColor (pin : Z) (colorMapFn : ColorMapFn) : M unit :=
  let* strips := gets neoPixel in
  let strip := List.find (on_pin pin) strips in
  let* length :=
    match strip with
    | Some s => ret (Strip.length s)
    | None => gets (fun b => defaultNeoPixelLength (settings b))
    end in
  let* oldColors :=
    match strip with
    | Some s =>
        match Strip.colors s with
        | Some shared =>
            let resized := fill_resize shared length in
            modify (fun b => Board_set_neoPixel b
                       (update_strip pin (Strip.set_colors s (Some resized))
                          (neoPixel b))) >>
            ret resized
        | None =>
            let* fresh := new_Array length in ret (fill_resize fresh length)
        end
    | None =>
        let* fresh := new_Array length in ret (fill_resize fresh length)
    end in
  let newColors := map_colors colorMapFn oldColors in
  for_each (seq 0 (Z.to_nat length))
    (fun index =>
       match newColors !! index with
       | Some (Some color) => neoPixelSetColor pin color (Some (Z.of_nat index))
       | _ => ret tt
       end).

(** [neoPixelShow]. *)
Definition neoPixelShow : M unit := enqueue [PIXEL_COMMAND; PIXEL_SHOW].

(** [neoPixelClear]. *)
Definition neoPixelClear (pin : Z) : M unit :=
  neoPixelFillColor pin (fun _ _ _ => Some [0; 0; 0]) >> neoPixelShow.

End NeoPixel.

(** ** Queries answered by an event: the command/response correlator *)

(** What a query method returns: a promise already settled, or the
    promise of a request in flight. *)
Inductive Query :=
| settled (s : Settled Value)
| in_flight (id : nat).

(** A new pending request; its identifier is its position. *)
Definition new_request (ev : EventName) (fid : nat) (delay : Z) : M nat :=
  fun w =>
    (Ok (List.length (requests w)),
     World_set_requests w
       (requests w ++ [{| req_event := ev; req_firmata := fid; req_delay := delay;
                          req_request := Pending; req_result := Pending |}])).

(** [boardVersion]. *)
Definition boardVersion (timeout : option Z) : M Query :=
  let* v := gets version in
  match v with
  | Some v => ret (settled (Resolved (version_string v)))
  | None =>
      let* fref := gets firmata in
      let* default := gets (fun b => boardVersionWaitingTime (settings b)) in
      let timeout := timeout_or timeout default in
      match fref with
      | None => ret (settled (Rejected (thrown TypeError)))
      | Some fid =>
          let* id := new_request board_version_reply fid timeout in
          firmata_do fid (Firmata_once board_version_reply (version_listener id)) >>
          firmata_do fid (Firmata_send (call_sysexCommand [BOARD_VERSION_QUERY])) >>
          ret (in_flight id)
      end
  end.

(** [getDistanceByUltrasonic]. *)
Definition getDistanceByUltrasonic (pin : Z) (timeout : option Z) : M Query :=
  let* fid := this_firmata in
  let* default := gets (fun b => ultrasonicDistanceWaitingTime (settings b)) in
  let timeout := timeout_or timeout default in
  let* f := firmata_get fid in
  firmata_do fid (Firmata_pinMode pin (PING_READ (MODES f))) >>
  let* id := new_request (ultrasonic_distance_reply pin) fid timeout in
  firmata_do fid (Firmata_once (ultrasonic_distance_reply pin) (sensor_listener id)) >>
  firmata_do fid (Firmata_send (call_sysexCommand [ULTRASONIC_DISTANCE_QUERY; pin])) >>
  ret (in_flight id).

(** [getWaterTemp]. *)
Definition getWaterTemp (pin : Z) (timeout : option Z) : M Query :=
  let* fref := gets firmata in
  let* default := gets (fun b => getWaterTempWaitingTime (settings b)) in
  let timeout := timeout_or timeout default in
  match fref with
  | None => ret (settled (Rejected (thrown TypeError)))
  | Some fid =>
      let* id := new_request (water_temp_reply pin) fid timeout in
      firmata_do fid (Firmata_once (water_temp_reply pin) (sensor_listener id)) >>
      firmata_do fid (Firmata_send (call_sysexCommand [WATER_TEMPERATURE_QUERY; pin])) >>
      ret (in_flight id)
  end.

(** *** The event loop

    Between two methods the JavaScript event loop runs tasks: a timer of
    [timeoutReject] fires, or the Firmata object emits an event.  Each task
    runs to completion together with the promise reactions it triggers. *)

Definition update_request (id : nat) (g : Request -> Request) (w : World) : World :=
  World_set_requests w (alter g id (requests w)).

Definition update_firmata (fid : nat) (g : Firmata -> Firmata) (w : World) : World :=
  World_set_heap w (alter g fid (heap w)).

(** One of the two promises of [Promise.race] settles.  The race keeps the
    first outcome; on a rejection the [catch] handler removes the
    listeners of the event and rejects with the same reason. *)
Definition race_settle (id : nat) (s : Settled Value) (w : World) : World :=
  match requests w !! id with
  | Some r =>
      match req_result r, s with
      | Pending, Resolved v =>
          update_request id (fun r => Request_set_result r (Resolved v)) w
      | Pending, Rejected reason =>
          update_request id (fun r => Request_set_result r (Rejected reason))
            (update_firmata (req_firmata r)
               (Firmata_removeAllListeners (Some (req_event r))) w)
      | _, _ => w
      end
  | None => w
  end.

(** [resolve] or [reject] of the [request] promise: only the first call
    counts. *)
Definition settle_request (id : nat) (s : Settled Value) (w : World) : World :=
  match requests w !! id with
  | Some r =>
      match req_request r with
      | Pending =>
          race_settle id s (update_request id (fun r => Request_set_request r s) w)
      | _ => w
      end
  | None => w
  end.

(** [Firmata.decode([d0, d1])] of the library: the two 7-bit bytes put
    together; the shifts that follow read the one-element array it returns
    as that number. *)
Definition Firmata_decode (d0 d1 : Z) : Z := JS.or d0 (JS.shl d1 7).

(** The body of a listener, called with the data of the event. *)
Definition run_listener (data : list Z) (w : World) (l : Listener) : World :=
  match l with
  | version_listener id =>
      let value := Firmata_decode (byte_at data 0) (byte_at data 1) in
      let v := {| Version.type := JS.and (JS.shr value 10) 0x0F;
                  Version.major := JS.and (JS.shr value 6) 0x0F;
                  Version.minor := JS.and value 0x3F |} in
      settle_request id (Resolved (version_string v))
        (World_set_board w (Board_set_version (board w) (Some v)))
  | sensor_listener id =>
      match data with
      | [] => settle_request id (Rejected not_available) w
      | _ => settle_request id (Resolved (number (decodeInt16FromTwo7bitBytes data))) w
      end
  end.

Inductive Task :=
| timer_fires (id : nat)
| firmata_emits (fid : nat) (ev : EventName) (data : list Z).

(** A task.  Every listener here was registered with [once]: an emit first
    unregisters the listeners of the event, then calls them in
    registration order. *)
Definition run_task (w : World) (t : Task) : World :=
  match t with
  | timer_fires id =>
      match requests w !! id with
      | Some r => race_settle id (Rejected (timeout_reason (req_delay r))) w
      | None => w
      end
  | firmata_emits fid ev data =>
      match heap w !! fid with
      | Some f =>
          let called := List.filter (listens_to ev) (listeners f) in
          fold_left (fun w entry => run_listener data w (snd entry)) called
            (update_firmata fid (Firmata_removeAllListeners (Some ev)) w)
      | None => w
      end
  end.

Definition run_tasks (w : World) (ts : list Task) : World := fold_left run_task ts w.

(** The listeners a Firmata object holds for an event. *)
Definition listeners_for (w : World) (fid : nat) (ev : EventName)
  : list (EventName * Listener) :=
  match heap w !! fid with
  | Some f => List.filter (listens_to ev) (listeners f)
  | None => []
  end.

(** The promise handed to the caller of a query, and the [request]
    promise behind it. *)
Definition result_of (w : World) (id : nat) : option (Settled Value) :=
  req_result <$> requests w !! id.
Definition request_of (w : World) (id : nat) : option (Settled Value) :=
  req_request <$> requests w !! id.

(** ** Auxiliary definitions for the statements *)

(** The pin after a write that went through: output mode, new value. *)
Definition written_pin (f : Firmata) (value : Z) : Pin.t :=
  {| Pin.mode := OUTPUT (MODES f); Pin.value := value |}.

(** The Firmata object after a write that went through. *)
Definition written_firmata (f : Firmata) (pin value : Z) (enqueue : bool) : Firmata :=
  {| MODES := MODES f;
     pins := pin_update (pins f) pin (written_pin f value);
     transport := transport f;
     listeners := listeners f;
     calls := calls f ++ [call_pinMode pin (OUTPUT (MODES f));
                          call_digitalWrite pin value enqueue] |}.

(** The mode numbers of the Firmata protocol, for the examples. *)
Definition firmata_modes : Modes :=
  {| INPUT := 0; OUTPUT := 1; ANALOG := 2; PULLUP := 11; ONEWIRE := 7;
     PING_READ := 0x75 |}.

(** The codes of the node-pixel firmware, for the examples. *)
Definition node_pixel : NodePixelConstants :=
  {| COLOR_ORDER_GRB := 0; PIXEL_COMMAND := 0x51; PIXEL_CONFIG := 1;
     PIXEL_SET_PIXEL := 3; PIXEL_SHOW := 2 |}.

(** A freshly connected Firmata object with twenty input pins at level 0,
    and a board that holds it. *)
Definition fresh_firmata : Firmata :=
  {| MODES := firmata_modes;
     pins := repeat {| Pin.mode := 0; Pin.value := 0 |} 20;
     transport := Some {| isOpen := true |};
     listeners := [];
     calls := [] |}.

Definition ready_board : Board :=
  Board_set_state (Board_set_firmata constructor (Some 0%nat)) "ready".

Definition ready_world : World :=
  {| board := ready_board; heap := [fresh_firmata]; requests := [] |}.

(** A board in use: its version is known, a strip is configured, a OneWire
    search has succeeded. *)
Definition version_2_1_0 : Version.t :=
  {| Version.type := 2; Version.major := 1; Version.minor := 0 |}.

Definition used_board : Board :=
  Board_set_oneWireDevices
    (Board_set_neoPixel
       (Board_set_version ready_board (Some version_2_1_0))
       [{| Strip.pin := 3; Strip.length := 5; Strip.colors := None |}])
    (Some [[40; 1; 2; 3; 4; 5; 6; 7]]).

Definition used_world : World :=
  {| board := used_board; heap := [fresh_firmata]; requests := [] |}.

(** The Firmata object after a bus configuration and a search were sent. *)
Definition searched_firmata (f : Firmata) (pin : Z) : Firmata :=
  Firmata_log (Firmata_log f (call_sendOneWireConfig pin true))
    (call_sendOneWireSearch pin).

(** The Firmata object after a search that found a device: the pin is in
    one-wire mode and the bus delay has been sent. *)
Definition found_firmata (f : Firmata) (pin : Z) (p : Pin.t) : Firmata :=
  Firmata_log
    (Firmata_log
       (Firmata_set_pins (searched_firmata f pin)
          (pin_update (pins f) pin (Pin.set_mode p (ONEWIRE (MODES f)))))
       (call_pinMode pin (ONEWIRE (MODES f))))
    (call_sendOneWireDelay pin 1).

(** The world after a search that found devices. *)
Definition found_world (w : World) (fid : nat) (f : Firmata) (pin : Z) (p : Pin.t)
  (founds : list Device) : World :=
  {| board := Board_set_oneWireDevices (board w) (Some founds);
     heap := <[fid := found_firmata f pin p]> (heap w);
     requests := requests w |}.

(** Two OneWire buses, on pins 2 and 3, one device on each. *)
Definition device_A : Device := [40; 1; 1; 1; 1; 1; 1; 1].
Definition device_B : Device := [40; 2; 2; 2; 2; 2; 2; 2].

Definition after_two_searches : World :=
  snd (searchOneWireDevices 3 (search_found [device_B])
         (snd (searchOneWireDevices 2 (search_found [device_A]) ready_world))).

(** The calls logged on the Firmata object of the board. *)
Definition calls_of (w : World) : list Call :=
  match firmata (board w) with
  | Some fid => match heap w !! fid with Some f => calls f | None => [] end
  | None => []
  end.

(** *** The strip registry *)

Section NeoPixelStatements.
Context `{NodePixelConstants}.

(** A sequence of [neoPixelConfigStrip (pin, length)] calls. *)
Definition run_configs (configs : list (Z * Z)) : M unit :=
  for_each configs (fun c => neoPixelConfigStrip (fst c) (snd c)).

(** The strip a configuration call puts into the registry. *)
Definition configured_strip (pin length : Z) (strips : list Strip.t) : Strip.t :=
  match List.find (on_pin pin) strips with
  | Some oldStrip => Strip.set_length oldStrip length
  | None => {| Strip.pin := pin; Strip.length := length; Strip.colors := None |}
  end.

End NeoPixelStatements.

(** The registry update as the specification words it: a strip already on
    the pin is replaced where it stands, a new one is appended. *)
Definition upsert_in_place (pin length : Z) (strips : list Strip.t) : list Strip.t :=
  match List.find (on_pin pin) strips with
  | Some _ =>
      map (fun aStrip => if on_pin pin aStrip then Strip.set_length aStrip length
                         else aStrip) strips
  | None =>
      strips ++ [{| Strip.pin := pin; Strip.length := length; Strip.colors := None |}]
  end.

Definition sum_lengths (strips : list Strip.t) : Z :=
  fold_right (fun aStrip acc => Strip.length aStrip + acc) 0 strips.

(** The strips that come strictly before the strip on [pin]. *)
Fixpoint strips_before (pin : Z) (strips : list Strip.t) : list Strip.t :=
  match strips with
  | [] => []
  | s :: tl => if on_pin pin s then [] else s :: strips_before pin tl
  end.

(** The linear address as the specification words it: the lengths of the
    strips strictly before the strip on [pin], plus [index mod length]. *)
Definition claimed_address (strips : list Strip.t) (pin index : Z) : option Z :=
  match List.find (on_pin pin) strips with
  | Some s => Some (sum_lengths (strips_before pin strips) + index mod Strip.length s)
  | None => None
  end.

(** The address a set-pixel message carries in its two 7-bit bytes. *)
Definition frame_address (message : list Z) : Z :=
  nth 2 message 0 + 128 * nth 3 message 0.

(** The address of the message enqueued last. *)
Definition last_address (w : World) : option Z :=
  frame_address <$> last (neoPixelThrottledQueue (board w)).

(** A board with strip A on pin 3, five LEDs, then strip B on pin 7, two. *)
Definition two_strips_world : World :=
  snd (@run_configs node_pixel [(3, 5); (7, 2)] ready_world).

Definition two_strips_firmata : Firmata := nth 0 (heap two_strips_world) fresh_firmata.

(** No strip of the list is on [pin]. *)
Definition pin_free (pin : Z) (strips : list Strip.t) : Prop :=
  forall s, In s strips -> on_pin pin s = false.

(** No two strips of the registry are on the same pin. *)
Fixpoint unique_pins (strips : list Strip.t) : Prop :=
  match strips with
  | [] => True
  | s :: tl => pin_free (Strip.pin s) tl /\ unique_pins tl
  end.

(** The colour buffer [neoPixelSetColor] writes into: the one the strip
    has, or a new one of the length of the strip. *)
Definition buffer_of (s : Strip.t) : list Slot :=
  match Strip.colors s with
  | Some c => c
  | None => repeat Hole (Z.to_nat (Strip.length s))
  end.

(** A strip of twenty thousand LEDs on pin 3. *)
Definition long_strip_world : World :=
  snd (@run_configs node_pixel [(3, 20000)] ready_world).

(** *** Filling with a function that returns [null] everywhere *)

(** The registry after [neoPixelFillColor] has resized the buffer of the
    strip on [pin], when that strip has one. *)
Definition resized_registry (pin : Z) (strips : list Strip.t) : list Strip.t :=
  match List.find (on_pin pin) strips with
  | Some s =>
      match Strip.colors s with
      | Some shared =>
          update_strip pin
            (Strip.set_colors s (Some (fill_resize shared (Strip.length s)))) strips
      | None => strips
      end
  | None => strips
  end.

(** Whether [neoPixelFillColor] has to create an array, and of which
    length. *)
Definition fresh_length (pin : Z) (b : Board) : option Z :=
  match List.find (on_pin pin) (neoPixel b) with
  | Some s =>
      match Strip.colors s with
      | Some _ => None
      | None => Some (Strip.length s)
      end
  | None => Some (defaultNeoPixelLength (settings b))
  end.

Definition null_everywhere : ColorMapFn := fun _ _ _ => None.

(** Strip A on pin 3: five LEDs, the last one coloured, then reconfigured
    to two LEDs. *)
Definition shortened_world : World :=
  snd (@neoPixelConfigStrip node_pixel 3 2
         (snd (@neoPixelSetColor node_pixel 3 [9; 9; 9] (Some 4)
                 (snd (@neoPixelConfigStrip node_pixel 3 5 ready_world))))).

(** The colour buffer of the strip on a pin. *)
Definition colors_on (pin : Z) (w : World) : option (list Slot) :=
  match List.find (on_pin pin) (neoPixel (board w)) with
  | Some s => Strip.colors s
  | None => None
  end.

(** *** The queries of the command/response correlator *)

Inductive QueryCall :=
| query_version (timeout : option Z)
| query_distance (pin : Z) (timeout : option Z)
| query_water_temp (pin : Z) (timeout : option Z).

Definition start_query (q : QueryCall) : M Query :=
  match q with
  | query_version timeout => boardVersion timeout
  | query_distance pin timeout => getDistanceByUltrasonic pin timeout
  | query_water_temp pin timeout => getWaterTemp pin timeout
  end.

(** The event a query waits for and the delay of its timer. *)
Definition event_of (q : QueryCall) : EventName :=
  match q with
  | query_version _ => board_version_reply
  | query_distance pin _ => ultrasonic_distance_reply pin
  | query_water_temp pin _ => water_temp_reply pin
  end.

Definition delay_of (q : QueryCall) (b : Board) : Z :=
  match q with
  | query_version timeout => timeout_or timeout (boardVersionWaitingTime (settings b))
  | query_distance _ timeout =>
      timeout_or timeout (ultrasonicDistanceWaitingTime (settings b))
  | query_water_temp _ timeout =>
      timeout_or timeout (getWaterTempWaitingTime (settings b))
  end.

(** Every listener belongs to a request that exists. *)
Definition listeners_bounded (w : World) : Prop :=
  forall fid f entry,
    heap w !! fid = Some f -> In entry (listeners f) ->
    (listener_req (snd entry) < List.length (requests w))%nat.

(** The board is connected to Firmata object [fid] and the query sends
    its command: the version is not known yet, the pin of a distance query
    is in the pin table. *)
Definition can_start (q : QueryCall) (w : World) (fid : nat) : Prop :=
  firmata (board w) = Some fid
  /\ (exists f, heap w !! fid = Some f
                /\ match q with
                   | query_distance pin _ => exists p, pin_at (pins f) pin = Some p
                   | _ => True
                   end)
  /\ match q with
     | query_version _ => version (board w) = None
     | _ => True
     end
  /\ listeners_bounded w.

(** A task that is neither the timer of request [id] nor the event [ev]
    on Firmata object [fid]. *)
Definition quiet (id fid : nat) (ev : EventName) (t : Task) : Prop :=
  match t with
  | timer_fires id' => id' <> id
  | firmata_emits fid' ev' _ => ~ (fid' = fid /\ ev' = ev)
  end.

(** Request [id] is waiting: both promises pending, and no listener
    refers to it but under its event on its Firmata object. *)
Definition armed (w : World) (id fid : nat) (ev : EventName) (d : Z) : Prop :=
  (exists r, requests w !! id = Some r
             /\ req_event r = ev /\ req_firmata r = fid /\ req_delay r = d
             /\ req_request r = Pending /\ req_result r = Pending)
  /\ forall fid' f entry,
       heap w !! fid' = Some f -> In entry (listeners f) ->
       listener_req (snd entry) = id -> fid' = fid /\ fst entry = ev.

(** Request [id] has timed out: the caller's promise is rejected with the
    timeout, the [request] promise never settled, no listener refers to the
    request and none is left for its event. *)
Definition timed_out (w : World) (id fid : nat) (ev : EventName) (d : Z) : Prop :=
  (exists r, requests w !! id = Some r
             /\ req_request r = Pending
             /\ req_result r = Rejected (timeout_reason d))
  /\ (forall fid' f entry,
        heap w !! fid' = Some f -> In entry (listeners f) ->
        listener_req (snd entry) <> id)
  /\ listeners_for w fid ev = [].

(** One world comes after another when no Firmata object has gained a
    listener. *)
Definition shrinks (w w' : World) : Prop :=
  forall fid f',
    heap w' !! fid = Some f' ->
    exists f, heap w !! fid = Some f
              /\ forall entry, In entry (listeners f') -> In entry (listeners f).

(** ** Further methods and auxiliary definitions *)

(** The colour value a set-pixel message carries in its four 7-bit
    bytes. *)
Definition frame_color (message : list Z) : Z :=
  nth 4 message 0 + 128 * nth 5 message 0
  + 128 ^ 2 * nth 6 message 0 + 128 ^ 3 * nth 7 message 0.

(** A colour component that indexes the gamma table. *)
Definition is_byte (c : Z) : Prop := 0 <= c < 256.

(** [isConnected] and [isReady]. *)
Definition isConnected (b : Board) : bool :=
  String.eqb (state b) "connect" || String.eqb (state b) "ready".

Definition isReady (b : Board) : bool := String.eqb (state b) "ready".

(** [getDigitalValue]: [this.pins[pin].value], where [pins] is the getter
    on [this.firmata.pins]. *)
Definition getDigitalValue (pin : Z) : M Z :=
  let* fid := this_firmata in
  let* p := firmata_pin fid pin in
  ret (Pin.value p).

(** The strip registered on a pin. *)
Definition strip_on (pin : Z) (w : World) : option Strip.t :=
  List.find (on_pin pin) (neoPixel (board w)).

(** The calls of the NeoPixel interface. *)
Inductive NeoPixelCall :=
| config_call (pin length : Z)
| setColor_call (pin : Z) (color : list Z) (index : option Z)
| fillColor_call (pin : Z) (colorMapFn : ColorMapFn)
| show_call
| clear_call (pin : Z)
| clearAll_call.

Section NeoPixelCalls.
Context `{NodePixelConstants}.

(** [neoPixelClearAll]: the loop runs over the registry as it is when the
    loop begins; clearing a strip of the registry never configures one, so
    the array is the same at every turn. *)
Definition neoPixelClearAll : M unit :=
  let* strips := gets neoPixel in
  for_each strips
    (fun aStrip => neoPixelFillColor (Strip.pin aStrip) (fun _ _ _ => Some [0; 0; 0])) >>
  neoPixelShow.

Definition run_call (c : NeoPixelCall) : M unit :=
  match c with
  | config_call pin length => neoPixelConfigStrip pin length
  | setColor_call pin color index => neoPixelSetColor pin color index
  | fillColor_call pin colorMapFn => neoPixelFillColor pin colorMapFn
  | show_call => neoPixelShow
  | clear_call pin => neoPixelClear pin
  | clearAll_call => neoPixelClearAll
  end.

(** A sequence of calls, each awaited, whether it resolves or rejects. *)
Definition run_calls (w : World) (cs : list NeoPixelCall) : World :=
  fold_left (fun w c => snd (run_call c w)) cs w.

End NeoPixelCalls.

(** A property of the world that a computation keeps, however it ends. *)
Definition keeps {A} (I : World -> Prop) (m : M A) : Prop :=
  forall w r w', m w = (r, w') -> I w -> I w'.

(** The registry has no two strips on one pin. *)
Definition registry_unique (w : World) : Prop := unique_pins (neoPixel (board w)).

(** A board that has never been connected. *)
Definition disconnected_world : World :=
  {| board := constructor; heap := []; requests := [] |}.

(** Every strip of the registry has at least one LED. *)
Definition positive_lengths (strips : list Strip.t) : Prop :=
  forall s, In s strips -> 0 < Strip.length s.

(** The address at which the strip on [pin] begins. *)
Definition base_address (strips : list Strip.t) (pin : Z) : Z :=
  sum_lengths (strips_before pin strips).

(** The pin and the length of a strip: what the addresses depend on. *)
Definition strip_shape (s : Strip.t) : Z * Z := (Strip.pin s, Strip.length s).

Definition shape (w : World) : list (Z * Z) := map strip_shape (neoPixel (board w)).

(** The registry is in order for the loop of [neoPixelFillColor] on
    [pin]: pins are unique, the strips have the pins and lengths [sh], and
    the strip on [pin] has [len] LEDs, begins at [base] and writes into
    [buffer]. *)
Definition fill_ready (pin len base : Z) (buffer : list Slot) (sh : list (Z * Z))
  (w : World) : Prop :=
  unique_pins (neoPixel (board w))
  /\ shape w = sh
  /\ exists s, strip_on pin w = Some s
               /\ Strip.length s = len
               /\ base_address (neoPixel (board w)) pin = base
               /\ buffer_of s = buffer.

(** The colour buffer after the loop of [neoPixelFillColor] has run over
    [indices]. *)
Definition fill_buffer (newColors : list (option (list Z))) (indices : list nat)
  (buffer : list Slot) : list Slot :=
  fold_left
    (fun buffer index =>
       match newColors !! index with
       | Some (Some color) => array_set buffer (Z.of_nat index) (Col color)
       | _ => buffer
       end)
    indices buffer.

Section FillFrames.
Context `{NodePixelConstants}.

(** The message the loop of [neoPixelFillColor] enqueues at one index, if
    any. *)
Definition fill_frame (newColors : list (option (list Z))) (base : Z) (index : nat)
  : list (list Z) :=
  match newColors !! index with
  | Some (Some color) =>
      [set_pixel_message (Some (base + Z.of_nat index))
         (neoPixelColorValue color neoPixelGammaTable)]
  | _ => []
  end.

(** The messages of [neoPixelClear] on a strip of [len] LEDs that begins
    at [base]: black for each LED, then the show command. *)
Definition clear_frames (base len : Z) : list (list Z) :=
  map (fun index : nat => set_pixel_message (Some (base + Z.of_nat index)) (Some 0))
    (seq 0 (Z.to_nat len))
  ++ [[PIXEL_COMMAND; PIXEL_SHOW]].

(** A black set-pixel message for each of the addresses from [first] on. *)
Definition black_frames (first count : nat) : list (list Z) :=
  map (fun address : nat => set_pixel_message (Some (Z.of_nat address)) (Some 0))
    (seq first count).

End FillFrames.

(** The version a [board-version-reply] listener reads from its data. *)
Definition decode_version (data : list Z) : Version.t :=
  let value := Firmata_decode (byte_at data 0) (byte_at data 1) in
  {| Version.type := JS.and (JS.shr value 10) 0x0F;
     Version.major := JS.and (JS.shr value 6) 0x0F;
     Version.minor := JS.and value 0x3F |}.

(** The listener a query registers for request [id]. *)
Definition listener_of (q : QueryCall) (id : nat) : Listener :=
  match q with
  | query_version _ => version_listener id
  | query_distance _ _ | query_water_temp _ _ => sensor_listener id
  end.

(** How the listener of a query settles the request when the event comes
    with [data]. *)
Definition reply_of (q : QueryCall) (data : list Z) : Settled Value :=
  match q with
  | query_version _ => Resolved (version_string (decode_version data))
  | query_distance _ _ | query_water_temp _ _ =>
      match data with
      | [] => Rejected not_available
      | _ => Resolved (number (decodeInt16FromTwo7bitBytes data))
      end
  end.

(** Request [id] can no longer be answered: the [request] promise is
    pending and no listener refers to it, so that only its timer, of delay
    [d], can settle the promise handed to the caller. *)
Definition orphaned (w : World) (id : nat) (d : Z) : Prop :=
  (exists r, requests w !! id = Some r
             /\ req_delay r = d
             /\ req_request r = Pending
             /\ (req_result r = Pending \/ req_result r = Rejected (timeout_reason d)))
  /\ forall fid f entry,
       heap w !! fid = Some f -> In entry (listeners f) ->
       listener_req (snd entry) <> id.

(** * Properties *)

Lemma zrange_In (n : nat) (z : Z) : 0 <= z < Z.of_nat n -> In z (zrange n).
Proof.
  intros Hz. unfold zrange. apply in_map_iff.
  exists (Z.to_nat z). split; [lia|]. apply in_seq. lia.
Qed.

(** *** Arithmetic reading of the bitwise operators on small operands *)

Lemma toInt32_small (z : Z) : - 2 ^ 31 <= z < 2 ^ 31 -> JS.toInt32 z = z.
Proof.
  intros Hz. unfold JS.toInt32. rewrite Z.mod_small; lia.
Qed.

Lemma shl_small (a n : Z) :
  0 <= n < 32 -> - 2 ^ 31 <= a < 2 ^ 31 -> - 2 ^ 31 <= a * 2 ^ n < 2 ^ 31 ->
  JS.shl a n = a * 2 ^ n.
Proof.
  intros Hn Ha Hr. unfold JS.shl.
  rewrite (toInt32_small a Ha), (Z.mod_small n 32) by lia.
  rewrite Z.shiftl_mul_pow2 by lia. now apply toInt32_small.
Qed.

Lemma shr_small (a n : Z) :
  0 <= n < 32 -> - 2 ^ 31 <= a < 2 ^ 31 -> JS.shr a n = a / 2 ^ n.
Proof.
  intros Hn Ha. unfold JS.shr.
  rewrite (toInt32_small a Ha), (Z.mod_small n 32) by lia.
  apply Z.shiftr_div_pow2. lia.
Qed.

(** [n] low bits and a multiple of [2^n] share no bit, so [|] adds them. *)
Lemma lor_disjoint (n lo hi : Z) :
  0 <= n -> 0 <= lo < 2 ^ n -> Z.lor lo (2 ^ n * hi) = lo + 2 ^ n * hi.
Proof.
  intros Hn Hlo.
  assert (Hdis : Z.land lo (2 ^ n * hi) = 0).
  { replace lo with (Z.land lo (Z.ones n)).
    2:{ rewrite Z.land_ones by lia. now apply Z.mod_small. }
    rewrite <- Z.land_assoc, (Z.land_comm (Z.ones n)), Z.land_ones by lia.
    rewrite Z.mul_comm, Z_mod_mult. apply Z.land_0_r. }
  rewrite <- (Z.lxor_lor _ _ Hdis). symmetry. now apply Z.add_nocarry_lxor.
Qed.

Lemma land_255 (a : Z) : Z.land a 255 = a mod 256.
Proof. change 255 with (Z.ones 8). rewrite Z.land_ones by lia. reflexivity. Qed.

Lemma lor_sign_fill (b1 : Z) :
  0 <= b1 < 128 -> Z.lor (b1 / 2) (sign_fill b1) = b1 / 2 + sign_fill b1.
Proof.
  intros Hb. unfold sign_fill.
  assert (Hq : 0 <= b1 / 2 < 2 ^ 6) by (Z.to_euclidean_division_equations; lia).
  destruct (b1 / 64 =? 0).
  - rewrite Z.lor_0_r. lia.
  - apply (lor_disjoint 6 (b1 / 2) 3); lia.
Qed.

Lemma decode_lsb (b0 b1 : Z) :
  0 <= b0 < 128 -> 0 <= b1 < 128 ->
  JS.and (JS.or b0 (JS.shl b1 7)) 255 = (b0 + 128 * b1) mod 256.
Proof.
  intros H0 H1. unfold JS.and, JS.or.
  rewrite (shl_small b1 7) by lia.
  rewrite (toInt32_small b0), (toInt32_small (b1 * 2 ^ 7)), (toInt32_small 255) by lia.
  rewrite (Z.mul_comm b1), (lor_disjoint 7 b0 b1), toInt32_small by lia.
  rewrite land_255. f_equal.
Qed.

Lemma decode_msb (b1 : Z) :
  0 <= b1 < 128 ->
  JS.or (JS.shr b1 1) (if JS.shr b1 6 =? 0 then 0 else 192) = b1 / 2 + sign_fill b1.
Proof.
  intros H1. unfold JS.or.
  rewrite (shr_small b1 1), (shr_small b1 6) by lia.
  change (2 ^ 1) with 2. change (2 ^ 6) with 64. fold (sign_fill b1).
  assert (Hq : 0 <= b1 / 2 < 64) by (Z.to_euclidean_division_equations; lia).
  assert (Hs : 0 <= sign_fill b1 <= 192) by (unfold sign_fill; destruct (_ =? _); lia).
  rewrite !toInt32_small by lia.
  now apply lor_sign_fill.
Qed.

Lemma testbit13 (v : Z) : 0 <= v < 2 ^ 14 -> Z.testbit v 13 = (8192 <=? v).
Proof.
  intros Hv. rewrite Z.testbit_odd, Z.shiftr_div_pow2 by lia.
  change (2 ^ 13) with 8192.
  destruct (8192 <=? v) eqn:E.
  - apply Z.leb_le in E. replace (v / 8192) with 1; [reflexivity|].
    Z.to_euclidean_division_equations; lia.
  - apply Z.leb_gt in E. rewrite Z.div_small by lia. reflexivity.
Qed.

Lemma decode_spec (b0 b1 : Z) :
  0 <= b0 < 128 -> 0 <= b1 < 128 ->
  decodeInt16FromTwo7bitBytes [b0; b1] = sign_extend14 (reassemble14 b0 b1).
Proof.
  intros H0 H1. unfold decodeInt16FromTwo7bitBytes, byte_at. cbn [nth].
  rewrite (decode_lsb b0 b1 H0 H1), (decode_msb b1 H1).
  unfold getInt16_le, sign_extend14, reassemble14.
  rewrite testbit13 by lia.
  assert (Hs : sign_fill b1 = if 64 <=? b1 then 192 else 0).
  { unfold sign_fill. destruct (64 <=? b1) eqn:E.
    - apply Z.leb_le in E. replace (b1 / 64) with 1
        by (Z.to_euclidean_division_equations; lia). reflexivity.
    - apply Z.leb_gt in E. rewrite Z.div_small by lia. reflexivity. }
  rewrite Hs.
  destruct (64 <=? b1) eqn:E64; [apply Z.leb_le in E64 | apply Z.leb_gt in E64].
  - replace (8192 <=? b0 + 128 * b1) with true by (symmetry; apply Z.leb_le; lia).
    match goal with |- (if ?u <? 32768 then _ else _) = _ =>
      replace (u <? 32768) with false
        by (symmetry; apply Z.ltb_ge; Z.to_euclidean_division_equations; lia) end.
    Z.to_euclidean_division_equations; lia.
  - replace (8192 <=? b0 + 128 * b1) with false by (symmetry; apply Z.leb_gt; lia).
    match goal with |- (if ?u <? 32768 then _ else _) = _ =>
      replace (u <? 32768) with true
        by (symmetry; apply Z.ltb_lt; Z.to_euclidean_division_equations; lia) end.
    Z.to_euclidean_division_equations; lia.
Qed.

(** C7. Every payload of two 7-bit bytes decodes to its fourteen
    reassembled bits (seven from each byte, low byte first) sign-extended
    from bit 13, a signed 16-bit value; the payload [0x7F, 0x01]
    reassembles to 0xFF and decodes to 255. *)
Theorem decodeInt16_sign_extends (b0 b1 : Z) :
  0 <= b0 < 128 -> 0 <= b1 < 128 ->
  decodeInt16FromTwo7bitBytes [b0; b1] = sign_extend14 (reassemble14 b0 b1)
  /\ -32768 <= decodeInt16FromTwo7bitBytes [b0; b1] < 32768
  /\ reassemble14 127 1 = 255
  /\ decodeInt16FromTwo7bitBytes [127; 1] = 255.
Proof.
  intros H0 H1.
  pose proof (decode_spec b0 b1 H0 H1) as Hd.
  split; [exact Hd|]. split; [|split; reflexivity].
  rewrite Hd. unfold sign_extend14, reassemble14.
  destruct (Z.testbit _ 13); lia.
Qed.

Lemma decodeInt16_sign_extends_witness :
  decodeInt16FromTwo7bitBytes [127; 1] = sign_extend14 (reassemble14 127 1).
Proof.
  apply (decodeInt16_sign_extends 127 1); lia.
Defined.

Lemma gamma_entries_ok : forallb gamma_entry_ok (zrange 256) = true.
Proof. vm_compute. reflexivity. Qed.

Lemma gamma_steps_ok : forallb gamma_step_ok (zrange 255) = true.
Proof. vm_compute. reflexivity. Qed.

(** ** The gamma table *)

Lemma zrange_nth (n : nat) (i : Z) (f : Z -> Z) :
  0 <= i < Z.of_nat n -> nth (Z.to_nat i) (map f (zrange n)) 0 = f i.
Proof.
  intros Hi. unfold zrange. rewrite map_map.
  rewrite (nth_indep _ 0 (f (Z.of_nat 0))) by (rewrite length_map, length_seq; lia).
  rewrite (map_nth (fun k => f (Z.of_nat k))), seq_nth by lia.
  f_equal. lia.
Qed.

Lemma forallb_zrange (n : nat) (p : Z -> bool) (i : Z) :
  forallb p (zrange n) = true -> 0 <= i < Z.of_nat n -> p i = true.
Proof.
  intros Hall Hi. rewrite forallb_forall in Hall. apply Hall. now apply zrange_In.
Qed.

Local Open Scope R_scope.

(** Fractions compared through their cleared powers. *)
Lemma frac_pow_le (A B C D : R) (n m : nat) :
  0 < B -> 0 < D -> A ^ n * D ^ m <= B ^ n * C ^ m -> (A / B) ^ n <= (C / D) ^ m.
Proof.
  intros HB HD H.
  assert (HP : 0 < B ^ n) by now apply pow_lt.
  assert (HQ : 0 < D ^ m) by now apply pow_lt.
  unfold Rdiv. rewrite !Rpow_mult_distr, !pow_inv.
  apply (Rmult_le_reg_r (B ^ n * D ^ m)); [now apply Rmult_lt_0_compat|].
  replace (A ^ n * / B ^ n * (B ^ n * D ^ m)) with (A ^ n * D ^ m) by (field; lra).
  replace (C ^ m * / D ^ m * (B ^ n * D ^ m)) with (B ^ n * C ^ m) by (field; lra).
  exact H.
Qed.

(** [x ^ (14/5)] is the fifth root of [x ^ 14]. *)
Lemma Rpower_gamma_pow5 (x : R) : 0 < x -> Rpower (x ^ 14) (/ 5) = Rpower x gamma.
Proof.
  intros Hx. rewrite <- (Rpower_pow 14 x Hx), Rpower_mult.
  f_equal. unfold gamma. simpl. field.
Qed.

Lemma Rpower_pow5_root (a : R) : 0 < a -> Rpower (a ^ 5) (/ 5) = a.
Proof.
  intros Ha. rewrite <- (Rpower_pow 5 a Ha), Rpower_mult.
  replace (INR 5 * / 5) with 1 by (simpl; field).
  now apply Rpower_1.
Qed.

Lemma gamma_root_lower (a x : R) :
  0 < a -> 0 < x -> a ^ 5 <= x ^ 14 -> a <= Rpower x gamma.
Proof.
  intros Ha Hx H.
  rewrite <- (Rpower_pow5_root a Ha), <- (Rpower_gamma_pow5 x Hx).
  apply Rle_Rpower_l; [lra|]. split; [now apply pow_lt | exact H].
Qed.

Lemma gamma_root_upper (b x : R) :
  0 < b -> 0 < x -> x ^ 14 <= b ^ 5 -> Rpower x gamma <= b.
Proof.
  intros Hb Hx H.
  rewrite <- (Rpower_pow5_root b Hb), <- (Rpower_gamma_pow5 x Hx).
  apply Rle_Rpower_l; [lra|]. split; [now apply pow_lt | exact H].
Qed.

Lemma real_pow_pos (x y : R) : 0 < x -> real_pow x y = Rpower x y.
Proof. intros Hx. unfold real_pow. destruct (Rlt_dec 0 x); [reflexivity | contradiction]. Qed.

Lemma real_pow_0 (y : R) : real_pow 0 y = 0.
Proof. unfold real_pow. destruct (Rlt_dec 0 0); [lra | reflexivity]. Qed.

Lemma IZR_pow5 (z : Z) : IZR z ^ 5 = IZR (z ^ 5).
Proof. now rewrite pow_IZR. Qed.

Lemma IZR_pow14 (z : Z) : IZR z ^ 14 = IZR (z ^ 14).
Proof. now rewrite pow_IZR. Qed.

(** The certificates, read back over the reals. *)
Lemma gamma_lower_sound (i k : Z) :
  (0 < i)%Z -> gamma_lower_ok i k = true ->
  IZR k + / 2048 <= gamma_expr i.
Proof.
  intros Hi Hok. unfold gamma_expr.
  assert (Hx : 0 < IZR i / 255).
  { apply Rdiv_lt_0_compat; [now apply IZR_lt | lra]. }
  rewrite (real_pow_pos _ _ Hx).
  assert (Hr : 0 < Rpower (IZR i / 255) gamma) by apply exp_pos.
  unfold gamma_lower_ok in Hok. apply orb_true_iff in Hok.
  destruct Hok as [Hneg | Hle].
  - apply Z.leb_le in Hneg. apply IZR_le in Hneg.
    rewrite minus_IZR, mult_IZR in Hneg. lra.
  - apply Z.leb_le in Hle.
    destruct (Rle_dec (IZR (2048 * k - 1023)) 0) as [Hn | Hp].
    { rewrite minus_IZR, mult_IZR in Hn. lra. }
    apply Rnot_le_lt in Hp.
    assert (Ha : IZR (2048 * k - 1023) / 522240 <= Rpower (IZR i / 255) gamma).
    { apply gamma_root_lower; [apply Rdiv_lt_0_compat; lra | exact Hx |].
      apply frac_pow_le; [lra | lra |].
      rewrite !IZR_pow5, !IZR_pow14, <- !mult_IZR. now apply IZR_le. }
    rewrite minus_IZR, mult_IZR in Ha. lra.
Qed.

Lemma gamma_upper_sound (i k : Z) :
  (0 < i)%Z -> (0 <= k)%Z -> gamma_upper_ok i k = true ->
  gamma_expr i <= IZR k + 1 - / 2048.
Proof.
  intros Hi Hk Hok. unfold gamma_expr.
  assert (Hx : 0 < IZR i / 255).
  { apply Rdiv_lt_0_compat; [now apply IZR_lt | lra]. }
  rewrite (real_pow_pos _ _ Hx).
  unfold gamma_upper_ok in Hok. apply Z.leb_le in Hok.
  assert (Hkr : 0 <= IZR k) by now apply IZR_le.
  assert (Hb : Rpower (IZR i / 255) gamma <= IZR (2048 * k + 1023) / 522240).
  { apply gamma_root_upper; [|exact Hx|].
    - apply Rdiv_lt_0_compat; [|lra]. rewrite plus_IZR, mult_IZR. lra.
    - apply frac_pow_le; [lra | lra |].
      rewrite !IZR_pow5, !IZR_pow14, <- !mult_IZR. apply IZR_le. lia. }
  rewrite plus_IZR, mult_IZR in Hb. lra.
Qed.

Lemma gamma_expr_0 : gamma_expr 0 = / 2.
Proof.
  unfold gamma_expr. replace (0 / 255) with 0 by (unfold Rdiv; ring).
  rewrite real_pow_0. ring.
Qed.

(** Every entry is the floor of the exact expression, with room to spare. *)
Lemma gamma_entry_margin (i : Z) :
  (0 <= i < 256)%Z ->
  IZR (gammaTable_at i) + / 2048 <= gamma_expr i <= IZR (gammaTable_at i) + 1 - / 2048.
Proof.
  intros Hi.
  pose proof (forallb_zrange 256 gamma_entry_ok i gamma_entries_ok Hi) as Hok.
  unfold gamma_entry_ok in Hok.
  apply andb_true_iff in Hok as [Hok Hup]. apply andb_true_iff in Hok as [Hk Hlo].
  apply Z.leb_le in Hk.
  destruct (Z.eq_dec i 0%Z) as [-> | Hnz].
  - rewrite gamma_expr_0. change (gammaTable_at 0) with 0%Z. lra.
  - split.
    + apply gamma_lower_sound; [lia | exact Hlo].
    + apply gamma_upper_sound; [lia | exact Hk | exact Hup].
Qed.

Lemma gammaTable_unfold : neoPixelGammaTable = map gammaTable_at (zrange 256).
Proof. reflexivity. Qed.

Lemma gammaTable_monotone (u v : Z) :
  (0 <= u <= v)%Z -> (v < 256)%Z -> (gammaTable_at u <= gammaTable_at v)%Z.
Proof.
  intros Huv Hv.
  replace v with (u + Z.of_nat (Z.to_nat (v - u)))%Z in * by lia.
  induction (Z.to_nat (v - u)) as [|d IH].
  - rewrite Z.add_0_r. lia.
  - assert (Hstep : gamma_step_ok (u + Z.of_nat d) = true)
      by (apply (forallb_zrange 255 _ _ gamma_steps_ok); lia).
    unfold gamma_step_ok in Hstep. apply Z.leb_le in Hstep.
    replace (u + Z.of_nat (S d))%Z with (u + Z.of_nat d + 1)%Z by lia.
    etransitivity; [apply IH; lia | exact Hstep].
Qed.

(** C8. Whatever double-precision arithmetic evaluates the source
    expression to, as long as it stays within 1/2048 of its real value, the
    256-entry table the loop builds is [neoPixelGammaTable]; each entry [v]
    is [round (255 * (v/255)^2.8)], the table never decreases, and it runs
    from 0 at index 0 to 255 at index 255. *)
Theorem neoPixelGammaTable_spec (fl : Z -> R) :
  (forall i, (0 <= i < 256)%Z -> Rabs (fl i - gamma_expr i) < / 2048) ->
  gammaTableIIFE fl 256 = neoPixelGammaTable
  /\ (forall v, (0 <= v < 256)%Z ->
        gammaTable_at v = round_half_up (255 * real_pow (IZR v / 255) gamma))
  /\ (forall u v, (0 <= u <= v)%Z -> (v < 256)%Z ->
        (gammaTable_at u <= gammaTable_at v)%Z)
  /\ gammaTable_at 0 = 0%Z
  /\ gammaTable_at 255 = 255%Z.
Proof.
  intros Hfl. split; [|split; [|split; [|split; reflexivity]]].
  - rewrite gammaTable_unfold. unfold gammaTableIIFE.
    apply map_ext_in. intros i Hin.
    assert (Hi : (0 <= i < 256)%Z).
    { unfold zrange in Hin. apply in_map_iff in Hin as (n & <- & Hn).
      apply in_seq in Hn. lia. }
    apply Zfloor_eq.
    pose proof (gamma_entry_margin i Hi) as [Hlo Hhi].
    specialize (Hfl i Hi). apply Rabs_def2 in Hfl as [H1 H2]. lra.
  - intros v Hv. unfold round_half_up. symmetry. apply Zfloor_eq.
    pose proof (gamma_entry_margin v Hv) as [Hlo Hhi].
    unfold gamma_expr in Hlo, Hhi. lra.
  - exact gammaTable_monotone.
Qed.

Lemma neoPixelGammaTable_spec_witness :
  gammaTableIIFE gamma_expr 256 = neoPixelGammaTable.
Proof.
  apply (neoPixelGammaTable_spec gamma_expr).
  intros i _. rewrite Rminus_diag, Rabs_R0. lra.
Defined.

Local Close Scope R_scope.

(** ** The pin table and the heap *)

Lemma pin_at_update_eq (ps : list Pin.t) (pin : Z) (p p' : Pin.t) :
  pin_at ps pin = Some p -> pin_at (pin_update ps pin p') pin = Some p'.
Proof.
  unfold pin_at, pin_update. destruct (pin <? 0); [discriminate|].
  intros Hp. apply list_lookup_insert_eq. now apply lookup_lt_Some in Hp.
Qed.

Lemma pin_at_update_ne (ps : list Pin.t) (pin pin' : Z) (p' : Pin.t) :
  pin <> pin' -> pin_at (pin_update ps pin p') pin' = pin_at ps pin'.
Proof.
  intros Hne. unfold pin_at, pin_update.
  destruct (pin' <? 0) eqn:E'; [reflexivity|].
  destruct (pin <? 0) eqn:E; [reflexivity|].
  apply list_lookup_insert_ne. lia.
Qed.

Lemma pin_update_update (ps : list Pin.t) (pin : Z) (p1 p2 : Pin.t) :
  pin_update (pin_update ps pin p1) pin p2 = pin_update ps pin p2.
Proof.
  unfold pin_update. destruct (pin <? 0); [reflexivity|].
  apply list_insert_insert_eq.
Qed.

Lemma heap_insert_lookup (h : list Firmata) (fid : nat) (f f' : Firmata) :
  h !! fid = Some f -> <[fid := f']> h !! fid = Some f'.
Proof.
  intros Hf. apply list_lookup_insert_eq. now apply lookup_lt_Some in Hf.
Qed.

(** ** Running the primitives *)

Lemma this_firmata_ok (w : World) (fid : nat) :
  firmata (board w) = Some fid -> this_firmata w = (Ok fid, w).
Proof. intros Hf. unfold this_firmata. now rewrite Hf. Qed.

Lemma firmata_get_ok (w : World) (fid : nat) (f : Firmata) :
  heap w !! fid = Some f -> firmata_get fid w = (Ok f, w).
Proof. intros Hf. unfold firmata_get. now rewrite Hf. Qed.

Lemma firmata_pin_ok (w : World) (fid : nat) (f : Firmata) (pin : Z) (p : Pin.t) :
  heap w !! fid = Some f -> pin_at (pins f) pin = Some p ->
  firmata_pin fid pin w = (Ok p, w).
Proof.
  intros Hf Hp. unfold firmata_pin, bind. rewrite (firmata_get_ok w fid f Hf).
  now rewrite Hp.
Qed.

Lemma firmata_do_ok (w : World) (fid : nat) (f f' : Firmata)
  (op : Firmata -> Res Firmata) :
  heap w !! fid = Some f -> op f = Ok f' ->
  firmata_do fid op w = (Ok tt, World_set_heap w (<[fid := f']> (heap w))).
Proof. intros Hf Hop. unfold firmata_do. now rewrite Hf, Hop. Qed.

Lemma Firmata_pinMode_ok (f : Firmata) (pin mode : Z) (p : Pin.t) :
  pin_at (pins f) pin = Some p ->
  Firmata_pinMode pin mode f
  = Ok (Firmata_log
          (Firmata_set_pins f (pin_update (pins f) pin (Pin.set_mode p mode)))
          (call_pinMode pin mode)).
Proof. intros Hp. unfold Firmata_pinMode. now rewrite Hp. Qed.

Lemma Firmata_digitalWrite_ok (f : Firmata) (pin value : Z) (enqueue : bool) (p : Pin.t) :
  pin_at (pins f) pin = Some p ->
  Firmata_digitalWrite pin value enqueue f
  = Ok (Firmata_log
          (Firmata_set_pins f (pin_update (pins f) pin (Pin.set_value p value)))
          (call_digitalWrite pin value enqueue)).
Proof. intros Hp. unfold Firmata_digitalWrite. now rewrite Hp. Qed.

(** *** Stepping through a method *)

Lemma bind_gets {A B} (g : Board -> A) (k : A -> M B) (w : World) :
  bind (gets g) k w = k (g (board w)) w.
Proof. reflexivity. Qed.

Lemma bind_ret {A B} (a : A) (k : A -> M B) (w : World) : bind (ret a) k w = k a w.
Proof. reflexivity. Qed.

Lemma bind_modify {B} (g : Board -> Board) (k : unit -> M B) (w : World) :
  bind (modify g) k w = k tt (World_set_board w (g (board w))).
Proof. reflexivity. Qed.

Lemma bind_ok {A B} (m : M A) (k : A -> M B) (w w' : World) (a : A) :
  m w = (Ok a, w') -> bind m k w = k a w'.
Proof. intros Hm. unfold bind. now rewrite Hm. Qed.

Lemma bind_throw {A B} (m : M A) (k : A -> M B) (w w' : World) (e : Error) :
  m w = (Throw e, w') -> bind m k w = (Throw e, w').
Proof. intros Hm. unfold bind. now rewrite Hm. Qed.

Lemma bind_assoc {A B C} (m : M A) (k1 : A -> M B) (k2 : B -> M C) (w : World) :
  bind (bind m k1) k2 w = bind m (fun a => bind (k1 a) k2) w.
Proof. unfold bind. destruct (m w) as [[a|e] w']; reflexivity. Qed.

Lemma in_promise_ok {A} (m : M (Settled A)) (w w' : World) (s : Settled A) :
  m w = (Ok s, w') -> in_promise m w = (Ok s, w').
Proof. intros Hm. unfold in_promise. now rewrite Hm. Qed.

Lemma in_promise_throw {A} (m : M (Settled A)) (w w' : World) (e : Error) :
  m w = (Throw e, w') -> in_promise m w = (Ok (Rejected (thrown e)), w').
Proof. intros Hm. unfold in_promise. now rewrite Hm. Qed.

Arguments bind {A B} m k w : simpl never.
Arguments gets {A} f w : simpl never.
Arguments modify f w : simpl never.
Arguments this_firmata w : simpl never.
Arguments firmata_get fid w : simpl never.
Arguments firmata_do fid op w : simpl never.
Arguments firmata_pin fid pin w : simpl never.
Arguments in_promise {A} m w : simpl never.

(** Lookups in a heap or a pin table that has just been written. *)
Ltac heap_lookup :=
  cbn; first [eassumption | eapply heap_insert_lookup; heap_lookup].

Ltac pin_lookup :=
  cbn; first [eassumption | eapply pin_at_update_eq; pin_lookup].

(** One step of a method: the first statement is run, the rest remains. *)
Ltac mstep :=
  first
    [ rewrite bind_assoc
    | rewrite bind_gets
    | rewrite bind_modify
    | rewrite bind_ret
    | erewrite (bind_ok this_firmata); [|apply this_firmata_ok; cbn; eassumption]
    | erewrite (bind_ok (firmata_get _)); [|apply firmata_get_ok; heap_lookup]
    | erewrite (bind_ok (firmata_pin _ _));
      [|eapply firmata_pin_ok; [heap_lookup | pin_lookup]]
    | erewrite (bind_ok (firmata_do _ (Firmata_pinMode _ _)));
      [|eapply firmata_do_ok; [heap_lookup | eapply Firmata_pinMode_ok; pin_lookup]]
    | erewrite (bind_ok (firmata_do _ (Firmata_digitalWrite _ _ _)));
      [|eapply firmata_do_ok;
        [heap_lookup | eapply Firmata_digitalWrite_ok; pin_lookup]]
    | erewrite (bind_ok (firmata_do _ _));
      [|eapply firmata_do_ok; [heap_lookup | reflexivity]] ];
  cbn.

(** ** [digitalWrite] *)

(** C10. When the value cached in the pin table is the value asked for,
    [digitalWrite] leaves everything as it was: nothing is sent, the mode
    stays.  When it differs, the pin is set to output mode and the value
    is written, and that is all that happens. *)
Theorem digitalWrite_skips_cached_value
  (w : World) (fid : nat) (f : Firmata) (pin value : Z) (enqueue : bool) (p : Pin.t) :
  firmata (board w) = Some fid ->
  heap w !! fid = Some f ->
  pin_at (pins f) pin = Some p ->
  (Pin.value p = value -> digitalWrite pin value enqueue w = (Ok tt, w))
  /\ (Pin.value p <> value ->
      digitalWrite pin value enqueue w
      = (Ok tt, World_set_heap w
                  (<[fid := written_firmata f pin value enqueue]> (heap w)))).
Proof.
  intros Hfid Hf Hp. split; intros Hv.
  - unfold digitalWrite. do 2 mstep.
    apply Z.eqb_eq in Hv. now rewrite Hv.
  - unfold digitalWrite. do 2 mstep.
    apply Z.eqb_neq in Hv. rewrite Hv. do 2 mstep.
    erewrite firmata_do_ok; [|heap_lookup|eapply Firmata_digitalWrite_ok; pin_lookup].
    cbn. rewrite list_insert_insert_eq. unfold written_firmata, Firmata_log. cbn.
    rewrite pin_update_update, <- app_assoc. reflexivity.
Qed.

Lemma digitalWrite_skips_cached_value_witness :
  digitalWrite 13 0 false ready_world = (Ok tt, ready_world).
Proof.
  exact (proj1 (digitalWrite_skips_cached_value ready_world 0 fresh_firmata 13 0 false
                  {| Pin.mode := 0; Pin.value := 0 |} eq_refl eq_refl eq_refl)
               eq_refl).
Defined.

(** ** Teardown *)

(** Teardown never touches [version]. *)
Lemma releaseBoard_version (w : World) :
  version (board (snd (releaseBoard w))) = version (board w).
Proof.
  unfold releaseBoard. do 4 mstep.
  destruct (firmata (board w)) as [fid|]; cbn.
  - destruct (heap w !! fid) as [f|] eqn:Hf.
    + mstep. mstep.
      destruct (transport f); repeat mstep;
        destruct (board_transport (board w)); repeat mstep; reflexivity.
    + rewrite bind_assoc.
      erewrite (bind_throw (firmata_get fid)); cycle 1.
      { unfold firmata_get. cbn. rewrite Hf. reflexivity. }
      reflexivity.
  - repeat mstep. destruct (board_transport (board w)); repeat mstep; reflexivity.
Qed.

(** What teardown does reset. *)
Lemma releaseBoard_resets (w : World) (fid : nat) (f : Firmata) :
  firmata (board w) = Some fid -> heap w !! fid = Some f ->
  exists w',
    releaseBoard w = (Ok tt, w')
    /\ state (board w') = "disconnect"%string
    /\ neoPixel (board w') = []
    /\ firmata (board w') = None
    /\ board_transport (board w') = None
    /\ oneWireDevices (board w') = None
    /\ extensionId (board w') = None
    /\ emitted (board w')
       = emitted (board w) ++ [board_event "disconnect"; board_event "RELEASED"]
    /\ (listeners <$> heap w' !! fid) = Some [].
Proof.
  intros Hfid Hf. unfold releaseBoard. do 4 mstep. rewrite Hfid. do 2 mstep.
  destruct (transport f) as [t|]; repeat mstep;
    destruct (board_transport (board w)) eqn:Hbt; repeat mstep;
    (eexists; split; [reflexivity|]; cbn;
     rewrite <- app_assoc, ?list_insert_insert_eq, (heap_insert_lookup _ _ f _ Hf), ?Hbt;
     repeat split; reflexivity).
Qed.

(** C3. Teardown resets the state, the strip registry, the OneWire cache
    and the references and emits its two events, but it leaves [version] as
    it was: on the board in use the version of the board that is gone is
    still 2.1.0 afterwards, and the next [boardVersion] answers with it
    without asking the board. *)
Theorem releaseBoard_leaves_version :
  (forall w, version (board (snd (releaseBoard w))) = version (board w))
  /\ version (board (snd (releaseBoard used_world))) = Some version_2_1_0
  /\ neoPixel (board (snd (releaseBoard used_world))) = []
  /\ oneWireDevices (board (snd (releaseBoard used_world))) = None
  /\ firmata (board (snd (releaseBoard used_world))) = None
  /\ emitted (board (snd (releaseBoard used_world)))
     = [board_event "disconnect"; board_event "RELEASED"]
  /\ fst (boardVersion None (snd (releaseBoard used_world)))
     = Ok (settled (Resolved (version_string version_2_1_0))).
Proof.
  split; [exact releaseBoard_version|]. repeat split; reflexivity.
Qed.

(** [disconnect] and [handleDisconnectError] end in [releaseBoard] unless
    the board is already disconnected. *)
Lemma disconnect_releases (w : World) (fid : nat) (f : Firmata) :
  state (board w) <> "disconnect"%string ->
  firmata (board w) = Some fid -> heap w !! fid = Some f ->
  transport f = Some {| isOpen := false |} ->
  disconnect w = releaseBoard w.
Proof.
  intros Hst Hfid Hf Ht. unfold disconnect.
  apply String.eqb_neq in Hst. mstep. rewrite Hst.
  erewrite bind_ok; [reflexivity|].
  mstep. rewrite Hfid. mstep. now rewrite Ht.
Qed.

(** ** OneWire *)

(** A search is started whenever the pin is not in one-wire mode: the bus
    configuration and the search request are the next two calls. *)
Lemma searchOneWireDevices_searches
  (w : World) (fid : nat) (f : Firmata) (pin : Z) (p : Pin.t) (reply : SearchReply) :
  firmata (board w) = Some fid -> heap w !! fid = Some f ->
  pin_at (pins f) pin = Some p -> Pin.mode p <> ONEWIRE (MODES f) ->
  exists s w' f' rest,
    searchOneWireDevices pin reply w = (Ok s, w')
    /\ heap w' !! fid = Some f'
    /\ calls f' = calls (searched_firmata f pin) ++ rest.
Proof.
  intros Hfid Hf Hp Hm. apply Z.eqb_neq in Hm.
  unfold searchOneWireDevices.
  destruct reply as [|e|founds];
    [| |destruct (List.length founds <? 1)%nat eqn:Hlen];
    (do 4 eexists; split;
     [apply in_promise_ok; do 3 mstep; rewrite Hm; cbn; repeat mstep;
      rewrite ?Hlen; repeat mstep; reflexivity|];
     cbn; rewrite ?list_insert_insert_eq;
     split; [now apply (heap_insert_lookup _ _ f)|]; cbn;
     rewrite <- ?app_assoc; try reflexivity; now rewrite app_nil_r).
Qed.

(** C6. On a pin that is not in one-wire mode, a search that finds no
    device rejects with "no device"; it has sent the bus configuration and
    the search and nothing else, the pin keeps its mode, the cache is
    untouched, and whatever the next call is answered, it sends the
    configuration and the search again. *)
Theorem searchOneWireDevices_no_device
  (w : World) (fid : nat) (f : Firmata) (pin : Z) (p : Pin.t) :
  firmata (board w) = Some fid -> heap w !! fid = Some f ->
  pin_at (pins f) pin = Some p -> Pin.mode p <> ONEWIRE (MODES f) ->
  let w1 := World_set_heap w (<[fid := searched_firmata f pin]> (heap w)) in
  searchOneWireDevices pin (search_found []) w = (Ok (Rejected no_device), w1)
  /\ pin_at (pins (searched_firmata f pin)) pin = Some p
  /\ oneWireDevices (board w1) = oneWireDevices (board w)
  /\ forall reply, exists s w2 f2 rest,
       searchOneWireDevices pin reply w1 = (Ok s, w2)
       /\ heap w2 !! fid = Some f2
       /\ calls f2
          = calls (searched_firmata f pin)
            ++ [call_sendOneWireConfig pin true; call_sendOneWireSearch pin] ++ rest.
Proof.
  intros Hfid Hf Hp Hm w1. split; [|split; [exact Hp|split; [reflexivity|]]].
  - pose proof Hm as Hm'. apply Z.eqb_neq in Hm'.
    unfold searchOneWireDevices. subst w1.
    erewrite in_promise_ok; [reflexivity|].
    do 3 mstep. rewrite Hm'. cbn. repeat mstep.
    rewrite list_insert_insert_eq. reflexivity.
  - intros reply.
    destruct (searchOneWireDevices_searches w1 fid (searched_firmata f pin) pin p reply)
      as (s & w2 & f2 & rest & Hrun & Hf2 & Hcalls); try assumption.
    + subst w1. cbn. now apply (heap_insert_lookup _ _ f).
    + exists s, w2, f2, rest. split; [exact Hrun|]. split; [exact Hf2|].
      rewrite Hcalls. cbn. rewrite <- !app_assoc. reflexivity.
Qed.

Lemma searchOneWireDevices_no_device_witness :
  fst (searchOneWireDevices 2 (search_found []) ready_world) = Ok (Rejected no_device).
Proof.
  pose proof (searchOneWireDevices_no_device ready_world 0 fresh_firmata 2
                {| Pin.mode := 0; Pin.value := 0 |} eq_refl eq_refl eq_refl) as H.
  cbn zeta in H. rewrite (proj1 (H ltac:(discriminate))). reflexivity.
Defined.

(** The cache is one field of the board: a successful search stores what
    it found there, whatever the pin ... *)
Lemma searchOneWireDevices_stores
  (w : World) (fid : nat) (f : Firmata) (pin : Z) (p : Pin.t)
  (d : Device) (ds : list Device) :
  firmata (board w) = Some fid -> heap w !! fid = Some f ->
  pin_at (pins f) pin = Some p -> Pin.mode p <> ONEWIRE (MODES f) ->
  exists w',
    searchOneWireDevices pin (search_found (d :: ds)) w = (Ok (Resolved (Some (d :: ds))), w')
    /\ oneWireDevices (board w') = Some (d :: ds).
Proof.
  intros Hfid Hf Hp Hm. apply Z.eqb_neq in Hm.
  unfold searchOneWireDevices.
  eexists. split.
  - apply in_promise_ok. do 3 mstep. rewrite Hm. cbn. repeat mstep. reflexivity.
  - reflexivity.
Qed.

(** ... and a pin already in one-wire mode is answered from that field,
    whatever the pin. *)
Lemma searchOneWireDevices_cached
  (w : World) (fid : nat) (f : Firmata) (pin : Z) (p : Pin.t) (reply : SearchReply) :
  firmata (board w) = Some fid -> heap w !! fid = Some f ->
  pin_at (pins f) pin = Some p -> Pin.mode p = ONEWIRE (MODES f) ->
  searchOneWireDevices pin reply w = (Ok (Resolved (oneWireDevices (board w))), w).
Proof.
  intros Hfid Hf Hp Hm. apply Z.eqb_eq in Hm.
  unfold searchOneWireDevices. apply in_promise_ok.
  do 3 mstep. rewrite Hm. cbn. repeat mstep. reflexivity.
Qed.

Lemma searchOneWireDevices_found
  (w : World) (fid : nat) (f : Firmata) (pin : Z) (p : Pin.t)
  (d : Device) (ds : list Device) :
  firmata (board w) = Some fid -> heap w !! fid = Some f ->
  pin_at (pins f) pin = Some p -> Pin.mode p <> ONEWIRE (MODES f) ->
  searchOneWireDevices pin (search_found (d :: ds)) w
  = (Ok (Resolved (Some (d :: ds))), found_world w fid f pin p (d :: ds)).
Proof.
  intros Hfid Hf Hp Hm. apply Z.eqb_neq in Hm.
  unfold searchOneWireDevices. apply in_promise_ok.
  do 3 mstep. rewrite Hm. cbn. repeat mstep.
  unfold found_world, found_firmata, searched_firmata.
  rewrite !list_insert_insert_eq. reflexivity.
Qed.

(** The cache is shared between the pins: once a device has been found
    on pin [A] and then another on pin [B], every search on pin [A] is
    answered with what was found on pin [B]. *)
Lemma oneWire_cache_is_shared
  (w : World) (fid : nat) (f : Firmata) (pinA pinB : Z) (pA pB : Pin.t)
  (dA dB : Device) (dsA dsB : list Device) (reply : SearchReply) :
  firmata (board w) = Some fid -> heap w !! fid = Some f ->
  pinA <> pinB ->
  pin_at (pins f) pinA = Some pA -> Pin.mode pA <> ONEWIRE (MODES f) ->
  pin_at (pins f) pinB = Some pB -> Pin.mode pB <> ONEWIRE (MODES f) ->
  let w1 := snd (searchOneWireDevices pinA (search_found (dA :: dsA)) w) in
  let w2 := snd (searchOneWireDevices pinB (search_found (dB :: dsB)) w1) in
  searchOneWireDevices pinA reply w2 = (Ok (Resolved (Some (dB :: dsB))), w2).
Proof.
  intros Hfid Hf Hne HpA HmA HpB HmB w1 w2.
  subst w1 w2.
  rewrite (searchOneWireDevices_found w fid f pinA pA dA dsA Hfid Hf HpA HmA).
  cbn [snd].
  set (f1 := found_firmata f pinA pA).
  assert (Hf1 : heap (found_world w fid f pinA pA (dA :: dsA)) !! fid = Some f1)
    by (cbn; now apply (heap_insert_lookup _ _ f)).
  assert (HpB1 : pin_at (pins f1) pinB = Some pB)
    by (cbn; now rewrite pin_at_update_ne).
  set (w1 := found_world w fid f pinA pA (dA :: dsA)) in *.
  rewrite (searchOneWireDevices_found w1 fid f1 pinB pB dB dsB Hfid Hf1 HpB1 HmB).
  cbn [snd].
  set (f2 := found_firmata f1 pinB pB).
  set (w2 := found_world w1 fid f1 pinB pB (dB :: dsB)).
  erewrite (searchOneWireDevices_cached w2 fid f2 pinA); [reflexivity|exact Hfid|..].
  - cbn. now apply (heap_insert_lookup _ _ f1).
  - cbn. rewrite pin_at_update_ne by congruence. now apply (pin_at_update_eq _ _ pA).
  - reflexivity.
Qed.

(** C5. With one device found on pin 2 and then another found on pin 3, a
    read on pin 2 is sent with the identifier of the device on pin 3: the
    cache holds the result of the last search only. *)
Theorem oneWireRead_uses_last_search :
  oneWireDevices (board after_two_searches) = Some [device_B]
  /\ fst (oneWireRead 2 9 None no_search_reply (read_data [1; 2]) after_two_searches)
     = Ok (Resolved [1; 2])
  /\ last (calls_of (snd (oneWireRead 2 9 None no_search_reply (read_data [1; 2])
                            after_two_searches)))
     = Some (call_sendOneWireRead 2 (Some device_B) 9)
  /\ last (calls_of (snd (oneWireWrite 2 [68] no_search_reply after_two_searches)))
     = Some (call_sendOneWireWrite 2 (Some device_B) [68])
  /\ device_A <> device_B.
Proof.
  repeat split; try reflexivity. discriminate.
Qed.

(** ** The strip registry *)

Lemma bind_inv_ok {A B} (m : M A) (k : A -> M B) (w w' : World) (b : B) :
  bind m k w = (Ok b, w') ->
  exists a w1, m w = (Ok a, w1) /\ k a w1 = (Ok b, w').
Proof.
  unfold bind. destruct (m w) as [[a|e] w1]; [eauto | discriminate].
Qed.

Section Registry.
Context `{NodePixelConstants}.

Arguments enqueue message : simpl never.

Lemma bind_enqueue {B} (message : list Z) (k : unit -> M B) (w : World) :
  bind (enqueue message) k w
  = k tt (World_set_board w (Board_enqueue (board w) message)).
Proof. reflexivity. Qed.

(** A configuration call on a connected board and a pin of its table. *)
Lemma neoPixelConfigStrip_run
  (w : World) (fid : nat) (f : Firmata) (pin length : Z) (p : Pin.t) :
  firmata (board w) = Some fid -> heap w !! fid = Some f ->
  pin_at (pins f) pin = Some p ->
  exists w',
    neoPixelConfigStrip pin length w = (Ok tt, w')
    /\ neoPixel (board w')
       = List.filter (fun aStrip => negb (on_pin pin aStrip)) (neoPixel (board w))
         ++ [configured_strip pin length (neoPixel (board w))]
    /\ neoPixelThrottledQueue (board w')
       = neoPixelThrottledQueue (board w) ++ [config_message (neoPixel (board w'))].
Proof.
  intros Hfid Hf Hp. unfold neoPixelConfigStrip, configured_strip.
  do 4 mstep.
  destruct (List.find (on_pin pin) (neoPixel (board w))) as [old|];
    (repeat mstep; eexists; split; [reflexivity|]; split; reflexivity).
Qed.

(** Whether it goes through or not, a configuration call leaves the
    registry as it was or updates it that way. *)
Lemma neoPixelConfigStrip_registry (w w' : World) (pin length : Z) (r : Res unit) :
  neoPixelConfigStrip pin length w = (r, w') ->
  (r = Ok tt
   /\ neoPixel (board w')
      = List.filter (fun aStrip => negb (on_pin pin aStrip)) (neoPixel (board w))
        ++ [configured_strip pin length (neoPixel (board w))])
  \/ (exists e, r = Throw e).
Proof.
  intros Hrun.
  destruct (firmata (board w)) as [fid|] eqn:Hfid.
  - destruct (heap w !! fid) as [f|] eqn:Hf.
    + destruct (pin_at (pins f) pin) as [p|] eqn:Hp.
      * destruct (neoPixelConfigStrip_run w fid f pin length p Hfid Hf Hp)
          as (w1 & Hok & Hreg & _).
        rewrite Hok in Hrun. injection Hrun as <- <-. now left.
      * right. exists TypeError.
        assert (Hthrow : neoPixelConfigStrip pin length w = (Throw TypeError, w)).
        { unfold neoPixelConfigStrip. mstep. erewrite bind_throw; [reflexivity|].
          unfold firmata_pin. mstep. now rewrite Hp. }
        rewrite Hthrow in Hrun. now injection Hrun as <- _.
    + right. exists TypeError.
      assert (Hthrow : neoPixelConfigStrip pin length w = (Throw TypeError, w)).
      { unfold neoPixelConfigStrip. mstep. erewrite bind_throw; [reflexivity|].
        unfold firmata_pin. erewrite bind_throw; [reflexivity|].
        unfold firmata_get. now rewrite Hf. }
      rewrite Hthrow in Hrun. now injection Hrun as <- _.
  - right. exists TypeError.
    assert (Hthrow : neoPixelConfigStrip pin length w = (Throw TypeError, w)).
    { unfold neoPixelConfigStrip. erewrite bind_throw; [reflexivity|].
      unfold this_firmata. now rewrite Hfid. }
    rewrite Hthrow in Hrun. now injection Hrun as <- _.
Qed.

(** C4, as the code has it.  A configuration call that goes through
    takes the strip of the pin out of the registry, the other strips
    keeping their order, and puts the configured strip at the end: the
    old strip with its new length when there was one, a new strip
    otherwise.  The whole registry is then sent as one message. *)
Theorem neoPixelConfigStrip_appends
  (w : World) (fid : nat) (f : Firmata) (pin length : Z) (p : Pin.t) :
  firmata (board w) = Some fid -> heap w !! fid = Some f ->
  pin_at (pins f) pin = Some p ->
  exists w',
    neoPixelConfigStrip pin length w = (Ok tt, w')
    /\ neoPixel (board w')
       = List.filter (fun aStrip => negb (on_pin pin aStrip)) (neoPixel (board w))
         ++ [configured_strip pin length (neoPixel (board w))]
    /\ neoPixelThrottledQueue (board w')
       = neoPixelThrottledQueue (board w) ++ [config_message (neoPixel (board w'))].
Proof. apply neoPixelConfigStrip_run. Qed.

End Registry.

(** C4, as the specification has it, fails: reconfiguring strip A, first
    of two strips, moves it behind strip B. *)
Lemma neoPixelConfigStrip_moves_strip :
  neoPixel (board two_strips_world)
  = [{| Strip.pin := 3; Strip.length := 5; Strip.colors := None |};
     {| Strip.pin := 7; Strip.length := 2; Strip.colors := None |}]
  /\ neoPixel (board (snd (@neoPixelConfigStrip node_pixel 3 4 two_strips_world)))
     = [{| Strip.pin := 7; Strip.length := 2; Strip.colors := None |};
        {| Strip.pin := 3; Strip.length := 4; Strip.colors := None |}]
  /\ neoPixel (board (snd (@neoPixelConfigStrip node_pixel 3 4 two_strips_world)))
     <> upsert_in_place 3 4 (neoPixel (board two_strips_world)).
Proof.
  split; [reflexivity|]. split; [reflexivity|]. discriminate.
Qed.

Lemma neoPixelConfigStrip_appends_witness :
  exists w',
    @neoPixelConfigStrip node_pixel 3 4 two_strips_world = (Ok tt, w')
    /\ neoPixel (board w')
       = [{| Strip.pin := 7; Strip.length := 2; Strip.colors := None |};
          {| Strip.pin := 3; Strip.length := 4; Strip.colors := None |}].
Proof.
  destruct (@neoPixelConfigStrip_appends node_pixel two_strips_world 0 two_strips_firmata 3 4
              {| Pin.mode := 0x51; Pin.value := 0 |} eq_refl eq_refl eq_refl)
    as (w' & Hrun & Hreg & _).
  exists w'. split; [exact Hrun|]. rewrite Hreg. reflexivity.
Defined.

(** ** The linear address of [neoPixelSetColor] *)

Lemma pin_free_cons (pin : Z) (s : Strip.t) (tl : list Strip.t) :
  pin_free pin (s :: tl) <-> on_pin pin s = false /\ pin_free pin tl.
Proof.
  unfold pin_free. split.
  - intros Hall. split; [apply Hall; now left | intros x Hx; apply Hall; now right].
  - intros [Hs Htl] x [<- | Hx]; [exact Hs | now apply Htl].
Qed.

Lemma pin_free_filter (pin : Z) (strips : list Strip.t) :
  pin_free pin (List.filter (fun aStrip => negb (on_pin pin aStrip)) strips).
Proof.
  intros s Hs. apply filter_In in Hs as [_ Hs]. now apply negb_true_iff in Hs.
Qed.

Lemma pin_free_sub (pin : Z) (q : Strip.t -> bool) (strips : list Strip.t) :
  pin_free pin strips -> pin_free pin (List.filter q strips).
Proof. intros Hfree s Hs. apply filter_In in Hs as [Hs _]. now apply Hfree. Qed.

Lemma unique_pins_filter (q : Strip.t -> bool) (strips : list Strip.t) :
  unique_pins strips -> unique_pins (List.filter q strips).
Proof.
  induction strips as [|s tl IH]; cbn; [trivial|].
  intros [Hs Htl]. destruct (q s); cbn; [split|]; auto using pin_free_sub.
Qed.

Lemma on_pin_sym (a b : Strip.t) :
  on_pin (Strip.pin a) b = on_pin (Strip.pin b) a.
Proof. unfold on_pin. apply Z.eqb_sym. Qed.

Lemma unique_pins_snoc (strips : list Strip.t) (x : Strip.t) :
  unique_pins strips -> pin_free (Strip.pin x) strips -> unique_pins (strips ++ [x]).
Proof.
  induction strips as [|s tl IH]; cbn.
  - intros _ _. split; [intros y []|trivial].
  - intros [Hs Htl] Hx. apply pin_free_cons in Hx as [Hxs Hxtl]. split; [|auto].
    intros y Hy. apply in_app_or in Hy as [Hy | [<- | []]]; [now apply Hs|].
    now rewrite on_pin_sym.
Qed.

Lemma find_on_pin (pin : Z) (strips : list Strip.t) (s : Strip.t) :
  List.find (on_pin pin) strips = Some s -> In s strips /\ Strip.pin s = pin.
Proof.
  intros Hfind. apply find_some in Hfind as [Hin Hon].
  split; [exact Hin | now apply Z.eqb_eq in Hon].
Qed.

Lemma sum_lengths_app (l1 l2 : list Strip.t) :
  sum_lengths (l1 ++ l2) = sum_lengths l1 + sum_lengths l2.
Proof.
  unfold sum_lengths. induction l1 as [|s tl IH]; cbn; [reflexivity|].
  rewrite IH. lia.
Qed.

Section Address.
Context `{NodePixelConstants}.

Lemma configured_strip_pin (pin length : Z) (strips : list Strip.t) :
  Strip.pin (configured_strip pin length strips) = pin.
Proof.
  unfold configured_strip.
  destruct (List.find (on_pin pin) strips) as [old|] eqn:Hfind; [|reflexivity].
  now apply find_on_pin in Hfind as [_ Hpin].
Qed.

(** The registry never holds two strips on one pin. *)
Lemma neoPixelConfigStrip_unique (w w' : World) (pin length : Z) :
  neoPixelConfigStrip pin length w = (Ok tt, w') ->
  unique_pins (neoPixel (board w)) -> unique_pins (neoPixel (board w')).
Proof.
  intros Hrun Huniq.
  destruct (neoPixelConfigStrip_registry w w' pin length (Ok tt) Hrun)
    as [[_ Hreg] | [e He]]; [|discriminate].
  rewrite Hreg. apply unique_pins_snoc; [now apply unique_pins_filter|].
  rewrite configured_strip_pin. apply pin_free_filter.
Qed.

Lemma run_configs_unique (configs : list (Z * Z)) (w w' : World) :
  run_configs configs w = (Ok tt, w') ->
  unique_pins (neoPixel (board w)) -> unique_pins (neoPixel (board w')).
Proof.
  revert w. induction configs as [|[pin length] tl IH]; intros w Hrun Huniq.
  - injection Hrun as <-. exact Huniq.
  - unfold run_configs in Hrun. cbn [for_each] in Hrun.
    apply bind_inv_ok in Hrun as ([] & w1 & Hconfig & Hrest).
    apply (IH w1 Hrest). now apply (neoPixelConfigStrip_unique w w1 pin length).
Qed.

(** *** The address loop *)

Lemma address_loop_past (pin index : Z) (strips : list Strip.t) (address : JS.num) :
  pin_free pin strips ->
  fold_left (address_step pin index) strips (address, false) = (address, false).
Proof.
  induction strips as [|s tl IH]; intros Hfree; [reflexivity|].
  apply pin_free_cons in Hfree as [Hs Htl]. cbn [fold_left].
  unfold address_step at 2. rewrite Hs. cbn. now apply IH.
Qed.

Lemma address_loop_from (pin index : Z) (strips : list Strip.t) (s : Strip.t) (a : Z) :
  unique_pins strips -> List.find (on_pin pin) strips = Some s ->
  fold_left (address_step pin index) strips (Some a, true)
  = (JS.add (Some (a + sum_lengths (strips_before pin strips)))
       (JS.max0 (JS.rem index (Strip.length s))), false).
Proof.
  revert a. induction strips as [|x tl IH]; intros a Huniq Hfind; [discriminate|].
  destruct Huniq as [Hx Htl]. cbn [fold_left List.find strips_before] in *.
  unfold address_step at 2. destruct (on_pin pin x) eqn:Hon.
  - injection Hfind as ->. cbn [fst snd].
    rewrite address_loop_past.
    + cbn. now rewrite Z.add_0_r.
    + apply Z.eqb_eq in Hon. now rewrite <- Hon.
  - cbn [fst snd JS.add]. rewrite (IH _ Htl Hfind). cbn [sum_lengths fold_right].
    now rewrite Z.add_assoc.
Qed.

Lemma address_loop_absent (pin index : Z) (strips : list Strip.t) (a : Z) :
  List.find (on_pin pin) strips = None ->
  fold_left (address_step pin index) strips (Some a, true)
  = (Some (a + sum_lengths strips), true).
Proof.
  revert a. induction strips as [|x tl IH]; intros a Hfind; cbn.
  - now rewrite Z.add_0_r.
  - cbn in Hfind. unfold address_step at 2.
    destruct (on_pin pin x); [discriminate|]. cbn. rewrite (IH _ Hfind).
    now rewrite Z.add_assoc.
Qed.

End Address.

(** ** The address bytes of a set-pixel message *)

Lemma toInt32_eq (z : Z) : JS.toInt32 z = z + 2 ^ 32 * - ((z + 2 ^ 31) / 2 ^ 32).
Proof.
  unfold JS.toInt32. rewrite Z.mod_eq by lia. lia.
Qed.

Lemma toInt32_range (z : Z) : - 2 ^ 31 <= JS.toInt32 z < 2 ^ 31.
Proof.
  unfold JS.toInt32. pose proof (Z.mod_pos_bound (z + 2 ^ 31) (2 ^ 32)). lia.
Qed.

Lemma toInt32_idem (z : Z) : JS.toInt32 (JS.toInt32 z) = JS.toInt32 z.
Proof. apply toInt32_small, toInt32_range. Qed.

Lemma toInt32_mod128 (z : Z) : JS.toInt32 z mod 128 = z mod 128.
Proof.
  rewrite toInt32_eq. set (q := - ((z + 2 ^ 31) / 2 ^ 32)).
  replace (z + 2 ^ 32 * q) with (z + (2 ^ 25 * q) * 128) by lia.
  apply Z_mod_plus_full.
Qed.

Lemma toInt32_div128_mod128 (z : Z) : (JS.toInt32 z / 128) mod 128 = (z / 128) mod 128.
Proof.
  rewrite toInt32_eq. set (q := - ((z + 2 ^ 31) / 2 ^ 32)).
  replace (z + 2 ^ 32 * q) with (z + (2 ^ 25 * q) * 128) by lia.
  rewrite Z.div_add by lia.
  replace (z / 128 + 2 ^ 25 * q) with (z / 128 + (2 ^ 18 * q) * 128) by lia.
  apply Z_mod_plus_full.
Qed.

Lemma land_mask7 (x : Z) : Z.land x (JS.toInt32 FIRMATA_7BIT_MASK) = x mod 128.
Proof.
  change (JS.toInt32 FIRMATA_7BIT_MASK) with (Z.ones 7).
  rewrite Z.land_ones by lia. reflexivity.
Qed.

(** The low byte carries bits 0 to 6 of the address ... *)
Lemma and_num_mask7 (a : Z) : and_num (Some a) FIRMATA_7BIT_MASK = a mod 128.
Proof.
  unfold and_num, JS.and, JS.toInt32_num.
  now rewrite land_mask7, toInt32_idem, toInt32_mod128.
Qed.

(** ... and the high byte bits 7 to 13. *)
Lemma shr_and_num_mask7 (a : Z) :
  shr_and_num (Some a) 7 FIRMATA_7BIT_MASK = (a / 128) mod 128.
Proof.
  unfold shr_and_num, JS.and, JS.shr, JS.toInt32_num.
  rewrite land_mask7, toInt32_idem. change (7 mod 32) with 7.
  rewrite Z.shiftr_div_pow2 by lia. change (2 ^ 7) with 128.
  now rewrite toInt32_mod128, toInt32_div128_mod128.
Qed.

Lemma low14_split (a : Z) : a mod 128 + 128 * ((a / 128) mod 128) = a mod 2 ^ 14.
Proof.
  change (2 ^ 14) with (128 * 128).
  rewrite Z.rem_mul_r by lia. reflexivity.
Qed.

Section SetColor.
Context `{NodePixelConstants}.

Arguments enqueue message : simpl never.
Arguments neoPixelColorValue colors gammaTable : simpl never.

Lemma frame_address_set_pixel (a : Z) (colorValue : JS.num) :
  frame_address (set_pixel_message (Some a) colorValue) = a mod 2 ^ 14.
Proof.
  unfold frame_address, set_pixel_message. cbn [nth].
  rewrite and_num_mask7, shr_and_num_mask7. apply low14_split.
Qed.

Lemma new_Array_ok (n : Z) (w : World) :
  0 <= n < 2 ^ 32 -> new_Array n w = (Ok (repeat Hole (Z.to_nat n)), w).
Proof.
  intros Hn. unfold new_Array.
  replace (0 <=? n) with true by (symmetry; apply Z.leb_le; lia).
  replace (n <? 2 ^ 32) with true by (symmetry; apply Z.ltb_lt; lia).
  reflexivity.
Qed.

(** [neoPixelSetColor] on a pin that has a strip: no configuration, the
    colour goes into the buffer at [index], one message is enqueued. *)
Lemma neoPixelSetColor_configured
  (w : World) (pin : Z) (color : list Z) (index : Z) (s : Strip.t) :
  unique_pins (neoPixel (board w)) ->
  List.find (on_pin pin) (neoPixel (board w)) = Some s ->
  (Strip.colors s = None -> 0 <= Strip.length s < 2 ^ 32) ->
  neoPixelSetColor pin color (Some index) w
  = (Ok tt,
     World_set_board w
       (Board_enqueue
          (Board_set_neoPixel (board w)
             (update_strip pin
                (Strip.set_colors s (Some (array_set (buffer_of s) index (Col color))))
                (neoPixel (board w))))
          (set_pixel_message
             (JS.add (Some (sum_lengths (strips_before pin (neoPixel (board w)))))
                (JS.max0 (JS.rem index (Strip.length s))))
             (neoPixelColorValue color neoPixelGammaTable)))).
Proof.
  intros Huniq Hfind Hlen. unfold neoPixelSetColor. mstep.
  unfold address_loop. rewrite (address_loop_from pin index _ s 0 Huniq Hfind).
  cbn [fst snd]. do 2 mstep. rewrite Hfind.
  unfold buffer_of. destruct (Strip.colors s) as [c|] eqn:Hc.
  - do 2 mstep. reflexivity.
  - erewrite bind_ok; [|apply new_Array_ok; auto]. mstep. reflexivity.
Qed.

Lemma find_pin_free_app (pin : Z) (strips : list Strip.t) (s : Strip.t) :
  pin_free pin strips -> on_pin pin s = true ->
  List.find (on_pin pin) (strips ++ [s]) = Some s.
Proof.
  intros Hfree Hon. induction strips as [|x tl IH]; cbn; [now rewrite Hon|].
  apply pin_free_cons in Hfree as [Hx Htl]. rewrite Hx. now apply IH.
Qed.

Lemma filter_absent (pin : Z) (strips : list Strip.t) :
  List.find (on_pin pin) strips = None ->
  List.filter (fun aStrip => negb (on_pin pin aStrip)) strips = strips.
Proof.
  induction strips as [|x tl IH]; cbn; [reflexivity|].
  destruct (on_pin pin x); [discriminate|]. cbn. intros Hfind. f_equal. now apply IH.
Qed.

(** [neoPixelSetColor] on a pin without a strip: the address is the total
    length of the registry, computed before the strip is configured, and
    the index has no part in it. *)
Lemma neoPixelSetColor_unconfigured
  (w : World) (fid : nat) (f : Firmata) (pin : Z) (color : list Z) (index : Z)
  (p : Pin.t) :
  firmata (board w) = Some fid -> heap w !! fid = Some f ->
  pin_at (pins f) pin = Some p ->
  List.find (on_pin pin) (neoPixel (board w)) = None ->
  0 <= defaultNeoPixelLength (settings (board w)) < 2 ^ 32 ->
  exists w',
    neoPixelSetColor pin color (Some index) w = (Ok tt, w')
    /\ neoPixel (board w')
       = neoPixel (board w)
         ++ [{| Strip.pin := pin;
                Strip.length := defaultNeoPixelLength (settings (board w));
                Strip.colors :=
                  Some (array_set
                          (repeat Hole
                             (Z.to_nat (defaultNeoPixelLength (settings (board w)))))
                          index (Col color)) |}]
    /\ last (neoPixelThrottledQueue (board w'))
       = Some (set_pixel_message (Some (sum_lengths (neoPixel (board w))))
                 (neoPixelColorValue color neoPixelGammaTable)).
Proof.
  intros Hfid Hf Hp Hfind Hlen.
  set (n := defaultNeoPixelLength (settings (board w))) in *.
  destruct (neoPixelConfigStrip_run w fid f pin n p Hfid Hf Hp)
    as (w1 & Hconfig & Hreg & Hqueue).
  unfold configured_strip in Hreg. rewrite Hfind, (filter_absent pin _ Hfind) in Hreg.
  unfold neoPixelSetColor. mstep.
  unfold address_loop. rewrite (address_loop_absent pin index _ 0 Hfind).
  cbn [fst snd]. rewrite bind_assoc. mstep. fold n.
  erewrite bind_ok; [|exact Hconfig]. mstep. rewrite Hreg.
  rewrite find_pin_free_app.
  2:{ intros s Hs. destruct (on_pin pin s) eqn:Hon; [|reflexivity].
      assert (Hsome : List.find (on_pin pin) (neoPixel (board w)) <> None).
      { intros Hnone. now rewrite (find_none _ _ Hnone s Hs) in Hon. }
      contradiction. }
  2:{ apply Z.eqb_refl. }
  cbn [Strip.colors Strip.length].
  erewrite bind_ok; [|apply new_Array_ok; exact Hlen]. mstep.
  eexists. split; [reflexivity|].
  cbn [board World_set_board neoPixel neoPixelThrottledQueue Board_enqueue
         Board_set_neoPixel].
  rewrite Hreg, last_snoc. split; [|reflexivity].
  clear Hreg. induction (neoPixel (board w)) as [|x tl IH]; cbn.
  - unfold on_pin. cbn. now rewrite Z.eqb_refl.
  - cbn in Hfind. destruct (on_pin pin x); [discriminate|]. f_equal. now apply IH.
Qed.

End SetColor.

Section LinearAddress.
Context `{NodePixelConstants}.

(** C1, as the code has it.  After any sequence of configuration calls,
    on a pin that has a strip (of a positive length), the message
    [neoPixelSetColor] enqueues carries, in fourteen bits, the lengths of the
    strips that come before that strip in the registry plus
    [max(0, index % length)]; for an index that is not negative this is the
    address of the specification, [index mod length] past those strips. *)
Theorem neoPixelSetColor_address
  (configs : list (Z * Z)) (w0 w : World)
  (pin : Z) (color : list Z) (index : Z) (s : Strip.t) :
  neoPixel (board w0) = [] ->
  run_configs configs w0 = (Ok tt, w) ->
  List.find (on_pin pin) (neoPixel (board w)) = Some s ->
  0 < Strip.length s < 2 ^ 32 ->
  let address := sum_lengths (strips_before pin (neoPixel (board w)))
                 + Z.max 0 (Z.rem index (Strip.length s)) in
  exists w',
    neoPixelSetColor pin color (Some index) w = (Ok tt, w')
    /\ last (neoPixelThrottledQueue (board w'))
       = Some (set_pixel_message (Some address)
                 (neoPixelColorValue color neoPixelGammaTable))
    /\ last_address w' = Some (address mod 2 ^ 14)
    /\ (0 <= index -> claimed_address (neoPixel (board w)) pin index = Some address).
Proof.
  intros Hempty Hrun Hfind Hlen address.
  assert (Huniq : unique_pins (neoPixel (board w))).
  { apply (run_configs_unique configs w0 w Hrun). now rewrite Hempty. }
  assert (Hmsg : JS.add (Some (sum_lengths (strips_before pin (neoPixel (board w)))))
                   (JS.max0 (JS.rem index (Strip.length s))) = Some address).
  { unfold JS.rem. replace (Strip.length s =? 0) with false
      by (symmetry; apply Z.eqb_neq; lia). reflexivity. }
  pose proof (neoPixelSetColor_configured w pin color index s Huniq Hfind) as Hset.
  rewrite Hmsg in Hset.
  eexists. split; [apply Hset; lia|].
  unfold last_address.
  cbn [board World_set_board neoPixelThrottledQueue Board_enqueue].
  rewrite last_snoc. split; [reflexivity|].
  split; [cbn [fmap option_fmap option_map]; now rewrite frame_address_set_pixel|].
  intros Hindex. unfold claimed_address. rewrite Hfind. subst address.
  rewrite Z.rem_mod_nonneg by lia.
  pose proof (Z.mod_pos_bound index (Strip.length s)). f_equal. lia.
Qed.

End LinearAddress.

(** The scenario of the specification: strip A on pin 3 with five LEDs,
    strip B on pin 7 with two; LED 1 of strip B is at address 6. *)
Lemma neoPixelSetColor_address_witness :
  exists w',
    @neoPixelSetColor node_pixel 7 [1; 2; 3] (Some 1) two_strips_world = (Ok tt, w')
    /\ last_address w' = Some 6.
Proof.
  destruct (@neoPixelSetColor_address node_pixel [(3, 5); (7, 2)] ready_world
              two_strips_world 7 [1; 2; 3] 1
              {| Strip.pin := 7; Strip.length := 2; Strip.colors := None |}
              eq_refl eq_refl eq_refl ltac:(cbn; lia))
    as (w' & Hrun & _ & Haddr & _).
  exists w'. split; [exact Hrun | exact Haddr].
Defined.

(** C1, as the specification has it, fails in three ways.  On a pin
    without a strip the address is computed before the strip is
    configured and leaves the index out: LED 1 of the new strip is sent to
    address 0.  A negative index is clamped to the first LED of the strip
    instead of wrapping: index -1 on strip B, at 5 and 6, is sent to 5.  And
    the message has fourteen bits for the address: 16384 is sent as 0. *)
Lemma neoPixelSetColor_address_fails :
  (last_address (snd (@neoPixelSetColor node_pixel 5 [1; 2; 3] (Some 1) ready_world))
   = Some 0
   /\ claimed_address
        (neoPixel (board (snd (@neoPixelSetColor node_pixel 5 [1; 2; 3] (Some 1)
                                 ready_world)))) 5 1
      = Some 1)
  /\ (last_address (snd (@neoPixelSetColor node_pixel 7 [1; 2; 3] (Some (-1))
                           two_strips_world))
      = Some 5
      /\ claimed_address (neoPixel (board two_strips_world)) 7 (-1) = Some 6)
  /\ (last_address (snd (@neoPixelSetColor node_pixel 3 [1; 2; 3] (Some 16384)
                           long_strip_world))
      = Some 0
      /\ claimed_address (neoPixel (board long_strip_world)) 3 16384 = Some 16384).
Proof.
  repeat split; vm_compute; reflexivity.
Qed.

(** ** [neoPixelFillColor] with a function that returns [null] everywhere *)

(** *** Writing into an array and into the registry *)

Lemma find_update_strip (pin : Z) (s s' : Strip.t) (strips : list Strip.t) :
  List.find (on_pin pin) strips = Some s -> on_pin pin s' = true ->
  List.find (on_pin pin) (update_strip pin s' strips) = Some s'.
Proof.
  intros Hfind Hon. induction strips as [|x tl IH]; [discriminate|].
  cbn in *. destruct (on_pin pin x) eqn:Hx; cbn.
  - now rewrite Hon.
  - rewrite Hx. now apply IH.
Qed.

Lemma find_update_other (pin q : Z) (s' : Strip.t) (strips : list Strip.t) :
  q <> pin -> Strip.pin s' = pin ->
  List.find (on_pin q) (update_strip pin s' strips) = List.find (on_pin q) strips.
Proof.
  intros Hne Hpin. induction strips as [|x tl IH]; [reflexivity|].
  cbn. destruct (on_pin pin x) eqn:Hx; cbn.
  - replace (on_pin q s') with false
      by (symmetry; unfold on_pin; apply Z.eqb_neq; lia).
    replace (on_pin q x) with false; [reflexivity|].
    symmetry. unfold on_pin in *. apply Z.eqb_eq in Hx. apply Z.eqb_neq. lia.
  - destruct (on_pin q x); [reflexivity | exact IH].
Qed.

Lemma array_set_lookup_eq (arr : list Slot) (index : Z) (x : Slot) :
  0 <= index < 2 ^ 32 - 1 -> array_set arr index x !! Z.to_nat index = Some x.
Proof.
  intros Hi. unfold array_set.
  replace ((index <? 0) || (2 ^ 32 - 1 <=? index)) with false.
  2:{ symmetry. apply orb_false_iff. split; [apply Z.ltb_ge | apply Z.leb_gt]; lia. }
  destruct (Z.to_nat index <? List.length arr)%nat eqn:E.
  - apply Nat.ltb_lt in E. now apply list_lookup_insert_eq.
  - apply Nat.ltb_ge in E. rewrite app_assoc. apply list_lookup_middle.
    rewrite length_app, repeat_length. lia.
Qed.

Lemma array_set_lookup_ne (arr : list Slot) (index : Z) (x : Slot) (j : nat) :
  j <> Z.to_nat index -> (j < List.length arr)%nat ->
  array_set arr index x !! j = arr !! j.
Proof.
  intros Hne Hj. unfold array_set.
  destruct ((index <? 0) || (2 ^ 32 - 1 <=? index)); [reflexivity|].
  destruct (Z.to_nat index <? List.length arr)%nat.
  - apply list_lookup_insert_ne. lia.
  - now apply lookup_app_l.
Qed.

Lemma array_set_length (arr : list Slot) (index : Z) (x : Slot) :
  0 <= index < 2 ^ 32 - 1 ->
  List.length (array_set arr index x)
  = Nat.max (List.length arr) (Z.to_nat index + 1).
Proof.
  intros Hi. unfold array_set.
  replace ((index <? 0) || (2 ^ 32 - 1 <=? index)) with false.
  2:{ symmetry. apply orb_false_iff. split; [apply Z.ltb_ge | apply Z.leb_gt]; lia. }
  destruct (Z.to_nat index <? List.length arr)%nat eqn:E.
  - apply Nat.ltb_lt in E. rewrite length_insert. lia.
  - apply Nat.ltb_ge in E. rewrite !length_app, repeat_length. cbn. lia.
Qed.

Lemma array_set_negative (arr : list Slot) (index : Z) (x : Slot) :
  index < 0 -> array_set arr index x = arr.
Proof.
  intros Hi. unfold array_set.
  replace (index <? 0) with true by (symmetry; apply Z.ltb_lt; lia). reflexivity.
Qed.

Lemma Board_set_neoPixel_same (b : Board) : Board_set_neoPixel b (neoPixel b) = b.
Proof. now destruct b. Qed.

Lemma World_set_board_same (w : World) : World_set_board w (board w) = w.
Proof. now destruct w. Qed.

Lemma for_each_skip {A} (l : list A) (body : A -> M unit) (w : World) :
  (forall x, body x = ret tt) -> for_each l body w = (Ok tt, w).
Proof.
  intros Hskip. induction l as [|x tl IH]; [reflexivity|].
  cbn [for_each]. rewrite Hskip, bind_ret. exact IH.
Qed.

(** Resizing keeps the buffer when it has the length of the strip ... *)
Lemma fill_resize_same (oldColors : list Slot) (length : Z) :
  Z.of_nat (List.length oldColors) = length -> fill_resize oldColors length = oldColors.
Proof.
  intros Hlen. unfold fill_resize.
  replace (Z.of_nat (List.length oldColors) <? length) with false
    by (symmetry; apply Z.ltb_ge; lia).
  replace (length <? Z.of_nat (List.length oldColors)) with false
    by (symmetry; apply Z.ltb_ge; lia).
  reflexivity.
Qed.

(** ... and otherwise keeps every slot that was there and still is below
    the length of the strip. *)
Lemma fill_resize_lookup (oldColors : list Slot) (length : Z) (i : nat) :
  (i < List.length oldColors)%nat -> Z.of_nat i < length ->
  fill_resize oldColors length !! i = oldColors !! i.
Proof.
  intros Hi Hlen. unfold fill_resize.
  destruct (Z.of_nat (List.length oldColors) <? length) eqn:Hgrow.
  - apply Z.ltb_lt in Hgrow.
    assert (Hset : array_set oldColors (length - 1) Null !! i = oldColors !! i).
    { unfold array_set.
      destruct ((length - 1 <? 0) || (2 ^ 32 - 1 <=? length - 1)); [reflexivity|].
      replace (Z.to_nat (length - 1) <? List.length oldColors)%nat with false
        by (symmetry; apply Nat.ltb_ge; lia).
      now apply lookup_app_l. }
    destruct (length <? Z.of_nat (List.length (array_set oldColors (length - 1) Null)));
      [|exact Hset].
    unfold array_splice. rewrite lookup_take_lt; [exact Hset|].
    replace (length <? 0) with false by (symmetry; apply Z.ltb_ge; lia).
    assert (Hlt : (i < List.length (array_set oldColors (length - 1) Null))%nat).
    { apply lookup_lt_is_Some. rewrite Hset. now apply lookup_lt_is_Some. }
    lia.
  - destruct (length <? Z.of_nat (List.length oldColors)) eqn:Hshrink; [|reflexivity].
    unfold array_splice. rewrite lookup_take_lt; [reflexivity|].
    replace (length <? 0) with false by (symmetry; apply Z.ltb_ge; lia). lia.
Qed.

(** For a length that is an array length, the resized buffer has that
    length ... *)
Lemma fill_resize_length (oldColors : list Slot) (length : Z) :
  0 <= length < 2 ^ 32 ->
  List.length (fill_resize oldColors length) = Z.to_nat length.
Proof.
  intros Hlen. unfold fill_resize.
  destruct (Z.of_nat (List.length oldColors) <? length) eqn:Hgrow.
  - apply Z.ltb_lt in Hgrow.
    assert (Hset : List.length (array_set oldColors (length - 1) Null) = Z.to_nat length)
      by (rewrite array_set_length by lia; lia).
    rewrite Hset.
    replace (length <? Z.of_nat (Z.to_nat length)) with false
      by (symmetry; apply Z.ltb_ge; lia).
    exact Hset.
  - apply Z.ltb_ge in Hgrow.
    destruct (length <? Z.of_nat (List.length oldColors)) eqn:Hshrink.
    + unfold array_splice.
      replace (length <? 0) with false by (symmetry; apply Z.ltb_ge; lia).
      rewrite length_take. lia.
    + apply Z.ltb_ge in Hshrink. lia.
Qed.

(** ... and what is added to a shorter buffer is a [null] in the last
    slot, after holes. *)
Lemma fill_resize_padding (oldColors : list Slot) (length : Z) :
  Z.of_nat (List.length oldColors) < length < 2 ^ 32 ->
  fill_resize oldColors length
  = oldColors
    ++ repeat Hole (Z.to_nat (length - 1) - List.length oldColors) ++ [Null].
Proof.
  intros Hlen. unfold fill_resize.
  replace (Z.of_nat (List.length oldColors) <? length) with true
    by (symmetry; apply Z.ltb_lt; lia).
  assert (Hset : array_set oldColors (length - 1) Null
                 = oldColors
                   ++ repeat Hole (Z.to_nat (length - 1) - List.length oldColors) ++ [Null]).
  { unfold array_set.
    replace ((length - 1 <? 0) || (2 ^ 32 - 1 <=? length - 1)) with false.
    2:{ symmetry. apply orb_false_iff. split; [apply Z.ltb_ge | apply Z.leb_gt]; lia. }
    replace (Z.to_nat (length - 1) <? List.length oldColors)%nat with false
      by (symmetry; apply Nat.ltb_ge; lia).
    reflexivity. }
  rewrite Hset.
  replace (length <? _) with false; [reflexivity|].
  symmetry. apply Z.ltb_ge. rewrite !length_app, repeat_length. cbn. lia.
Qed.

Lemma lookup_hole (n i : nat) : (i < n)%nat -> repeat Hole n !! i = Some Hole.
Proof.
  revert i. induction n as [|n IH]; intros i Hi; [lia|].
  destruct i as [|i]; [reflexivity|]. cbn. apply IH. lia.
Qed.

Section FillColor.
Context `{NodePixelConstants}.

Lemma fill_loop_skips
  (colorMapFn : ColorMapFn) (pin : Z) (oldColors : list Slot) (n : nat) (w : World) :
  (forall c i old, colorMapFn c i old = None) ->
  for_each (seq 0 n)
    (fun index =>
       match map_colors colorMapFn oldColors !! index with
       | Some (Some color) => neoPixelSetColor pin color (Some (Z.of_nat index))
       | _ => ret tt
       end) w
  = (Ok tt, w).
Proof.
  intros Hnull. apply for_each_skip. intros index. unfold map_colors.
  rewrite list_lookup_imap. destruct (oldColors !! index); cbn; [|reflexivity].
  now rewrite Hnull.
Qed.

(** What the call changes and what it returns. *)
Lemma neoPixelFillColor_null_run
  (w : World) (pin : Z) (colorMapFn : ColorMapFn) :
  (forall c i old, colorMapFn c i old = None) ->
  exists r,
    neoPixelFillColor pin colorMapFn w
    = (r, World_set_board w
            (Board_set_neoPixel (board w) (resized_registry pin (neoPixel (board w)))))
    /\ (r = Ok tt \/ r = Throw RangeError)
    /\ (match fresh_length pin (board w) with
        | Some n => 0 <= n < 2 ^ 32
        | None => True
        end -> r = Ok tt).
Proof.
  intros Hnull.
  unfold neoPixelFillColor, resized_registry, fresh_length. mstep.
  destruct (List.find (on_pin pin) (neoPixel (board w))) as [s|] eqn:Hfind.
  - mstep. destruct (Strip.colors s) as [shared|] eqn:Hcolors.
    + repeat mstep. exists (Ok tt). rewrite (fill_loop_skips _ _ _ _ _ Hnull).
      split; [reflexivity|]. split; [now left|reflexivity].
    + rewrite Board_set_neoPixel_same, World_set_board_same.
      destruct ((0 <=? Strip.length s) && (Strip.length s <? 2 ^ 32)) eqn:Hvalid.
      * rewrite bind_assoc. erewrite bind_ok by (unfold new_Array; now rewrite Hvalid).
        mstep. exists (Ok tt). rewrite (fill_loop_skips _ _ _ _ _ Hnull).
        split; [reflexivity|]. split; [now left|reflexivity].
      * exists (Throw RangeError).
        rewrite bind_assoc.
        erewrite bind_throw by (unfold new_Array; now rewrite Hvalid).
        split; [reflexivity|]. split; [now right|].
        intros Hn. apply andb_false_iff in Hvalid as [Hv | Hv];
          [apply Z.leb_gt in Hv | apply Z.ltb_ge in Hv]; lia.
  - mstep. rewrite Board_set_neoPixel_same, World_set_board_same.
    set (n := defaultNeoPixelLength (settings (board w))).
    destruct ((0 <=? n) && (n <? 2 ^ 32)) eqn:Hvalid.
    + rewrite bind_assoc. erewrite bind_ok by (unfold new_Array; now rewrite Hvalid).
      mstep. exists (Ok tt). rewrite (fill_loop_skips _ _ _ _ _ Hnull).
      split; [reflexivity|]. split; [now left|reflexivity].
    + exists (Throw RangeError).
      rewrite bind_assoc. erewrite bind_throw by (unfold new_Array; now rewrite Hvalid).
      split; [reflexivity|]. split; [now right|].
      intros Hn. apply andb_false_iff in Hvalid as [Hv | Hv];
        [apply Z.leb_gt in Hv | apply Z.ltb_ge in Hv]; lia.
Qed.

(** The registry after the call, seen from outside: the buffer on [pin]
    and the strips of the other pins. *)
Lemma resized_registry_buffer (pin : Z) (strips : list Strip.t) (s : Strip.t)
  (shared : list Slot) :
  List.find (on_pin pin) strips = Some s -> Strip.colors s = Some shared ->
  Strip.colors <$> List.find (on_pin pin) (resized_registry pin strips)
  = Some (Some (fill_resize shared (Strip.length s))).
Proof.
  intros Hfind Hcolors. unfold resized_registry. rewrite Hfind, Hcolors.
  pose proof (find_on_pin pin _ s Hfind) as [_ Hpin].
  erewrite find_update_strip; [reflexivity | exact Hfind|].
  unfold on_pin. cbn. rewrite Hpin. apply Z.eqb_refl.
Qed.

Lemma resized_registry_other (pin q : Z) (strips : list Strip.t) :
  q <> pin ->
  List.find (on_pin q) (resized_registry pin strips) = List.find (on_pin q) strips.
Proof.
  intros Hne. unfold resized_registry.
  destruct (List.find (on_pin pin) strips) as [s|] eqn:Hfind; [|reflexivity].
  destruct (Strip.colors s); [|reflexivity].
  pose proof (find_on_pin pin _ s Hfind) as [_ Hpin].
  now apply find_update_other.
Qed.

Lemma resized_registry_same (pin : Z) (strips : list Strip.t) (s : Strip.t)
  (shared : list Slot) :
  List.find (on_pin pin) strips = Some s -> Strip.colors s = Some shared ->
  Z.of_nat (List.length shared) = Strip.length s ->
  resized_registry pin strips = strips.
Proof.
  intros Hfind Hcolors Hlen. unfold resized_registry. rewrite Hfind, Hcolors.
  rewrite (fill_resize_same shared _ Hlen).
  replace (Strip.set_colors s (Some shared)) with s
    by (destruct s; cbn in *; now subst).
  clear Hcolors Hlen.
  induction strips as [|x tl IH]; [reflexivity|].
  cbn in *. destruct (on_pin pin x); [now injection Hfind as ->|].
  f_equal. now apply IH.
Qed.

(** C9, as the code has it.  With a function that returns [null] at
    every index, [neoPixelFillColor] enqueues nothing and changes nothing
    but the size of the colour buffer of the strip, which it brings to the
    length of the strip when that is an array length: a longer buffer is
    cut to that many slots, a shorter one gets holes and a [null] in the
    last slot, a buffer of that length stays as it is, and the slots that
    remain keep their colours.  A pin without a buffer and the strips of
    the other pins are left as they are.  The call fails, with nothing
    changed, only when it has to create a buffer and the length is not an
    array length. *)
Theorem neoPixelFillColor_null_keeps_colors
  (w : World) (pin : Z) (colorMapFn : ColorMapFn) :
  (forall c i old, colorMapFn c i old = None) ->
  exists r,
    neoPixelFillColor pin colorMapFn w
    = (r, World_set_board w
            (Board_set_neoPixel (board w) (resized_registry pin (neoPixel (board w)))))
    /\ (r = Ok tt \/ r = Throw RangeError)
    /\ (match fresh_length pin (board w) with
        | Some n => 0 <= n < 2 ^ 32
        | None => True
        end -> r = Ok tt)
    /\ (forall s shared,
          List.find (on_pin pin) (neoPixel (board w)) = Some s ->
          Strip.colors s = Some shared ->
          (Z.of_nat (List.length shared) = Strip.length s ->
           resized_registry pin (neoPixel (board w)) = neoPixel (board w))
          /\ (forall i : nat,
                (i < List.length shared)%nat -> Z.of_nat i < Strip.length s ->
                fill_resize shared (Strip.length s) !! i = shared !! i))
    /\ (let w' := snd (neoPixelFillColor pin colorMapFn w) in
        neoPixelThrottledQueue (board w') = neoPixelThrottledQueue (board w)
        /\ heap w' = heap w
        /\ (colors_on pin w = None -> w' = w)
        /\ (forall q, q <> pin ->
              List.find (on_pin q) (neoPixel (board w'))
              = List.find (on_pin q) (neoPixel (board w)))
        /\ forall s shared,
             List.find (on_pin pin) (neoPixel (board w)) = Some s ->
             Strip.colors s = Some shared ->
             exists buffer',
               colors_on pin w' = Some buffer'
               /\ (0 <= Strip.length s < 2 ^ 32 ->
                   List.length buffer' = Z.to_nat (Strip.length s))
               /\ (forall i : nat,
                     (i < List.length shared)%nat -> Z.of_nat i < Strip.length s ->
                     buffer' !! i = shared !! i)
               /\ (forall i : nat,
                     (List.length shared <= i)%nat ->
                     Z.of_nat i < Strip.length s - 1 -> Strip.length s < 2 ^ 32 ->
                     buffer' !! i = Some Hole)
               /\ (Z.of_nat (List.length shared) < Strip.length s < 2 ^ 32 ->
                   buffer' !! Z.to_nat (Strip.length s - 1) = Some Null)
               /\ (Z.of_nat (List.length shared) = Strip.length s ->
                   buffer' = shared)).
Proof.
  intros Hnull.
  destruct (neoPixelFillColor_null_run w pin colorMapFn Hnull) as (r & Hrun & Hres & Hok).
  exists r. split; [exact Hrun|]. split; [exact Hres|]. split; [exact Hok|]. split.
  { intros s shared Hfind Hcolors. split.
    - now apply (resized_registry_same pin _ s shared).
    - intros i. apply fill_resize_lookup. }
  rewrite Hrun. cbn [snd]. cbv zeta.
  split; [reflexivity|]. split; [reflexivity|]. split; [|split].
  - intros Hnone. unfold colors_on in Hnone. unfold resized_registry.
    destruct (List.find (on_pin pin) (neoPixel (board w))) as [s|];
      [rewrite Hnone|]; now rewrite Board_set_neoPixel_same, World_set_board_same.
  - intros q Hq. cbn. now apply resized_registry_other.
  - intros s shared Hfind Hcolors.
    exists (fill_resize shared (Strip.length s)). split.
    { pose proof (resized_registry_buffer pin _ s shared Hfind Hcolors) as Hbuffer.
      unfold colors_on. cbn.
      destruct (List.find (on_pin pin) (resized_registry pin (neoPixel (board w))));
        cbn in Hbuffer; congruence. }
    split; [apply fill_resize_length|].
    split; [intros i; apply fill_resize_lookup|].
    split; [|split].
    + intros i Hi Hbelow Hlen. rewrite fill_resize_padding by lia.
      rewrite lookup_app_r by exact Hi. rewrite lookup_app_l by (rewrite repeat_length; lia).
      apply lookup_hole. lia.
    + intros Hlen. rewrite fill_resize_padding by lia. rewrite app_assoc.
      apply list_lookup_middle. rewrite length_app, repeat_length. lia.
    + apply fill_resize_same.
Qed.

End FillColor.

Lemma neoPixelFillColor_null_keeps_colors_witness :
  exists r buffer',
    @neoPixelFillColor node_pixel 3 null_everywhere shortened_world
    = (r, World_set_board shortened_world
            (Board_set_neoPixel (board shortened_world)
               (resized_registry 3 (neoPixel (board shortened_world)))))
    /\ (r = Ok tt \/ r = Throw RangeError)
    /\ colors_on 3 (snd (@neoPixelFillColor node_pixel 3 null_everywhere shortened_world))
       = Some buffer'
    /\ List.length buffer' = 2%nat.
Proof.
  destruct (@neoPixelFillColor_null_keeps_colors node_pixel shortened_world 3
              null_everywhere (fun _ _ _ => eq_refl))
    as (r & Hrun & Hres & _ & _ & _ & _ & _ & _ & Hbuffer).
  destruct (Hbuffer {| Strip.pin := 3; Strip.length := 2;
                       Strip.colors := Some [Hole; Hole; Hole; Hole; Col [9; 9; 9]] |}
              [Hole; Hole; Hole; Hole; Col [9; 9; 9]] eq_refl eq_refl)
    as (buffer' & Hcolors & Hlength & _).
  exists r, buffer'. split; [exact Hrun|]. split; [exact Hres|].
  split; [exact Hcolors|]. apply Hlength. cbn. lia.
Defined.

(** C9, as the specification has it, fails on a strip whose buffer is
    longer than the strip: the buffer of strip A, five slots with a colour in
    the last, is cut down to two empty slots; no message is enqueued. *)
Lemma neoPixelFillColor_null_resizes :
  colors_on 3 shortened_world = Some [Hole; Hole; Hole; Hole; Col [9; 9; 9]]
  /\ colors_on 3 (snd (@neoPixelFillColor node_pixel 3 null_everywhere shortened_world))
     = Some [Hole; Hole]
  /\ colors_on 3 (snd (@neoPixelFillColor node_pixel 3 null_everywhere shortened_world))
     <> colors_on 3 shortened_world
  /\ neoPixelThrottledQueue
       (board (snd (@neoPixelFillColor node_pixel 3 null_everywhere shortened_world)))
     = neoPixelThrottledQueue (board shortened_world).
Proof.
  split; [reflexivity|]. split; [reflexivity|]. split; [discriminate|reflexivity].
Qed.

(** ** The command/response correlator *)

Lemma event_eqb_eq (a b : EventName) : event_eqb a b = true <-> a = b.
Proof.
  destruct a, b; cbn; try (split; [discriminate | congruence]).
  - split; reflexivity.
  - rewrite Z.eqb_eq. split; congruence.
  - rewrite Z.eqb_eq. split; congruence.
  - rewrite String.eqb_eq. split; congruence.
Qed.

Lemma listens_to_iff (ev : EventName) (entry : EventName * Listener) :
  listens_to ev entry = true <-> fst entry = ev.
Proof. apply event_eqb_eq. Qed.

(** *** Worlds that only lose listeners *)

Lemma shrinks_refl (w : World) : shrinks w w.
Proof. intros fid f Hf. exists f. auto. Qed.

Lemma shrinks_trans (w1 w2 w3 : World) : shrinks w1 w2 -> shrinks w2 w3 -> shrinks w1 w3.
Proof.
  intros H12 H23 fid f3 Hf3.
  destruct (H23 fid f3 Hf3) as (f2 & Hf2 & Hin2).
  destruct (H12 fid f2 Hf2) as (f1 & Hf1 & Hin1).
  exists f1. split; [exact Hf1 | auto].
Qed.

Lemma removeAllListeners_In (ev : option EventName) (f : Firmata)
  (entry : EventName * Listener) :
  In entry (listeners (Firmata_removeAllListeners ev f)) -> In entry (listeners f).
Proof.
  destruct ev as [e|]; cbn; [|intros []].
  intros Hin. now apply filter_In in Hin as [Hin _].
Qed.

Lemma update_firmata_shrinks (w : World) (fid : nat) (ev : option EventName) :
  shrinks w (update_firmata fid (Firmata_removeAllListeners ev) w).
Proof.
  intros fid' f' Hf'. cbn in Hf'.
  destruct (Nat.eq_dec fid fid') as [<- | Hne].
  - rewrite list_lookup_alter_eq in Hf'.
    destruct (heap w !! fid) as [f|]; [|discriminate].
    injection Hf' as <-. exists f. split; [reflexivity|].
    intros entry. apply removeAllListeners_In.
  - rewrite list_lookup_alter_ne in Hf' by exact Hne.
    exists f'. auto.
Qed.

Lemma update_request_shrinks (w : World) (id : nat) (g : Request -> Request) :
  shrinks w (update_request id g w).
Proof. intros fid f Hf. exists f. split; [exact Hf | auto]. Qed.

Lemma update_request_other (w : World) (id id' : nat) (g : Request -> Request) :
  id' <> id -> requests (update_request id' g w) !! id = requests w !! id.
Proof. intros Hne. cbn. now apply list_lookup_alter_ne. Qed.

(** *** Settling another request leaves this one alone *)

Lemma race_settle_other (w : World) (id id' : nat) (s : Settled Value) :
  id' <> id ->
  requests (race_settle id' s w) !! id = requests w !! id
  /\ shrinks w (race_settle id' s w).
Proof.
  intros Hne. unfold race_settle.
  destruct (requests w !! id') as [r|]; [|split; [reflexivity|apply shrinks_refl]].
  destruct (req_result r), s; try (split; [reflexivity|apply shrinks_refl]).
  - split; [now apply update_request_other|apply update_request_shrinks].
  - split; [now rewrite update_request_other|].
    eapply shrinks_trans; [apply update_firmata_shrinks|apply update_request_shrinks].
Qed.

Lemma settle_request_other (w : World) (id id' : nat) (s : Settled Value) :
  id' <> id ->
  requests (settle_request id' s w) !! id = requests w !! id
  /\ shrinks w (settle_request id' s w).
Proof.
  intros Hne. unfold settle_request.
  destruct (requests w !! id') as [r|]; [|split; [reflexivity|apply shrinks_refl]].
  destruct (req_request r); try (split; [reflexivity|apply shrinks_refl]).
  destruct (race_settle_other
              (update_request id' (fun r => Request_set_request r s) w) id id' s Hne)
    as [Hreq Hshr].
  split; [now rewrite Hreq, update_request_other|].
  eapply shrinks_trans; [apply update_request_shrinks|exact Hshr].
Qed.

Lemma run_listener_other (w : World) (id : nat) (data : list Z) (l : Listener) :
  listener_req l <> id ->
  requests (run_listener data w l) !! id = requests w !! id
  /\ shrinks w (run_listener data w l).
Proof.
  intros Hne. destruct l as [id'|id']; cbn in Hne; cbn [run_listener].
  - match goal with |- context [settle_request id' ?s ?w1] =>
      destruct (settle_request_other w1 id id' s Hne) as [Hreq Hshr] end.
    split; [exact Hreq | exact Hshr].
  - destruct data; now apply settle_request_other.
Qed.

Lemma run_listeners_other (w : World) (id : nat) (data : list Z)
  (called : list (EventName * Listener)) :
  (forall entry, In entry called -> listener_req (snd entry) <> id) ->
  let w' := fold_left (fun w entry => run_listener data w (snd entry)) called w in
  requests w' !! id = requests w !! id /\ shrinks w w'.
Proof.
  revert w. induction called as [|entry tl IH]; intros w Hall; cbn.
  - split; [reflexivity|apply shrinks_refl].
  - destruct (run_listener_other w id data (snd entry)) as [Hreq Hshr];
      [apply Hall; now left|].
    destruct (IH (run_listener data w (snd entry))) as [Hreq' Hshr'];
      [intros e He; apply Hall; now right|].
    split; [now rewrite Hreq', Hreq|]. eapply shrinks_trans; eassumption.
Qed.

(** A task none of whose listeners refers to request [id]. *)
Lemma run_task_other (w : World) (id : nat) (t : Task) :
  match t with
  | timer_fires id' => id' <> id
  | firmata_emits fid ev _ =>
      forall entry, In entry (listeners_for w fid ev) -> listener_req (snd entry) <> id
  end ->
  requests (run_task w t) !! id = requests w !! id /\ shrinks w (run_task w t).
Proof.
  destruct t as [id'|fid ev data]; cbn [run_task].
  - intros Hne. destruct (requests w !! id') as [r|];
      [now apply race_settle_other | split; [reflexivity|apply shrinks_refl]].
  - unfold listeners_for. destruct (heap w !! fid) as [f|];
      [|split; [reflexivity|apply shrinks_refl]].
    intros Hall.
    destruct (run_listeners_other
                (update_firmata fid (Firmata_removeAllListeners (Some ev)) w)
                id data (List.filter (listens_to ev) (listeners f)) Hall)
      as [Hreq Hshr].
    split; [exact Hreq|].
    eapply shrinks_trans; [apply update_firmata_shrinks|exact Hshr].
Qed.

(** *** Before the timer fires *)

Lemma armed_quiet (w : World) (id fid : nat) (ev : EventName) (d : Z) (t : Task) :
  armed w id fid ev d -> quiet id fid ev t -> armed (run_task w t) id fid ev d.
Proof.
  intros [Hreq Honly] Hquiet.
  destruct (run_task_other w id t) as [Hsame Hshr].
  { destruct t as [id'|fid' ev' data]; cbn in Hquiet; [exact Hquiet|].
    intros entry Hin Hid. apply Hquiet.
    unfold listeners_for in Hin. destruct (heap w !! fid') as [f|] eqn:Hf; [|destruct Hin].
    apply filter_In in Hin as [Hin Hev]. apply listens_to_iff in Hev.
    destruct (Honly fid' f entry Hf Hin Hid) as [-> <-]. now split. }
  split.
  - now rewrite Hsame.
  - intros fid' f' entry Hf' Hin Hid.
    destruct (Hshr fid' f' Hf') as (f & Hf & Hsub). eauto.
Qed.

Lemma armed_quiet_tasks (w : World) (id fid : nat) (ev : EventName) (d : Z)
  (ts : list Task) :
  armed w id fid ev d -> Forall (quiet id fid ev) ts ->
  armed (run_tasks w ts) id fid ev d.
Proof.
  revert w. induction ts as [|t tl IH]; intros w Harmed Hquiet; [exact Harmed|].
  apply Forall_cons in Hquiet as [Ht Htl]. cbn.
  apply IH; [now apply armed_quiet | exact Htl].
Qed.

(** *** The timer fires *)

Lemma armed_timeout (w : World) (id fid : nat) (ev : EventName) (d : Z) :
  armed w id fid ev d -> timed_out (run_task w (timer_fires id)) id fid ev d.
Proof.
  intros [(r & Hr & Hev & Hfid & Hd & Hrequest & Hresult) Honly].
  cbn [run_task]. rewrite Hr. unfold race_settle. rewrite Hr, Hresult, Hev, Hfid, Hd.
  split; [|split].
  - exists (Request_set_result r (Rejected (timeout_reason d))). cbn.
    rewrite list_lookup_alter_eq, Hr. cbn. auto.
  - intros fid' f' entry Hf' Hin Hid. cbn in Hf'.
    destruct (Nat.eq_dec fid fid') as [<- | Hne].
    + rewrite list_lookup_alter_eq in Hf'.
      destruct (heap w !! fid) as [f|] eqn:Hf; [|discriminate].
      injection Hf' as <-. cbn in Hin. apply filter_In in Hin as [Hin Hev'].
      destruct (Honly fid f entry Hf Hin Hid) as [_ Hentry].
      apply listens_to_iff in Hentry. now rewrite Hentry in Hev'.
    + rewrite list_lookup_alter_ne in Hf' by exact Hne.
      destruct (Honly fid' f' entry Hf' Hin Hid) as [Heq _]. congruence.
  - unfold listeners_for. cbn. rewrite list_lookup_alter_eq.
    destruct (heap w !! fid) as [f|]; [|reflexivity]. cbn.
    induction (listeners f) as [|entry tl IH]; [reflexivity|].
    cbn. destruct (listens_to ev entry) eqn:Hl; cbn; [exact IH|].
    now rewrite Hl.
Qed.

(** *** After the timer has fired *)

Lemma timed_out_task (w : World) (id fid : nat) (ev : EventName) (d : Z) (t : Task) :
  timed_out w id fid ev d -> timed_out (run_task w t) id fid ev d.
Proof.
  intros [(r & Hr & Hrequest & Hresult) [Hunref Hnone]].
  destruct (Nat.eq_dec
              (match t with timer_fires id' => id' | firmata_emits _ _ _ => S id end) id)
    as [Heq | Hne].
  - destruct t as [id'|]; [|lia]. subst id'.
    cbn [run_task]. rewrite Hr. unfold race_settle. rewrite Hr, Hresult.
    split; [eauto|split; assumption].
  - destruct (run_task_other w id t) as [Hsame Hshr].
    { destruct t as [id'|fid' ev' data]; [exact Hne|].
      intros entry Hin. unfold listeners_for in Hin.
      destruct (heap w !! fid') as [f|] eqn:Hf; [|destruct Hin].
      apply filter_In in Hin as [Hin _]. now apply (Hunref fid' f). }
    split; [|split].
    + exists r. now rewrite Hsame.
    + intros fid' f' entry Hf' Hin.
      destruct (Hshr fid' f' Hf') as (f & Hf & Hsub). eauto.
    + unfold listeners_for in *.
      destruct (heap (run_task w t) !! fid) as [f'|] eqn:Hf'; [|reflexivity].
      destruct (Hshr fid f' Hf') as (f & Hf & Hsub). rewrite Hf in Hnone.
      destruct (List.filter (listens_to ev) (listeners f')) as [|entry tl] eqn:Hfilter;
        [reflexivity|].
      assert (Hin : In entry (List.filter (listens_to ev) (listeners f')))
        by (rewrite Hfilter; now left).
      apply filter_In in Hin as [Hin Hev].
      assert (Hin' : In entry (List.filter (listens_to ev) (listeners f)))
        by (apply filter_In; auto).
      rewrite Hnone in Hin'. destruct Hin'.
Qed.

Lemma timed_out_tasks (w : World) (id fid : nat) (ev : EventName) (d : Z)
  (ts : list Task) :
  timed_out w id fid ev d -> timed_out (run_tasks w ts) id fid ev d.
Proof.
  revert w. induction ts as [|t tl IH]; intros w Hout; [exact Hout|].
  cbn. apply IH. now apply timed_out_task.
Qed.

(** *** Starting a query *)

Arguments new_request ev fid delay w : simpl never.

Lemma bind_new_request {B} (ev : EventName) (fid : nat) (delay : Z)
  (k : nat -> M B) (w : World) :
  bind (new_request ev fid delay) k w
  = k (List.length (requests w))
      (World_set_requests w
         (requests w ++ [{| req_event := ev; req_firmata := fid; req_delay := delay;
                            req_request := Pending; req_result := Pending |}])).
Proof. reflexivity. Qed.

(** A world in which request [id] has just been registered on Firmata
    object [fid], whose listeners are those of [f] and the new one. *)
Lemma registered_armed
  (w : World) (fid : nat) (f f' : Firmata) (ev : EventName) (d : Z) (l : Listener)
  (b : Board) :
  listeners_bounded w -> heap w !! fid = Some f ->
  listeners f' = listeners f ++ [(ev, l)] ->
  listener_req l = List.length (requests w) ->
  armed {| board := b;
           heap := <[fid := f']> (heap w);
           requests := requests w
                       ++ [{| req_event := ev; req_firmata := fid; req_delay := d;
                              req_request := Pending; req_result := Pending |}] |}
    (List.length (requests w)) fid ev d.
Proof.
  intros Hbound Hf Hls Hl. split.
  - eexists. split; [apply list_lookup_middle; reflexivity|]. cbn. auto 6.
  - intros fid' f0 entry Hf0 Hin Hid. cbn in Hf0.
    destruct (Nat.eq_dec fid fid') as [<- | Hne].
    + rewrite (heap_insert_lookup _ _ f _ Hf) in Hf0. injection Hf0 as <-.
      rewrite Hls in Hin. apply in_app_or in Hin as [Hin | [<- | []]]; [|now split].
      specialize (Hbound fid f entry Hf Hin). lia.
    + rewrite list_lookup_insert_ne in Hf0 by exact Hne.
      specialize (Hbound fid' f0 entry Hf0 Hin). lia.
Qed.

Lemma start_query_armed (q : QueryCall) (w : World) (fid : nat) :
  can_start q w fid ->
  exists w',
    start_query q w = (Ok (in_flight (List.length (requests w))), w')
    /\ armed w' (List.length (requests w)) fid (event_of q) (delay_of q (board w)).
Proof.
  intros (Hfid & (f & Hf & Hpin) & Hversion & Hbound).
  destruct q as [timeout | pin timeout | pin timeout]; cbn [start_query event_of delay_of].
  - unfold boardVersion. mstep. rewrite Hversion. do 2 mstep. rewrite Hfid.
    rewrite bind_new_request. repeat mstep.
    eexists. split; [reflexivity|]. cbn. rewrite list_insert_insert_eq.
    eapply (registered_armed w fid f); [exact Hbound | exact Hf | reflexivity | reflexivity].
  - destruct Hpin as [p Hp]. unfold getDistanceByUltrasonic. do 4 mstep.
    rewrite bind_new_request. repeat mstep.
    eexists. split; [reflexivity|]. cbn. rewrite !list_insert_insert_eq.
    eapply (registered_armed w fid f); [exact Hbound | exact Hf | reflexivity | reflexivity].
  - unfold getWaterTemp. do 2 mstep. rewrite Hfid.
    rewrite bind_new_request. repeat mstep.
    eexists. split; [reflexivity|]. cbn. rewrite list_insert_insert_eq.
    eapply (registered_armed w fid f); [exact Hbound | exact Hf | reflexivity | reflexivity].
Qed.

(** C2. A board-identity, distance or water-temperature query that can
    be sent returns a pending promise.  When its timer fires before the
    Firmata object has emitted its event, the promise is rejected with the
    timeout of the delay and the listeners of the event are removed; and
    whatever happens afterwards, the event emitted again included, the
    promise stays rejected with that timeout, the [request] behind it is
    never resolved and no listener comes back. *)
Theorem timed_out_query_stays_rejected
  (q : QueryCall) (w : World) (fid : nat) (before after : list Task) :
  can_start q w fid ->
  exists id w1,
    start_query q w = (Ok (in_flight id), w1)
    /\ result_of w1 id = Some Pending
    /\ (Forall (quiet id fid (event_of q)) before ->
        let w2 := run_task (run_tasks w1 before) (timer_fires id) in
        let w3 := run_tasks w2 after in
        let timeout := Rejected (timeout_reason (delay_of q (board w))) in
        result_of w2 id = Some timeout
        /\ listeners_for w2 fid (event_of q) = []
        /\ result_of w3 id = Some timeout
        /\ request_of w3 id = Some Pending
        /\ listeners_for w3 fid (event_of q) = []).
Proof.
  intros Hstart.
  destruct (start_query_armed q w fid Hstart) as (w1 & Hrun & Harmed).
  exists (List.length (requests w)), w1. split; [exact Hrun|]. split.
  - destruct Harmed as [(r & Hr & _ & _ & _ & _ & Hres) _].
    unfold result_of. now rewrite Hr, <- Hres.
  - intros Hquiet w2 w3 timeout.
    assert (Hout : timed_out w2 (List.length (requests w)) fid (event_of q)
                     (delay_of q (board w))).
    { apply armed_timeout. now apply armed_quiet_tasks. }
    pose proof (timed_out_tasks w2 _ _ _ _ after Hout) as Hout3. fold w3 in Hout3.
    destruct Hout as [(r & Hr & _ & Hres) [_ Hnone]].
    destruct Hout3 as [(r3 & Hr3 & Hreq3 & Hres3) [_ Hnone3]].
    unfold result_of, request_of. rewrite Hr, Hr3. cbn.
    rewrite Hres, Hreq3, Hres3. auto.
Qed.

Lemma ready_world_can_start : can_start (query_version (Some 200)) ready_world 0.
Proof.
  split; [reflexivity|]. split; [exists fresh_firmata; split; [reflexivity|exact I]|].
  split; [reflexivity|].
  intros fid f entry Hf Hin. destruct fid as [|fid]; cbn in Hf; [|discriminate].
  injection Hf as <-. destruct Hin.
Defined.

(** The scenario of the specification: a board-identity query with a
    200 ms timeout and no answer fails with that timeout, and a synthetic
    answer sent afterwards is ignored. *)
Lemma timed_out_query_stays_rejected_witness :
  exists id w1,
    start_query (query_version (Some 200)) ready_world = (Ok (in_flight id), w1)
    /\ result_of (run_tasks (run_task w1 (timer_fires id))
                    [firmata_emits 0 board_version_reply [1; 8]]) id
       = Some (Rejected (timeout_reason 200)).
Proof.
  destruct (timed_out_query_stays_rejected (query_version (Some 200)) ready_world 0 []
              [firmata_emits 0 board_version_reply [1; 8]] ready_world_can_start)
    as (id & w1 & Hrun & _ & Hafter).
  exists id, w1. split; [exact Hrun|].
  exact (proj1 (proj2 (proj2 (Hafter (List.Forall_nil _))))).
Defined.

(** ** More on the two-byte decoder *)

(** X1. The decoder is a bijection between the payloads of two 7-bit bytes
    and the integers from -8192 to 8191: a value in that range is read back
    from its seven low bits and its next seven bits, every payload decodes
    into the range, and two payloads that decode alike are the same. *)
Theorem decodeInt16_round_trip :
  (forall v, -8192 <= v < 8192 ->
     decodeInt16FromTwo7bitBytes [v mod 128; (v / 128) mod 128] = v)
  /\ (forall b0 b1, 0 <= b0 < 128 -> 0 <= b1 < 128 ->
        -8192 <= decodeInt16FromTwo7bitBytes [b0; b1] < 8192)
  /\ (forall b0 b1 c0 c1,
        0 <= b0 < 128 -> 0 <= b1 < 128 -> 0 <= c0 < 128 -> 0 <= c1 < 128 ->
        decodeInt16FromTwo7bitBytes [b0; b1] = decodeInt16FromTwo7bitBytes [c0; c1] ->
        b0 = c0 /\ b1 = c1).
Proof.
  assert (Hext : forall u, 0 <= u < 2 ^ 14 ->
            sign_extend14 u = if 8192 <=? u then u - 16384 else u).
  { intros u Hu. unfold sign_extend14. now rewrite testbit13. }
  split; [|split].
  - intros v Hv.
    rewrite decode_spec by (apply Z.mod_pos_bound; lia).
    unfold reassemble14. rewrite low14_split.
    rewrite Hext by (apply Z.mod_pos_bound; lia).
    change (2 ^ 14) with 16384.
    destruct (8192 <=? v mod 16384) eqn:E;
      [apply Z.leb_le in E | apply Z.leb_gt in E];
      Z.to_euclidean_division_equations; lia.
  - intros b0 b1 H0 H1. rewrite decode_spec by assumption.
    unfold reassemble14. rewrite Hext by lia.
    destruct (8192 <=? b0 + 128 * b1) eqn:E;
      [apply Z.leb_le in E | apply Z.leb_gt in E]; lia.
  - intros b0 b1 c0 c1 Hb0 Hb1 Hc0 Hc1.
    rewrite !decode_spec by assumption. unfold reassemble14.
    rewrite !Hext by lia.
    destruct (8192 <=? b0 + 128 * b1) eqn:E1;
      [apply Z.leb_le in E1 | apply Z.leb_gt in E1];
      (destruct (8192 <=? c0 + 128 * c1) eqn:E2;
       [apply Z.leb_le in E2 | apply Z.leb_gt in E2]); lia.
Qed.

(** ** The colour value *)

Lemma decodeInt16_round_trip_witness :
  decodeInt16FromTwo7bitBytes [(-1) mod 128; ((-1) / 128) mod 128] = -1.
Proof. apply (proj1 decodeInt16_round_trip). lia. Defined.

Lemma gammaTable_lookup (v : Z) :
  0 <= v < 256 -> neoPixelGammaTable !! Z.to_nat v = Some (gammaTable_at v).
Proof.
  intros Hv. unfold gammaTable_at.
  assert (Hlt : (Z.to_nat v < List.length neoPixelGammaTable)%nat)
    by (change (List.length neoPixelGammaTable) with 256%nat; lia).
  destruct (lookup_lt_is_Some_2 _ _ Hlt) as [x Hx].
  rewrite Hx. f_equal. symmetry. now apply nth_lookup_Some with (d := 0) in Hx.
Qed.

Lemma gammaTable_range (v : Z) : 0 <= v < 256 -> 0 <= gammaTable_at v <= 255.
Proof.
  intros Hv. split.
  - pose proof (forallb_zrange 256 gamma_entry_ok v gamma_entries_ok Hv) as Hok.
    unfold gamma_entry_ok in Hok.
    apply andb_true_iff in Hok as [Hok _]. apply andb_true_iff in Hok as [Hk _].
    now apply Z.leb_le in Hk.
  - transitivity (gammaTable_at 255); [apply gammaTable_monotone; lia | reflexivity].
Qed.

Lemma table_at_byte (v : Z) :
  is_byte v -> table_at neoPixelGammaTable (Some v) = Some (gammaTable_at v).
Proof.
  intros Hv. unfold table_at.
  replace (v <? 0) with false by (symmetry; apply Z.ltb_ge; unfold is_byte in Hv; lia).
  now apply gammaTable_lookup.
Qed.

Lemma table_at_outside (v : Z) :
  ~ is_byte v -> table_at neoPixelGammaTable (Some v) = None.
Proof.
  intros Hv. unfold table_at, is_byte in *.
  destruct (v <? 0) eqn:E; [reflexivity|]. apply Z.ltb_ge in E.
  apply lookup_ge_None.
  change (List.length neoPixelGammaTable) with 256%nat. lia.
Qed.

Lemma shl_component_byte (x n : Z) :
  0 <= x <= 255 -> 0 <= n <= 16 -> shl_component (Some x) n = x * 2 ^ n.
Proof.
  intros Hx Hn. unfold shl_component.
  assert (Hpow : 0 < 2 ^ n <= 2 ^ 16)
    by (split; [apply Z.pow_pos_nonneg; lia | apply Z.pow_le_mono_r; lia]).
  apply shl_small; [lia | lia | nia].
Qed.

(** X2. On three components from 0 to 255, [neoPixelColorValue] is the
    24-bit number whose bytes are the three gamma-corrected components, red
    highest. *)
Theorem neoPixelColorValue_packs (r g b : Z) :
  is_byte r -> is_byte g -> is_byte b ->
  neoPixelColorValue [r; g; b] neoPixelGammaTable
  = Some (65536 * gammaTable_at r + 256 * gammaTable_at g + gammaTable_at b)
  /\ 0 <= 65536 * gammaTable_at r + 256 * gammaTable_at g + gammaTable_at b < 2 ^ 24.
Proof.
  intros Hr Hg Hb.
  pose proof (gammaTable_range r Hr). pose proof (gammaTable_range g Hg).
  pose proof (gammaTable_range b Hb).
  split; [|lia].
  unfold neoPixelColorValue. cbn [lookup list_lookup].
  rewrite !table_at_byte by assumption.
  rewrite !shl_component_byte by lia. cbn [JS.add]. f_equal. lia.
Qed.

Lemma neoPixelColorValue_packs_witness :
  neoPixelColorValue [255; 0; 128] neoPixelGammaTable = Some (65536 * 255 + 0 + 37).
Proof.
  apply (neoPixelColorValue_packs 255 0 128); unfold is_byte; lia.
Defined.

(** X3. A component outside 0 to 255 is looked up as [undefined]: in the red
    or green position it counts as 0, in the blue position it turns the
    whole value into [NaN], whatever red and green are. *)
Theorem neoPixelColorValue_outside (r g b : Z) :
  (~ is_byte r -> is_byte g -> is_byte b ->
     neoPixelColorValue [r; g; b] neoPixelGammaTable
     = Some (256 * gammaTable_at g + gammaTable_at b))
  /\ (is_byte r -> ~ is_byte g -> is_byte b ->
        neoPixelColorValue [r; g; b] neoPixelGammaTable
        = Some (65536 * gammaTable_at r + gammaTable_at b))
  /\ (~ is_byte b -> neoPixelColorValue [r; g; b] neoPixelGammaTable = None)
  /\ neoPixelColorValue [r; g] neoPixelGammaTable = None.
Proof.
  split; [|split; [|split]].
  - intros Hr Hg Hb. pose proof (gammaTable_range g Hg).
    unfold neoPixelColorValue. cbn [lookup list_lookup].
    rewrite (table_at_outside r Hr), !table_at_byte by assumption.
    rewrite shl_component_byte by lia. change (shl_component None 16) with 0.
    cbn [JS.add]. f_equal. lia.
  - intros Hr Hg Hb. pose proof (gammaTable_range r Hr).
    unfold neoPixelColorValue. cbn [lookup list_lookup].
    rewrite (table_at_outside g Hg), !table_at_byte by assumption.
    rewrite shl_component_byte by lia. change (shl_component None 8) with 0.
    cbn [JS.add]. f_equal. lia.
  - intros Hb. unfold neoPixelColorValue. cbn [lookup list_lookup].
    now rewrite (table_at_outside b Hb).
  - reflexivity.
Qed.

Lemma neoPixelColorValue_outside_witness :
  neoPixelColorValue [1; 2; 256] neoPixelGammaTable = None.
Proof.
  apply (proj1 (proj2 (proj2 (neoPixelColorValue_outside 1 2 256)))).
  unfold is_byte. lia.
Defined.

(** *** The colour bytes of a set-pixel message *)

Lemma toInt32_div_mod128 (z n m : Z) :
  0 <= n -> 2 ^ 32 = m * 128 * 2 ^ n ->
  (JS.toInt32 z / 2 ^ n) mod 128 = (z / 2 ^ n) mod 128.
Proof.
  intros Hn Hm. rewrite toInt32_eq. set (q := - ((z + 2 ^ 31) / 2 ^ 32)).
  assert (Hpos : 0 < 2 ^ n) by (apply Z.pow_pos_nonneg; lia).
  rewrite Hm.
  replace (z + m * 128 * 2 ^ n * q) with (z + (m * 128 * q) * 2 ^ n) by lia.
  rewrite Z.div_add by lia.
  replace (z / 2 ^ n + m * 128 * q) with (z / 2 ^ n + (m * q) * 128) by lia.
  apply Z_mod_plus_full.
Qed.

Lemma shr_and_num_mask7_at (a n m : Z) :
  0 <= n < 32 -> 2 ^ 32 = m * 128 * 2 ^ n ->
  shr_and_num (Some a) n FIRMATA_7BIT_MASK = (a / 2 ^ n) mod 128.
Proof.
  intros Hn Hm. unfold shr_and_num, JS.and, JS.shr, JS.toInt32_num.
  rewrite land_mask7, toInt32_idem, (Z.mod_small n 32) by lia.
  rewrite Z.shiftr_div_pow2 by lia.
  rewrite toInt32_mod128. apply (toInt32_div_mod128 a n m); [lia | exact Hm].
Qed.

Lemma low28_split (c : Z) :
  c mod 128 + 128 * ((c / 2 ^ 7) mod 128)
  + 128 ^ 2 * ((c / 2 ^ 14) mod 128) + 128 ^ 3 * ((c / 2 ^ 21) mod 128)
  = c mod 2 ^ 28.
Proof.
  change (2 ^ 7) with 128. change (2 ^ 14) with (128 * 128).
  change (2 ^ 21) with (128 * 128 * 128). change (2 ^ 28) with (128 * (128 * (128 * 128))).
  rewrite (Z.rem_mul_r c 128 (128 * (128 * 128))) by lia.
  rewrite (Z.rem_mul_r (c / 128) 128 (128 * 128)) by lia.
  rewrite (Z.rem_mul_r (c / 128 / 128) 128 128) by lia.
  rewrite !Z.div_div by lia. lia.
Qed.

Lemma and_num_range (x : JS.num) : 0 <= and_num x FIRMATA_7BIT_MASK < 128.
Proof.
  unfold and_num, JS.and. rewrite land_mask7. apply Z.mod_pos_bound. lia.
Qed.

Lemma shr_and_num_range (x : JS.num) (n : Z) :
  0 <= shr_and_num x n FIRMATA_7BIT_MASK < 128.
Proof.
  unfold shr_and_num, JS.and. rewrite land_mask7. apply Z.mod_pos_bound. lia.
Qed.

Section SetPixelMessage.
Context `{NodePixelConstants}.

(** X4. A set-pixel message has eight bytes; the six after the two command
    bytes are 7-bit bytes, which carry the fourteen low bits of the address
    and the twenty-eight low bits of the colour value, and zeros for a
    [NaN]. *)
Theorem set_pixel_message_carries (address colorValue : JS.num) :
  let message := set_pixel_message address colorValue in
  List.length message = 8%nat
  /\ (forall i : nat, (2 <= i < 8)%nat -> 0 <= nth i message 0 < 128)
  /\ frame_address message
     = match address with Some a => a mod 2 ^ 14 | None => 0 end
  /\ frame_color message
     = match colorValue with Some c => c mod 2 ^ 28 | None => 0 end.
Proof.
  cbn zeta. split; [reflexivity|]. split; [|split].
  - intros i Hi. unfold set_pixel_message.
    do 8 (destruct i as [|i]; [try lia; cbn [nth];
                                first [apply and_num_range | apply shr_and_num_range]|]).
    lia.
  - destruct address as [a|]; [apply frame_address_set_pixel | reflexivity].
  - destruct colorValue as [c|]; [|reflexivity].
    unfold frame_color, set_pixel_message. cbn [nth].
    rewrite and_num_mask7.
    rewrite (shr_and_num_mask7_at c 7 (2 ^ 18)), (shr_and_num_mask7_at c 14 (2 ^ 11)),
      (shr_and_num_mask7_at c 21 (2 ^ 4)) by first [lia | reflexivity].
    apply low28_split.
Qed.

End SetPixelMessage.

(** ** The registry as a map from pins to strips *)

Lemma bind_cases {A B} (m : M A) (k : A -> M B) (w w' : World) (r : Res B) :
  bind m k w = (r, w') ->
  (exists a w1, m w = (Ok a, w1) /\ k a w1 = (r, w'))
  \/ (exists e, m w = (Throw e, w') /\ r = Throw e).
Proof.
  unfold bind. destruct (m w) as [[a|e] w1]; intros Hrun.
  - left. eauto.
  - right. injection Hrun as <- <-. eauto.
Qed.

Lemma find_filter_other (pin q : Z) (strips : list Strip.t) :
  q <> pin ->
  List.find (on_pin q) (List.filter (fun aStrip => negb (on_pin pin aStrip)) strips)
  = List.find (on_pin q) strips.
Proof.
  intros Hne. induction strips as [|x tl IH]; [reflexivity|].
  cbn. destruct (on_pin pin x) eqn:Hp; cbn.
  - replace (on_pin q x) with false; [exact IH|].
    symmetry. unfold on_pin in *. apply Z.eqb_eq in Hp. apply Z.eqb_neq. lia.
  - destruct (on_pin q x); [reflexivity | exact IH].
Qed.

Lemma find_snoc_other (q : Z) (strips : list Strip.t) (s : Strip.t) :
  on_pin q s = false ->
  List.find (on_pin q) (strips ++ [s]) = List.find (on_pin q) strips.
Proof.
  intros Hs. induction strips as [|x tl IH]; cbn; [now rewrite Hs|].
  destruct (on_pin q x); [reflexivity | exact IH].
Qed.

Section RegistryMap.
Context `{NodePixelConstants}.

(** A configuration call either goes through or throws a [TypeError] and
    changes nothing. *)
Lemma neoPixelConfigStrip_cases (w w' : World) (pin length : Z) (r : Res unit) :
  neoPixelConfigStrip pin length w = (r, w') ->
  (r = Ok tt
   /\ neoPixel (board w')
      = List.filter (fun aStrip => negb (on_pin pin aStrip)) (neoPixel (board w))
        ++ [configured_strip pin length (neoPixel (board w))]
   /\ neoPixelThrottledQueue (board w')
      = neoPixelThrottledQueue (board w) ++ [config_message (neoPixel (board w'))])
  \/ (r = Throw TypeError /\ w' = w
      /\ (firmata (board w) = None
          \/ exists fid, firmata (board w) = Some fid
                         /\ (heap w !! fid = None
                             \/ exists f, heap w !! fid = Some f
                                          /\ pin_at (pins f) pin = None))).
Proof.
  intros Hrun.
  destruct (firmata (board w)) as [fid|] eqn:Hfid.
  - destruct (heap w !! fid) as [f|] eqn:Hf.
    + destruct (pin_at (pins f) pin) as [p|] eqn:Hp.
      * destruct (neoPixelConfigStrip_run w fid f pin length p Hfid Hf Hp)
          as (w1 & Hok & Hreg & Hqueue).
        rewrite Hok in Hrun. injection Hrun as <- <-. left. auto.
      * right.
        assert (Hthrow : neoPixelConfigStrip pin length w = (Throw TypeError, w)).
        { unfold neoPixelConfigStrip. mstep. erewrite bind_throw; [reflexivity|].
          unfold firmata_pin. mstep. now rewrite Hp. }
        rewrite Hthrow in Hrun. injection Hrun as <- <-.
        split; [reflexivity|]. split; [reflexivity|]. right. exists fid. eauto.
    + right.
      assert (Hthrow : neoPixelConfigStrip pin length w = (Throw TypeError, w)).
      { unfold neoPixelConfigStrip. mstep. erewrite bind_throw; [reflexivity|].
        unfold firmata_pin. erewrite bind_throw; [reflexivity|].
        unfold firmata_get. now rewrite Hf. }
      rewrite Hthrow in Hrun. injection Hrun as <- <-.
      split; [reflexivity|]. split; [reflexivity|]. right. exists fid. auto.
  - right.
    assert (Hthrow : neoPixelConfigStrip pin length w = (Throw TypeError, w)).
    { unfold neoPixelConfigStrip. erewrite bind_throw; [reflexivity|].
      unfold this_firmata. now rewrite Hfid. }
    rewrite Hthrow in Hrun. injection Hrun as <- <-. auto.
Qed.

(** X5. After [neoPixelConfigStrip (pin, length)] has gone through, the
    registry has a strip on [pin], of that length and with the colour buffer
    the pin had before, if any; the strip of every other pin is the one it
    was. *)
Theorem neoPixelConfigStrip_lookup (w w' : World) (pin length : Z) :
  neoPixelConfigStrip pin length w = (Ok tt, w') ->
  (exists s, strip_on pin w' = Some s
             /\ Strip.pin s = pin
             /\ Strip.length s = length
             /\ Strip.colors s = colors_on pin w)
  /\ forall q, q <> pin -> strip_on q w' = strip_on q w.
Proof.
  intros Hrun.
  destruct (neoPixelConfigStrip_cases w w' pin length (Ok tt) Hrun)
    as [(_ & Hreg & _) | (Habs & _)]; [|discriminate].
  unfold strip_on, colors_on. rewrite Hreg. split.
  - exists (configured_strip pin length (neoPixel (board w))).
    split; [|split; [apply configured_strip_pin|]].
    + apply find_pin_free_app; [apply pin_free_filter|].
      unfold on_pin. rewrite configured_strip_pin. apply Z.eqb_refl.
    + unfold configured_strip.
      destruct (List.find (on_pin pin) (neoPixel (board w))); split; reflexivity.
  - intros q Hq. rewrite find_snoc_other.
    + now apply find_filter_other.
    + unfold on_pin. rewrite configured_strip_pin. apply Z.eqb_neq. lia.
Qed.

(** X6. Without a connected Firmata object, or on a pin outside its pin
    table, [neoPixelConfigStrip] throws a [TypeError] before it touches the
    registry or the queue, and so does [neoPixelSetColor] on a pin that has
    no strip. *)
Theorem neoPixel_needs_pin_table (w : World) (pin : Z) :
  (firmata (board w) = None
   \/ exists fid f, firmata (board w) = Some fid /\ heap w !! fid = Some f
                    /\ pin_at (pins f) pin = None) ->
  (forall length, neoPixelConfigStrip pin length w = (Throw TypeError, w))
  /\ (forall color index,
        strip_on pin w = None ->
        neoPixelSetColor pin color index w = (Throw TypeError, w)).
Proof.
  intros Hbad.
  assert (Hconfig : forall length,
            neoPixelConfigStrip pin length w = (Throw TypeError, w)).
  { intros length. unfold neoPixelConfigStrip.
    destruct Hbad as [Hnone | (fid & f & Hfid & Hf & Hp)].
    - erewrite bind_throw; [reflexivity|]. unfold this_firmata. now rewrite Hnone.
    - mstep. erewrite bind_throw; [reflexivity|].
      unfold firmata_pin. mstep. now rewrite Hp. }
  split; [exact Hconfig|].
  intros color index Hfind. unfold strip_on in Hfind.
  unfold neoPixelSetColor. mstep.
  unfold address_loop.
  rewrite (address_loop_absent pin _ _ 0 Hfind). cbn [fst snd].
  rewrite bind_assoc. mstep.
  erewrite bind_throw; [reflexivity | apply Hconfig].
Qed.

End RegistryMap.

Lemma neoPixelConfigStrip_lookup_witness :
  exists s,
    strip_on 3 (snd (@neoPixelConfigStrip node_pixel 3 4 two_strips_world)) = Some s
    /\ Strip.length s = 4.
Proof.
  destruct (proj1 (@neoPixelConfigStrip_lookup node_pixel two_strips_world
                     (snd (@neoPixelConfigStrip node_pixel 3 4 two_strips_world)) 3 4
                     eq_refl))
    as (s & Hs & _ & Hlen & _).
  exists s. split; [exact Hs | exact Hlen].
Defined.

Lemma neoPixel_needs_pin_table_witness :
  @neoPixelConfigStrip node_pixel 3 5 disconnected_world
  = (Throw TypeError, disconnected_world).
Proof.
  apply (proj1 (@neoPixel_needs_pin_table node_pixel disconnected_world 3
                  (or_introl eq_refl))).
Defined.

(** ** What every NeoPixel call keeps *)

Lemma keeps_ret {A} (I : World -> Prop) (a : A) : keeps I (ret a).
Proof. intros w r w' Hrun Hw. now injection Hrun as _ <-. Qed.

Lemma keeps_throw {A} (I : World -> Prop) (e : Error) : keeps I (@throw A e).
Proof. intros w r w' Hrun Hw. now injection Hrun as _ <-. Qed.

Lemma keeps_bind {A B} (I : World -> Prop) (m : M A) (k : A -> M B) :
  keeps I m -> (forall a, keeps I (k a)) -> keeps I (bind m k).
Proof.
  intros Hm Hk w r w' Hrun Hw.
  apply bind_cases in Hrun as [(a & w1 & Hm1 & Hk1) | (e & Hm1 & _)].
  - apply (Hk a w1 r w' Hk1). now apply (Hm w (Ok a) w1).
  - now apply (Hm w (Throw e) w').
Qed.

Lemma keeps_for_each {A} (I : World -> Prop) (l : list A) (body : A -> M unit) :
  (forall x, keeps I (body x)) -> keeps I (for_each l body).
Proof.
  intros Hbody. induction l as [|x tl IH]; cbn [for_each].
  - apply keeps_ret.
  - apply keeps_bind; [apply Hbody | intros _; exact IH].
Qed.

Lemma keeps_new_Array (I : World -> Prop) (n : Z) : keeps I (new_Array n).
Proof.
  unfold new_Array. destruct ((0 <=? n) && (n <? 2 ^ 32));
    [apply keeps_ret | apply keeps_throw].
Qed.

Lemma unique_pins_update (pin : Z) (s' : Strip.t) (strips : list Strip.t) :
  Strip.pin s' = pin -> unique_pins strips -> unique_pins (update_strip pin s' strips).
Proof.
  intros Hpin. induction strips as [|x tl IH]; cbn; [trivial|].
  intros [Hx Htl]. destruct (on_pin pin x) eqn:Hon; cbn.
  - split; [|exact Htl]. apply Z.eqb_eq in Hon. now rewrite Hpin, <- Hon.
  - split; [|auto]. intros y Hy.
    assert (Hy' : Strip.pin y = Strip.pin x -> False).
    { clear IH. intros Heq. induction tl as [|z tl' IHtl]; [destruct Hy|].
      cbn in Hy. apply pin_free_cons in Hx as [Hz Hx'].
      destruct Htl as [_ Htl'].
      destruct (on_pin pin z) eqn:Hz'.
      - destruct Hy as [<- | Hy].
        + apply Z.eqb_neq in Hon. congruence.
        + specialize (Hx' y Hy). unfold on_pin in Hx'. apply Z.eqb_neq in Hx'.
          congruence.
      - destruct Hy as [<- | Hy].
        + unfold on_pin in Hz. apply Z.eqb_neq in Hz. congruence.
        + now apply IHtl. }
    unfold on_pin. apply Z.eqb_neq. exact Hy'.
Qed.

Lemma keeps_gets {A} (I : World -> Prop) (g : Board -> A) : keeps I (gets g).
Proof. intros w r w' Hrun Hw. now injection Hrun as _ <-. Qed.

Section Keeps.
Context `{NodePixelConstants}.

(** A property kept by the three ways the NeoPixel methods change the
    board is kept by every NeoPixel call. *)
Section KeptByCalls.
Variable Inv : World -> Prop.
Hypothesis Henqueue : forall message, keeps Inv (enqueue message).
Hypothesis Hconfig : forall pin length, keeps Inv (neoPixelConfigStrip pin length).
Hypothesis Hupdate :
  forall pin s c, Strip.pin s = pin ->
    keeps Inv (modify (fun b => Board_set_neoPixel b
                                (update_strip pin (Strip.set_colors s c) (neoPixel b)))).

Lemma keeps_setColor (pin : Z) (color : list Z) (index : option Z) :
  keeps Inv (neoPixelSetColor pin color index).
Proof.
  unfold neoPixelSetColor.
  apply keeps_bind; [apply keeps_gets | intros strips].
  apply keeps_bind.
  { destruct (snd _); [|apply keeps_ret].
    apply keeps_bind; [apply keeps_gets | intros n; apply Hconfig]. }
  intros _. apply keeps_bind; [apply keeps_gets | intros strips'].
  destruct (List.find (on_pin pin) strips') as [strip|] eqn:Hfind;
    [|apply keeps_throw].
  apply find_on_pin in Hfind as [_ Hpin].
  apply keeps_bind.
  { destruct (Strip.colors strip); [apply keeps_ret | apply keeps_new_Array]. }
  intros buffer. apply keeps_bind; [|intros _; apply Henqueue].
  now apply Hupdate.
Qed.

Lemma keeps_fillColor (pin : Z) (colorMapFn : ColorMapFn) :
  keeps Inv (neoPixelFillColor pin colorMapFn).
Proof.
  unfold neoPixelFillColor.
  apply keeps_bind; [apply keeps_gets | intros strips].
  apply keeps_bind.
  { destruct (List.find (on_pin pin) strips); [apply keeps_ret | apply keeps_gets]. }
  intros length. apply keeps_bind.
  { destruct (List.find (on_pin pin) strips) as [s|] eqn:Hfind.
    - apply find_on_pin in Hfind as [_ Hpin].
      destruct (Strip.colors s).
      + apply keeps_bind; [now apply Hupdate | intros _; apply keeps_ret].
      + apply keeps_bind; [apply keeps_new_Array | intros fresh; apply keeps_ret].
    - apply keeps_bind; [apply keeps_new_Array | intros fresh; apply keeps_ret]. }
  intros oldColors. apply keeps_for_each. intros index.
  destruct (map_colors colorMapFn oldColors !! index) as [[color|]|];
    [apply keeps_setColor | apply keeps_ret | apply keeps_ret].
Qed.

Lemma keeps_run_call (c : NeoPixelCall) :
  keeps Inv (run_call c).
Proof.
  destruct c; cbn [run_call].
  - apply Hconfig.
  - apply keeps_setColor.
  - apply keeps_fillColor.
  - apply Henqueue.
  - apply keeps_bind; [apply keeps_fillColor | intros _; apply Henqueue].
  - apply keeps_bind; [apply keeps_gets | intros strips].
    apply keeps_bind; [|intros _; apply Henqueue].
    apply keeps_for_each. intros aStrip. apply keeps_fillColor.
Qed.

Lemma run_calls_keeps (w : World) (cs : list NeoPixelCall) :
  Inv w -> Inv (run_calls w cs).
Proof.
  revert w. induction cs as [|c tl IH]; intros w Hw; [exact Hw|].
  cbn. apply IH.
  destruct (run_call c w) as [r w'] eqn:Hrun. now apply (keeps_run_call c w r w').
Qed.

End KeptByCalls.

Lemma unique_kept_by_config (pin length : Z) :
  keeps registry_unique (neoPixelConfigStrip pin length).
Proof.
  intros w r w' Hrun Huniq.
  destruct (neoPixelConfigStrip_cases w w' pin length r Hrun)
    as [(-> & _ & _) | (_ & -> & _)]; [|exact Huniq].
  now apply (neoPixelConfigStrip_unique w w' pin length).
Qed.

(** X7. Whatever NeoPixel calls are made on a new board, in whatever order
    and whether they resolve or reject, the registry never holds two strips
    on the same pin. *)
Theorem registry_pins_stay_unique (w : World) (cs : list NeoPixelCall) :
  neoPixel (board w) = [] -> unique_pins (neoPixel (board (run_calls w cs))).
Proof.
  intros Hempty. apply (run_calls_keeps registry_unique).
  - intros message w0 r w' Hrun Huniq. now injection Hrun as _ <-.
  - apply unique_kept_by_config.
  - intros pin s c Hpin w0 r w' Hrun Huniq. injection Hrun as _ <-.
    unfold registry_unique. cbn. now apply unique_pins_update.
  - unfold registry_unique. now rewrite Hempty.
Qed.

End Keeps.

Lemma registry_pins_stay_unique_witness :
  unique_pins
    (neoPixel (board (@run_calls node_pixel ready_world
                        [config_call 3 5; setColor_call 7 [1; 2; 3] (Some 1);
                         config_call 3 2; clear_call 7; clearAll_call]))).
Proof. apply (@registry_pins_stay_unique node_pixel). reflexivity. Defined.

(** ** The colour buffer *)

Section ColourBuffer.
Context `{NodePixelConstants}.

(** X9. [neoPixelSetColor] on a pin that has a strip stores the colour in the
    buffer of the strip at the index it was given, not at the index modulo
    the length that the message is addressed to: an index past the end
    makes the buffer longer than the strip, a negative one leaves the
    buffer as it was.  The other slots and the other strips are not
    touched. *)
Theorem neoPixelSetColor_caches
  (w : World) (pin : Z) (color : list Z) (index : Z) (s : Strip.t) :
  unique_pins (neoPixel (board w)) ->
  strip_on pin w = Some s ->
  (Strip.colors s = None -> 0 <= Strip.length s < 2 ^ 32) ->
  exists w' buffer',
    neoPixelSetColor pin color (Some index) w = (Ok tt, w')
    /\ colors_on pin w' = Some buffer'
    /\ (0 <= index < 2 ^ 32 - 1 ->
        buffer' !! Z.to_nat index = Some (Col color)
        /\ List.length buffer'
           = Nat.max (List.length (buffer_of s)) (Z.to_nat index + 1))
    /\ (index < 0 -> buffer' = buffer_of s)
    /\ (forall j : nat,
          j <> Z.to_nat index -> (j < List.length (buffer_of s))%nat ->
          buffer' !! j = buffer_of s !! j)
    /\ (forall q, q <> pin -> strip_on q w' = strip_on q w).
Proof.
  intros Huniq Hfind Hlen. unfold strip_on in Hfind.
  pose proof (find_on_pin pin _ s Hfind) as [_ Hpin].
  exists (World_set_board w
            (Board_enqueue
               (Board_set_neoPixel (board w)
                  (update_strip pin
                     (Strip.set_colors s
                        (Some (array_set (buffer_of s) index (Col color))))
                     (neoPixel (board w))))
               (set_pixel_message
                  (JS.add (Some (sum_lengths (strips_before pin (neoPixel (board w)))))
                     (JS.max0 (JS.rem index (Strip.length s))))
                  (neoPixelColorValue color neoPixelGammaTable)))),
    (array_set (buffer_of s) index (Col color)).
  split; [now apply neoPixelSetColor_configured|].
  split.
  { unfold colors_on. cbn.
    erewrite find_update_strip; [reflexivity | exact Hfind|].
    unfold on_pin. cbn. rewrite Hpin. apply Z.eqb_refl. }
  split; [intros Hi; split; [now apply array_set_lookup_eq | now apply array_set_length]|].
  split; [apply array_set_negative|].
  split; [intros j; apply array_set_lookup_ne|].
  intros q Hq. unfold strip_on. cbn. now apply find_update_other.
Qed.

End ColourBuffer.

Lemma neoPixelSetColor_caches_witness :
  exists w' buffer',
    @neoPixelSetColor node_pixel 7 [1; 2; 3] (Some 4) two_strips_world = (Ok tt, w')
    /\ colors_on 7 w' = Some buffer'
    /\ List.length buffer' = 5%nat.
Proof.
  destruct (@neoPixelSetColor_caches node_pixel two_strips_world 7 [1; 2; 3] 4
              {| Strip.pin := 7; Strip.length := 2; Strip.colors := None |})
    as (w' & buffer' & Hrun & Hcolors & Hin & _).
  - cbn. repeat split; intros s Hs; cbn in Hs;
      repeat (destruct Hs as [<- | Hs]; [reflexivity|]); destruct Hs.
  - reflexivity.
  - cbn. lia.
  - exists w', buffer'. split; [exact Hrun|]. split; [exact Hcolors|].
    apply Hin. lia.
Defined.

(** ** Strips do not share addresses *)

Lemma offset_range (index len : Z) :
  0 < len -> 0 <= Z.max 0 (Z.rem index len) < len.
Proof.
  intros Hlen. destruct (Z.le_gt_cases 0 index) as [Hpos | Hneg].
  - pose proof (Z.rem_bound_pos index len Hpos Hlen). lia.
  - pose proof (Z.rem_nonpos index len ltac:(lia) ltac:(lia)). lia.
Qed.

Lemma sum_lengths_nonneg (strips : list Strip.t) :
  positive_lengths strips -> 0 <= sum_lengths strips.
Proof.
  unfold sum_lengths. induction strips as [|x tl IH]; intros Hpos; cbn; [lia|].
  assert (0 < Strip.length x) by (apply Hpos; now left).
  assert (0 <= fold_right (fun aStrip acc => Strip.length aStrip + acc) 0 tl)
    by (apply IH; intros s Hs; apply Hpos; now right).
  lia.
Qed.

Lemma strips_before_positive (pin : Z) (strips : list Strip.t) :
  positive_lengths strips -> positive_lengths (strips_before pin strips).
Proof.
  induction strips as [|x tl IH]; intros Hpos; cbn; [exact Hpos|].
  destruct (on_pin pin x); [intros s []|].
  intros s [<- | Hs]; [apply Hpos; now left|].
  apply IH; [intros y Hy; apply Hpos; now right | exact Hs].
Qed.

(** Of two strips on different pins, one ends where the other begins, or
    earlier. *)
Lemma strips_in_order (strips : list Strip.t) (p q : Z) (s t : Strip.t) :
  positive_lengths strips ->
  List.find (on_pin p) strips = Some s -> List.find (on_pin q) strips = Some t ->
  p <> q ->
  base_address strips p + Strip.length s <= base_address strips q
  \/ base_address strips q + Strip.length t <= base_address strips p.
Proof.
  unfold base_address. intros Hpos Hs Ht Hne.
  induction strips as [|x tl IH]; [discriminate|].
  assert (Htl : positive_lengths tl) by (intros y Hy; apply Hpos; now right).
  cbn in *. destruct (on_pin p x) eqn:Hp, (on_pin q x) eqn:Hq.
  - unfold on_pin in *. apply Z.eqb_eq in Hp, Hq. congruence.
  - injection Hs as ->. left. cbn.
    pose proof (sum_lengths_nonneg _ (strips_before_positive q tl Htl)).
    unfold sum_lengths in *. cbn. lia.
  - injection Ht as ->. right. cbn.
    pose proof (sum_lengths_nonneg _ (strips_before_positive p tl Htl)).
    unfold sum_lengths in *. cbn. lia.
  - specialize (IH Htl Hs Ht). unfold sum_lengths in *. cbn. lia.
Qed.

Section Disjoint.
Context `{NodePixelConstants}.

(** X10. In a registry without two strips on one pin and without empty
    strips, the address [neoPixelSetColor] computes for a pin stays inside
    the range of the strip of that pin, whatever the index; it is the base
    of the strip plus the index when the index is below the length; and the
    addresses computed for two different pins are never the same. *)
Theorem addresses_stay_in_their_strip
  (strips : list Strip.t) (p q : Z) (s t : Strip.t) (i j : Z) :
  unique_pins strips -> positive_lengths strips ->
  List.find (on_pin p) strips = Some s -> List.find (on_pin q) strips = Some t ->
  exists a b,
    fst (address_loop strips p i) = Some a
    /\ fst (address_loop strips q j) = Some b
    /\ base_address strips p <= a < base_address strips p + Strip.length s
    /\ (0 <= i < Strip.length s -> a = base_address strips p + i)
    /\ (p <> q -> a <> b).
Proof.
  intros Huniq Hpos Hs Ht.
  assert (Hls : 0 < Strip.length s) by (apply Hpos; now apply find_some in Hs as [Hin _]).
  assert (Hlt : 0 < Strip.length t) by (apply Hpos; now apply find_some in Ht as [Hin _]).
  unfold address_loop.
  rewrite (address_loop_from p i strips s 0 Huniq Hs),
    (address_loop_from q j strips t 0 Huniq Ht).
  unfold JS.rem.
  replace (Strip.length s =? 0) with false by (symmetry; apply Z.eqb_neq; lia).
  replace (Strip.length t =? 0) with false by (symmetry; apply Z.eqb_neq; lia).
  cbn [fst JS.max0 JS.add]. do 2 eexists. split; [reflexivity|]. split; [reflexivity|].
  pose proof (offset_range i (Strip.length s) Hls).
  pose proof (offset_range j (Strip.length t) Hlt).
  fold (base_address strips p). fold (base_address strips q).
  split; [lia|]. split.
  - intros Hi. rewrite Z.rem_small by lia. lia.
  - intros Hne. destruct (strips_in_order strips p q s t Hpos Hs Ht Hne); lia.
Qed.

End Disjoint.

Lemma addresses_stay_in_their_strip_witness :
  exists a b,
    fst (@address_loop (neoPixel (board two_strips_world)) 3 9) = Some a
    /\ fst (@address_loop (neoPixel (board two_strips_world)) 7 9) = Some b
    /\ a <> b.
Proof.
  destruct (addresses_stay_in_their_strip (neoPixel (board two_strips_world)) 3 7
              {| Strip.pin := 3; Strip.length := 5; Strip.colors := None |}
              {| Strip.pin := 7; Strip.length := 2; Strip.colors := None |} 9 9)
    as (a & b & Ha & Hb & _ & _ & Hne).
  - cbn. repeat split; intros s Hs; cbn in Hs;
      repeat (destruct Hs as [<- | Hs]; [reflexivity|]); destruct Hs.
  - intros s Hs. cbn in Hs.
    repeat (destruct Hs as [<- | Hs]; [cbn; lia|]). destruct Hs.
  - reflexivity.
  - reflexivity.
  - exists a, b. split; [exact Ha|]. split; [exact Hb|]. apply Hne. lia.
Defined.

(** ** The messages and the buffer of [neoPixelFillColor] *)

Lemma strips_before_update (pin : Z) (s' : Strip.t) (strips : list Strip.t) :
  on_pin pin s' = true ->
  strips_before pin (update_strip pin s' strips) = strips_before pin strips.
Proof.
  intros Hon. induction strips as [|x tl IH]; [reflexivity|].
  cbn. destruct (on_pin pin x) eqn:Hx; cbn.
  - now rewrite Hon.
  - rewrite Hx. now f_equal.
Qed.

Lemma map_colors_lookup (colorMapFn : ColorMapFn) (oldColors : list Slot) (i : nat) :
  map_colors colorMapFn oldColors !! i
  = (fun c => colorMapFn c (Z.of_nat i) oldColors) <$> oldColors !! i.
Proof. unfold map_colors. apply list_lookup_imap. Qed.

(** The buffer after the loop: the colours given, the other slots kept. *)
Lemma fill_buffer_spec (newColors : list (option (list Z))) (m : nat) :
  forall (k : nat) (buffer : list Slot),
    Z.of_nat (List.length buffer) < 2 ^ 32 ->
    (k + m <= List.length buffer)%nat ->
    List.length (fill_buffer newColors (seq k m) buffer) = List.length buffer
    /\ forall i : nat,
         (i < List.length buffer)%nat ->
         fill_buffer newColors (seq k m) buffer !! i
         = match newColors !! i with
           | Some (Some color) =>
               if ((k <=? i) && (i <? k + m))%nat then Some (Col color) else buffer !! i
           | _ => buffer !! i
           end.
Proof.
  induction m as [|m IH]; intros k buffer Hsmall Hk.
  - cbn [seq fill_buffer fold_left]. split; [reflexivity|]. intros i _.
    replace ((k <=? i) && (i <? k + 0))%nat with false.
    2:{ symmetry. apply andb_false_iff.
        destruct (Nat.leb_spec k i); [right; apply Nat.ltb_ge; lia | now left]. }
    now destruct (newColors !! i) as [[?|]|].
  - cbn [seq fill_buffer fold_left].
    set (buffer1 := match newColors !! k with
                    | Some (Some color) => array_set buffer (Z.of_nat k) (Col color)
                    | _ => buffer
                    end).
    assert (Hlen1 : List.length buffer1 = List.length buffer).
    { subst buffer1. destruct (newColors !! k) as [[color|]|]; try reflexivity.
      rewrite array_set_length by lia. lia. }
    destruct (IH (S k) buffer1) as [Hlen Hat]; [lia | lia|].
    fold (fill_buffer newColors (seq (S k) m) buffer1).
    split; [lia|]. intros i Hi. rewrite Hat by lia.
    destruct (Nat.eq_dec i k) as [-> | Hne].
    + replace ((S k <=? k) && (k <? S k + m))%nat with false
        by (symmetry; apply andb_false_iff; left; apply Nat.leb_gt; lia).
      replace ((k <=? k) && (k <? k + S m))%nat with true
        by (symmetry; apply andb_true_iff; split;
            [apply Nat.leb_le | apply Nat.ltb_lt]; lia).
      subst buffer1. destruct (newColors !! k) as [[color|]|]; try reflexivity.
      pose proof (array_set_lookup_eq buffer (Z.of_nat k) (Col color) ltac:(lia)) as Hx.
      rewrite Nat2Z.id in Hx. exact Hx.
    + replace ((S k <=? i) && (i <? S k + m))%nat
        with ((k <=? i) && (i <? k + S m))%nat.
      2:{ destruct (Nat.leb_spec k i), (Nat.leb_spec (S k) i),
            (Nat.ltb_spec i (k + S m)), (Nat.ltb_spec i (S k + m));
            try reflexivity; lia. }
      assert (Hsame : buffer1 !! i = buffer !! i).
      { subst buffer1. destruct (newColors !! k) as [[color|]|]; try reflexivity.
        apply array_set_lookup_ne; lia. }
      rewrite Hsame. reflexivity.
Qed.

Lemma lookup_repeat {A} (x : A) (n i : nat) : (i < n)%nat -> repeat x n !! i = Some x.
Proof.
  revert i. induction n as [|n IH]; intros i Hi; [lia|].
  destruct i as [|i]; [reflexivity|]. cbn. apply IH. lia.
Qed.

Lemma flat_map_singletons {A B} (g : A -> list B) (f : A -> B) (l : list A) :
  (forall a, In a l -> g a = [f a]) -> flat_map g l = map f l.
Proof.
  induction l as [|a tl IH]; intros Hg; [reflexivity|].
  cbn. rewrite (Hg a) by now left. cbn. f_equal. apply IH. intros b Hb. apply Hg. now right.
Qed.

Section FillFramesProofs.
Context `{NodePixelConstants}.

Arguments neoPixelColorValue colors gammaTable : simpl never.

Lemma shape_update (pin : Z) (s s' : Strip.t) (strips : list Strip.t) :
  List.find (on_pin pin) strips = Some s -> strip_shape s' = strip_shape s ->
  map strip_shape (update_strip pin s' strips) = map strip_shape strips.
Proof.
  intros Hfind Hshape. induction strips as [|x tl IH]; [reflexivity|].
  cbn in *. destruct (on_pin pin x) eqn:Hx; cbn.
  - injection Hfind as ->. now rewrite Hshape.
  - f_equal. now apply IH.
Qed.

Lemma fill_ready_update (pin len base : Z) (buffer buffer' : list Slot)
  (sh : list (Z * Z)) (w : World) (s : Strip.t) (message : list (list Z)) :
  fill_ready pin len base buffer sh w -> strip_on pin w = Some s ->
  fill_ready pin len base buffer' sh
    (World_set_board w
       {| settings := settings (board w); version := version (board w);
          state := state (board w); firmata := firmata (board w);
          extensionId := extensionId (board w);
          neoPixel := update_strip pin (Strip.set_colors s (Some buffer'))
                        (neoPixel (board w));
          neoPixelThrottledQueue := neoPixelThrottledQueue (board w) ++ message;
          oneWireDevices := oneWireDevices (board w);
          board_transport := board_transport (board w);
          emitted := emitted (board w) |}).
Proof.
  intros [Huniq [Hshape (s0 & Hs0 & Hlen & Hbase & _)]] Hs.
  rewrite Hs in Hs0. injection Hs0 as <-.
  unfold strip_on in Hs. pose proof (find_on_pin pin _ s Hs) as [_ Hpin].
  assert (Hon : on_pin pin (Strip.set_colors s (Some buffer')) = true)
    by (unfold on_pin; cbn; rewrite Hpin; apply Z.eqb_refl).
  split; [cbn; now apply unique_pins_update|].
  split; [unfold shape in *; cbn; rewrite <- Hshape; now apply (shape_update pin s)|].
  exists (Strip.set_colors s (Some buffer')). unfold strip_on, base_address in *. cbn.
  split; [now apply (find_update_strip pin s)|]. split; [exact Hlen|].
  split; [now rewrite strips_before_update | reflexivity].
Qed.

Lemma fill_loop_run
  (pin len base : Z) (newColors : list (option (list Z))) (sh : list (Z * Z))
  (m : nat) :
  0 < len < 2 ^ 32 ->
  forall (k : nat) (buffer : list Slot) (w : World),
    Z.of_nat (k + m) <= len -> fill_ready pin len base buffer sh w ->
    exists w',
      for_each (seq k m)
        (fun index =>
           match newColors !! index with
           | Some (Some color) => neoPixelSetColor pin color (Some (Z.of_nat index))
           | _ => ret tt
           end) w
      = (Ok tt, w')
      /\ fill_ready pin len base (fill_buffer newColors (seq k m) buffer) sh w'
      /\ neoPixelThrottledQueue (board w')
         = neoPixelThrottledQueue (board w) ++ flat_map (fill_frame newColors base) (seq k m).
Proof.
  intros Hlen. induction m as [|m IH]; intros k buffer w Hk Hready.
  - exists w. cbn. rewrite app_nil_r. auto.
  - cbn [seq for_each flat_map fill_buffer fold_left]. unfold fill_frame at 1.
    fold (fill_buffer newColors (seq (S k) m)).
    destruct (newColors !! k) as [[color|]|] eqn:Hnew.
    + pose proof Hready as [Huniq [_ (s & Hs & Hslen & Hbase & Hbuffer)]].
      pose proof (neoPixelSetColor_configured w pin color (Z.of_nat k) s Huniq Hs
                    ltac:(intros _; lia)) as Hset.
      unfold JS.rem in Hset.
      replace (Strip.length s =? 0) with false in Hset
        by (symmetry; apply Z.eqb_neq; lia).
      cbn [JS.max0 JS.add] in Hset.
      rewrite Z.rem_small, Z.max_r in Hset by lia.
      fold (base_address (neoPixel (board w)) pin) in Hset.
      rewrite Hbase, Hbuffer in Hset.
      erewrite bind_ok; [|exact Hset].
      match goal with
      | |- context [for_each _ _ ?w1] =>
          destruct (IH (S k) (array_set buffer (Z.of_nat k) (Col color)) w1)
            as (w' & Hrun & Hready' & Hq)
      end; [lia| |].
      { now apply (fill_ready_update pin len base buffer _ sh w s). }
      exists w'. split; [exact Hrun|]. split; [exact Hready'|].
      rewrite Hq. cbn. now rewrite <- app_assoc.
    + rewrite bind_ret. destruct (IH (S k) buffer w) as (w' & Hrun & Hready' & Hq);
        [lia | exact Hready|]. exists w'. auto.
    + rewrite bind_ret. destruct (IH (S k) buffer w) as (w' & Hrun & Hready' & Hq);
        [lia | exact Hready|]. exists w'. auto.
Qed.

(** What [neoPixelFillColor] does on a pin that has a strip. *)
Lemma neoPixelFillColor_run
  (w : World) (pin : Z) (colorMapFn : ColorMapFn) (s : Strip.t) :
  unique_pins (neoPixel (board w)) ->
  strip_on pin w = Some s ->
  0 < Strip.length s < 2 ^ 32 ->
  let oldColors := fill_resize (buffer_of s) (Strip.length s) in
  let newColors := map_colors colorMapFn oldColors in
  let indices := seq 0 (Z.to_nat (Strip.length s)) in
  let base := base_address (neoPixel (board w)) pin in
  exists w',
    neoPixelFillColor pin colorMapFn w = (Ok tt, w')
    /\ fill_ready pin (Strip.length s) base (fill_buffer newColors indices oldColors)
         (shape w) w'
    /\ neoPixelThrottledQueue (board w')
       = neoPixelThrottledQueue (board w) ++ flat_map (fill_frame newColors base) indices.
Proof.
  intros Huniq Hs Hlen oldColors newColors indices base.
  unfold neoPixelFillColor. mstep. pose proof Hs as Hfind. unfold strip_on in Hfind.
  rewrite Hfind. mstep.
  unfold buffer_of in oldColors. destruct (Strip.colors s) as [shared|] eqn:Hcolors.
  - rewrite bind_assoc, bind_modify, bind_ret.
    match goal with
    | |- context [for_each _ _ ?w1] =>
        destruct (fill_loop_run pin (Strip.length s) base newColors (shape w)
                    (Z.to_nat (Strip.length s)) Hlen 0 oldColors w1)
          as (w' & Hrun & Hready' & Hq)
    end; [lia | |].
    { pose proof (fill_ready_update pin (Strip.length s) base shared oldColors (shape w)
                    w s []) as Hr.
      rewrite app_nil_r in Hr. apply Hr; [|exact Hs].
      split; [exact Huniq|]. split; [reflexivity|].
      exists s. unfold buffer_of. rewrite Hcolors. auto. }
    exists w'. split; [exact Hrun|]. split; [exact Hready' | exact Hq].
  - rewrite bind_assoc. erewrite bind_ok; [|apply new_Array_ok; lia]. mstep.
    assert (Hold : oldColors = repeat Hole (Z.to_nat (Strip.length s))).
    { subst oldColors. apply fill_resize_same. rewrite repeat_length. lia. }
    destruct (fill_loop_run pin (Strip.length s) base newColors (shape w)
                (Z.to_nat (Strip.length s)) Hlen 0 oldColors w)
      as (w' & Hrun & Hready' & Hq); [lia | |].
    { split; [exact Huniq|]. split; [reflexivity|].
      exists s. unfold buffer_of. rewrite Hcolors, Hold. auto. }
    exists w'. split; [exact Hrun|]. split; [exact Hready' | exact Hq].
Qed.

(** X11. [neoPixelFillColor] on a pin that has a strip: the colour function is
    applied to the buffer of the strip, resized to its length, as it is
    before the call.  One set-pixel message is enqueued for each index where
    the function gave a colour, in index order, addressed to that LED of the
    strip; afterwards the buffer has the length of the strip, holds the
    colours given and has kept the slots where none was given. *)
Theorem neoPixelFillColor_frames
  (w : World) (pin : Z) (colorMapFn : ColorMapFn) (s : Strip.t) :
  unique_pins (neoPixel (board w)) ->
  strip_on pin w = Some s ->
  0 < Strip.length s < 2 ^ 32 ->
  let oldColors := fill_resize (buffer_of s) (Strip.length s) in
  let newColors := map_colors colorMapFn oldColors in
  exists w' buffer',
    neoPixelFillColor pin colorMapFn w = (Ok tt, w')
    /\ neoPixelThrottledQueue (board w')
       = neoPixelThrottledQueue (board w)
         ++ flat_map (fill_frame newColors (base_address (neoPixel (board w)) pin))
              (seq 0 (Z.to_nat (Strip.length s)))
    /\ buffer_of <$> strip_on pin w' = Some buffer'
    /\ List.length buffer' = Z.to_nat (Strip.length s)
    /\ forall i : nat,
         (i < Z.to_nat (Strip.length s))%nat ->
         buffer' !! i
         = match newColors !! i with
           | Some (Some color) => Some (Col color)
           | _ => oldColors !! i
           end.
Proof.
  intros Huniq Hs Hlen oldColors newColors.
  destruct (neoPixelFillColor_run w pin colorMapFn s Huniq Hs Hlen)
    as (w' & Hrun & [_ [_ (s' & Hs' & _ & _ & Hbuffer)]] & Hq).
  fold oldColors newColors in Hbuffer, Hq.
  pose proof (fill_resize_length (buffer_of s) (Strip.length s) ltac:(lia)) as Hold.
  fold oldColors in Hold.
  destruct (fill_buffer_spec newColors (Z.to_nat (Strip.length s)) 0 oldColors)
    as [Hlen' Hat]; [lia | lia|].
  exists w', (fill_buffer newColors (seq 0 (Z.to_nat (Strip.length s))) oldColors).
  split; [exact Hrun|]. split; [exact Hq|].
  split; [rewrite Hs'; cbn; now rewrite Hbuffer|].
  split; [lia|].
  intros i Hi. rewrite Hat by lia.
  destruct (newColors !! i) as [[color|]|]; try reflexivity.
  replace ((0 <=? i) && (i <? 0 + Z.to_nat (Strip.length s)))%nat with true;
    [reflexivity|].
  symmetry. apply andb_true_iff. split; [apply Nat.leb_le | apply Nat.ltb_lt]; lia.
Qed.

(** X12. [neoPixelClear] on a pin that has a strip enqueues a black set-pixel
    message for each LED of the strip, in order, then the show command, and
    leaves every slot of the buffer of the strip black. *)
Theorem neoPixelClear_blacks_out (w : World) (pin : Z) (s : Strip.t) :
  unique_pins (neoPixel (board w)) ->
  strip_on pin w = Some s ->
  0 < Strip.length s < 2 ^ 32 ->
  exists w',
    neoPixelClear pin w = (Ok tt, w')
    /\ neoPixelThrottledQueue (board w')
       = neoPixelThrottledQueue (board w)
         ++ clear_frames (base_address (neoPixel (board w)) pin) (Strip.length s)
    /\ buffer_of <$> strip_on pin w'
       = Some (repeat (Col [0; 0; 0]) (Z.to_nat (Strip.length s))).
Proof.
  intros Huniq Hs Hlen.
  destruct (neoPixelFillColor_run w pin (fun _ _ _ => Some [0; 0; 0]) s Huniq Hs Hlen)
    as (w' & Hrun & [_ [_ (s' & Hs' & _ & _ & Hbuffer)]] & Hq).
  cbv zeta in Hbuffer, Hq.
  set (oldColors := fill_resize (buffer_of s) (Strip.length s)) in *.
  set (newColors := map_colors (fun _ _ _ => Some [0; 0; 0]) oldColors) in *.
  pose proof (fill_resize_length (buffer_of s) (Strip.length s) ltac:(lia)) as Hold.
  fold oldColors in Hold.
  assert (Hnew : forall i : nat, (i < Z.to_nat (Strip.length s))%nat ->
                                 newColors !! i = Some (Some [0; 0; 0])).
  { intros i Hi. subst newColors. rewrite map_colors_lookup.
    destruct (oldColors !! i) eqn:Hi'; [reflexivity|].
    apply lookup_ge_None in Hi'. lia. }
  unfold neoPixelClear. erewrite bind_ok; [|exact Hrun].
  eexists. split; [reflexivity|]. split.
  - cbn. rewrite Hq, <- app_assoc. unfold clear_frames. do 2 f_equal.
    apply flat_map_singletons. intros i Hi. apply in_seq in Hi.
    unfold fill_frame. rewrite Hnew by lia. reflexivity.
  - unfold strip_on in *. cbn. rewrite Hs'. cbn. f_equal. rewrite Hbuffer.
    destruct (fill_buffer_spec newColors (Z.to_nat (Strip.length s)) 0 oldColors)
      as [Hlen' Hat]; [lia | lia|].
    apply list_eq. intros i.
    destruct (Nat.lt_ge_cases i (Z.to_nat (Strip.length s))) as [Hi | Hi].
    + rewrite Hat, Hnew by lia.
      replace ((0 <=? i) && (i <? 0 + Z.to_nat (Strip.length s)))%nat with true.
      2:{ symmetry. apply andb_true_iff.
          split; [apply Nat.leb_le | apply Nat.ltb_lt]; lia. }
      symmetry. now apply lookup_repeat.
    + rewrite !(proj2 (lookup_ge_None _ _)); [reflexivity | |].
      * rewrite repeat_length. lia.
      * lia.
Qed.

End FillFramesProofs.

Lemma neoPixelFillColor_frames_witness :
  exists w',
    @neoPixelFillColor node_pixel 7
      (fun _ index _ => if index =? 1 then Some [1; 2; 3] else None) two_strips_world
    = (Ok tt, w')
    /\ List.length (neoPixelThrottledQueue (board w'))
       = S (List.length (neoPixelThrottledQueue (board two_strips_world))).
Proof.
  destruct (@neoPixelFillColor_frames node_pixel two_strips_world 7
              (fun _ index _ => if index =? 1 then Some [1; 2; 3] else None)
              {| Strip.pin := 7; Strip.length := 2; Strip.colors := None |})
    as (w' & buffer' & Hrun & Hq & _).
  - cbn. repeat split; intros s Hs; cbn in Hs;
      repeat (destruct Hs as [<- | Hs]; [reflexivity|]); destruct Hs.
  - reflexivity.
  - cbn. lia.
  - exists w'. split; [exact Hrun|]. rewrite Hq, length_app. vm_compute. reflexivity.
Defined.

Lemma neoPixelClear_blacks_out_witness :
  exists w',
    @neoPixelClear node_pixel 7 two_strips_world = (Ok tt, w')
    /\ buffer_of <$> strip_on 7 w' = Some [Col [0; 0; 0]; Col [0; 0; 0]].
Proof.
  destruct (@neoPixelClear_blacks_out node_pixel two_strips_world 7
              {| Strip.pin := 7; Strip.length := 2; Strip.colors := None |})
    as (w' & Hrun & _ & Hbuffer).
  - cbn. repeat split; intros s Hs; cbn in Hs;
      repeat (destruct Hs as [<- | Hs]; [reflexivity|]); destruct Hs.
  - reflexivity.
  - cbn. lia.
  - exists w'. split; [exact Hrun | exact Hbuffer].
Defined.

(** ** [neoPixelClearAll] *)

Lemma map_seq_shift {B} (g : nat -> B) (b n : nat) :
  forall k, map (fun i => g (b + i)%nat) (seq k n) = map g (seq (b + k) n).
Proof.
  induction n as [|n IH]; intros k; [reflexivity|].
  cbn. f_equal. rewrite IH. now rewrite Nat.add_succ_r.
Qed.

Lemma unique_pins_middle (pre post : list Strip.t) (s : Strip.t) :
  unique_pins (pre ++ s :: post) -> pin_free (Strip.pin s) pre.
Proof.
  induction pre as [|x tl IH]; intros Huniq; [intros y []|].
  cbn in Huniq. destruct Huniq as [Hx Htl].
  intros y [<- | Hy]; [|now apply IH].
  assert (Hs : on_pin (Strip.pin x) s = false)
    by (apply Hx, in_or_app; right; now left).
  unfold on_pin in *. apply Z.eqb_neq in Hs. apply Z.eqb_neq. congruence.
Qed.

(** A registry with the pins and lengths of [pre ++ s :: post] has its
    strip on the pin of [s] after strips as long as those of [pre]. *)
Lemma shaped_find (pre post : list Strip.t) (s : Strip.t) :
  pin_free (Strip.pin s) pre ->
  forall registry,
    map strip_shape registry = map strip_shape (pre ++ s :: post) ->
    exists s',
      List.find (on_pin (Strip.pin s)) registry = Some s'
      /\ Strip.length s' = Strip.length s
      /\ base_address registry (Strip.pin s) = sum_lengths pre.
Proof.
  unfold base_address.
  induction pre as [|x tl IH]; intros Hfree registry Hshape;
    destruct registry as [|r rt]; try discriminate; cbn [map app] in Hshape;
    injection Hshape as Hpin Hlen Hrt.
  - exists r. cbn. unfold on_pin at 1 3. rewrite Hpin, Z.eqb_refl. auto.
  - assert (Hx : on_pin (Strip.pin s) r = false).
    { unfold on_pin. rewrite Hpin. apply (Hfree x). now left. }
    destruct (IH ltac:(intros y Hy; apply Hfree; now right) rt Hrt)
      as (s' & Hfind & Hlen' & Hbase).
    exists s'. cbn [List.find strips_before]. rewrite Hx.
    split; [exact Hfind|]. split; [exact Hlen'|].
    unfold sum_lengths in *. cbn [fold_right]. now rewrite Hbase, Hlen.
Qed.

Section ClearAll.
Context `{NodePixelConstants}.

Arguments neoPixelColorValue colors gammaTable : simpl never.

Lemma fill_black_frames (oldColors : list Slot) (base : Z) :
  0 <= base ->
  flat_map (fill_frame (map_colors (fun _ _ _ => Some [0; 0; 0]) oldColors) base)
    (seq 0 (List.length oldColors))
  = black_frames (Z.to_nat base) (List.length oldColors).
Proof.
  intros Hbase. unfold black_frames.
  rewrite <- (Nat.add_0_r (Z.to_nat base)), <- map_seq_shift.
  apply flat_map_singletons. intros i Hi. apply in_seq in Hi.
  unfold fill_frame. rewrite map_colors_lookup.
  destruct (oldColors !! i) eqn:Hi'; [|apply lookup_ge_None in Hi'; lia].
  cbn. replace (base + Z.of_nat i) with (Z.of_nat (Z.to_nat base + i)) by lia.
  reflexivity.
Qed.

Lemma clear_loop (post : list Strip.t) :
  forall (pre : list Strip.t) (w : World),
    unique_pins (neoPixel (board w)) ->
    shape w = map strip_shape (pre ++ post) ->
    unique_pins (pre ++ post) ->
    (forall s, In s (pre ++ post) -> 0 < Strip.length s < 2 ^ 32) ->
    exists w',
      for_each post
        (fun aStrip =>
           neoPixelFillColor (Strip.pin aStrip) (fun _ _ _ => Some [0; 0; 0])) w
      = (Ok tt, w')
      /\ neoPixelThrottledQueue (board w')
         = neoPixelThrottledQueue (board w)
           ++ black_frames (Z.to_nat (sum_lengths pre)) (Z.to_nat (sum_lengths post)).
Proof.
  induction post as [|s tl IH]; intros pre w Huniq Hshape Hsource Hlen.
  - exists w. cbn. rewrite app_nil_r. auto.
  - assert (Hpre : 0 <= sum_lengths pre).
    { apply sum_lengths_nonneg. intros x Hx. apply Hlen, in_or_app. now left. }
    assert (Hs : 0 < Strip.length s < 2 ^ 32)
      by (apply Hlen, in_or_app; right; now left).
    assert (Htl : 0 <= sum_lengths tl).
    { apply sum_lengths_nonneg. intros x Hx. apply Hlen, in_or_app. right. now right. }
    destruct (shaped_find pre tl s (unique_pins_middle pre tl s Hsource)
                (neoPixel (board w)) Hshape)
      as (s' & Hfind & Hlen' & Hbase).
    destruct (neoPixelFillColor_run w (Strip.pin s) (fun _ _ _ => Some [0; 0; 0]) s'
                Huniq Hfind ltac:(lia))
      as (w1 & Hrun & [Huniq1 [Hshape1 _]] & Hq).
    cbv zeta in Hq. rewrite Hbase in Hq.
    pose proof (fill_resize_length (buffer_of s') (Strip.length s') ltac:(lia)) as Hold.
    rewrite <- Hold, fill_black_frames in Hq by exact Hpre.
    rewrite Hold, Hlen' in Hq.
    destruct (IH (pre ++ [s]) w1) as (w' & Hloop & Hq').
    + exact Huniq1.
    + rewrite Hshape1, Hshape, <- app_assoc. reflexivity.
    + now rewrite <- app_assoc.
    + intros x Hx. apply Hlen. now rewrite <- app_assoc in Hx.
    + exists w'. cbn [for_each]. erewrite bind_ok; [|exact Hrun].
      split; [exact Hloop|]. rewrite Hq', Hq, <- app_assoc. f_equal.
      unfold black_frames. rewrite <- map_app. f_equal.
      assert (Hsnoc : sum_lengths (pre ++ [s]) = sum_lengths pre + Strip.length s)
        by (rewrite sum_lengths_app; unfold sum_lengths; cbn; lia).
      assert (Hcons : sum_lengths (s :: tl) = Strip.length s + sum_lengths tl)
        by reflexivity.
      rewrite Hsnoc, Hcons, !Z2Nat.inj_add by lia.
      now rewrite seq_app.
Qed.

(** X13. [neoPixelClearAll] on a board that holds a Firmata object and
    has one strip per pin: a black set-pixel message is enqueued for every
    LED of every strip, one for each address from 0 up to the total number
    of LEDs, in ascending order, and the show command comes last. *)
Theorem neoPixelClearAll_blacks_out (w : World) (fid : nat) (f : Firmata) :
  firmata (board w) = Some fid ->
  heap w !! fid = Some f ->
  unique_pins (neoPixel (board w)) ->
  (forall s, In s (neoPixel (board w)) -> 0 < Strip.length s < 2 ^ 32) ->
  exists w',
    neoPixelClearAll w = (Ok tt, w')
    /\ neoPixelThrottledQueue (board w')
       = neoPixelThrottledQueue (board w)
         ++ black_frames 0 (Z.to_nat (sum_lengths (neoPixel (board w))))
         ++ [[PIXEL_COMMAND; PIXEL_SHOW]].
Proof.
  intros _ _ Huniq Hlen.
  destruct (clear_loop (neoPixel (board w)) [] w Huniq eq_refl Huniq Hlen)
    as (w' & Hloop & Hq).
  unfold neoPixelClearAll. mstep. erewrite bind_ok; [|exact Hloop].
  eexists. split; [reflexivity|]. cbn. rewrite Hq, <- app_assoc. reflexivity.
Qed.

End ClearAll.

Lemma neoPixelClearAll_blacks_out_witness :
  exists w',
    @neoPixelClearAll node_pixel two_strips_world = (Ok tt, w')
    /\ List.length (neoPixelThrottledQueue (board w'))
       = (List.length (neoPixelThrottledQueue (board two_strips_world)) + 8)%nat.
Proof.
  destruct (@neoPixelClearAll_blacks_out node_pixel two_strips_world 0
              two_strips_firmata eq_refl eq_refl)
    as (w' & Hrun & Hq).
  - cbn. repeat split; intros s Hs; cbn in Hs;
      repeat (destruct Hs as [<- | Hs]; [reflexivity|]); destruct Hs.
  - intros s Hs. cbn in Hs.
    repeat (destruct Hs as [<- | Hs]; [cbn; lia|]). destruct Hs.
  - exists w'. split; [exact Hrun|]. rewrite Hq, !length_app. vm_compute. reflexivity.
Defined.

(** ** The configuration message *)

Lemma toInt32_mod32 (z : Z) : JS.toInt32 z mod 32 = z mod 32.
Proof.
  rewrite toInt32_eq. set (q := - ((z + 2 ^ 31) / 2 ^ 32)).
  replace (z + 2 ^ 32 * q) with (z + (2 ^ 27 * q) * 32) by lia.
  apply Z_mod_plus_full.
Qed.

Lemma land_31 (x : Z) : Z.land x 31 = x mod 32.
Proof. change 31 with (Z.ones 5). rewrite Z.land_ones by lia. reflexivity. Qed.

Lemma and_mask7 (a : Z) : JS.and a FIRMATA_7BIT_MASK = a mod 128.
Proof. unfold JS.and. now rewrite land_mask7, toInt32_mod128. Qed.

Lemma shr7_and_mask7 (a : Z) : JS.and (JS.shr a 7) FIRMATA_7BIT_MASK = (a / 128) mod 128.
Proof.
  rewrite and_mask7. unfold JS.shr. change (7 mod 32) with 7.
  rewrite Z.shiftr_div_pow2 by lia. change (2 ^ 7) with 128.
  apply toInt32_div128_mod128.
Qed.

Section ConfigMessage.
Context `{NodePixelConstants}.

Lemma pin_byte_low5 (pin : Z) :
  0 <= pin < 32 -> JS.or (JS.shl COLOR_ORDER_GRB 5) pin mod 32 = pin.
Proof.
  intros Hpin. rewrite <- land_31. unfold JS.or. rewrite Z.land_lor_distr_l, !land_31.
  rewrite !toInt32_mod32. unfold JS.shl. rewrite toInt32_mod32.
  change (5 mod 32) with 5. rewrite Z.shiftl_mul_pow2 by lia.
  change (2 ^ 5) with 32. rewrite Z.mod_mul by lia.
  rewrite (Z.mod_small pin 32) by lia. reflexivity.
Qed.

Lemma config_triples (strips : list Strip.t) :
  forall (k : nat) (s : Strip.t),
    strips !! k = Some s ->
    let triples :=
      flat_map
        (fun aStrip =>
           [JS.or (JS.shl COLOR_ORDER_GRB 5) (Strip.pin aStrip);
            JS.and (Strip.length aStrip) FIRMATA_7BIT_MASK;
            JS.and (JS.shr (Strip.length aStrip) 7) FIRMATA_7BIT_MASK])
        strips in
    nth (3 * k) triples 0 = JS.or (JS.shl COLOR_ORDER_GRB 5) (Strip.pin s)
    /\ nth (3 * k + 1) triples 0 = JS.and (Strip.length s) FIRMATA_7BIT_MASK
    /\ nth (3 * k + 2) triples 0
       = JS.and (JS.shr (Strip.length s) 7) FIRMATA_7BIT_MASK.
Proof.
  induction strips as [|x tl IH]; intros k s Hk; [discriminate|].
  destruct k as [|k].
  - injection Hk as ->. cbn. auto.
  - cbn in Hk. specialize (IH k s Hk). cbv zeta in IH |- *.
    cbn [flat_map app].
    replace (3 * S k)%nat with (S (S (S (3 * k)))) by lia.
    cbn [nth Nat.add]. exact IH.
Qed.

Lemma config_triples_length (strips : list Strip.t) :
  List.length
    (flat_map
       (fun aStrip =>
          [JS.or (JS.shl COLOR_ORDER_GRB 5) (Strip.pin aStrip);
           JS.and (Strip.length aStrip) FIRMATA_7BIT_MASK;
           JS.and (JS.shr (Strip.length aStrip) 7) FIRMATA_7BIT_MASK])
       strips)
  = (3 * List.length strips)%nat.
Proof.
  induction strips as [|x tl IH]; [reflexivity|].
  cbn [flat_map app List.length]. rewrite IH. lia.
Qed.

(** X14. The configuration message has two bytes of command and then three
    bytes for each strip of the registry, in registry order: the pin in the
    low five bits of the first, when it fits there, and the length in the
    two 7-bit bytes that follow, low byte first.  A length of 16384 or more
    is sent modulo 16384. *)
Theorem config_message_carries (strips : list Strip.t) (k : nat) (s : Strip.t) :
  strips !! k = Some s ->
  let message := config_message strips in
  List.length message = (2 + 3 * List.length strips)%nat
  /\ nth (3 * k + 3) message 0 + 128 * nth (3 * k + 4) message 0
     = Strip.length s mod 2 ^ 14
  /\ (0 <= Strip.pin s < 32 -> nth (3 * k + 2) message 0 mod 32 = Strip.pin s).
Proof.
  intros Hk message.
  destruct (config_triples strips k s Hk) as (Hpin & Hlow & Hhigh).
  unfold message, config_message. split; [|split].
  - cbn [app List.length]. now rewrite config_triples_length.
  - replace (3 * k + 3)%nat with (S (S (3 * k + 1))) by lia.
    replace (3 * k + 4)%nat with (S (S (3 * k + 2))) by lia.
    cbn [app nth]. rewrite Hlow, Hhigh, and_mask7, shr7_and_mask7.
    apply low14_split.
  - intros Hrange. replace (3 * k + 2)%nat with (S (S (3 * k))) by lia.
    cbn [app nth]. rewrite Hpin. now apply pin_byte_low5.
Qed.

End ConfigMessage.

Lemma config_message_carries_witness :
  let message :=
    @config_message node_pixel
      [{| Strip.pin := 3; Strip.length := 20000; Strip.colors := None |}] in
  nth 3 message 0 + 128 * nth 4 message 0 = 20000 mod 2 ^ 14.
Proof.
  exact (proj1 (proj2 (@config_message_carries node_pixel
                         [{| Strip.pin := 3; Strip.length := 20000; Strip.colors := None |}]
                         0 {| Strip.pin := 3; Strip.length := 20000; Strip.colors := None |}
                         eq_refl))).
Defined.

(** ** Teardown, once *)

(** Whatever the board held, [releaseBoard] leaves it disconnected. *)
Lemma releaseBoard_state (w : World) :
  state (board (snd (releaseBoard w))) = "disconnect"%string.
Proof.
  unfold releaseBoard. do 4 mstep.
  destruct (firmata (board w)) as [fid|]; cbn.
  - destruct (heap w !! fid) as [f|] eqn:Hf.
    + mstep. mstep.
      destruct (transport f); repeat mstep;
        destruct (board_transport (board w)); repeat mstep; reflexivity.
    + rewrite bind_assoc.
      erewrite (bind_throw (firmata_get fid)); cycle 1.
      { unfold firmata_get. cbn. rewrite Hf. reflexivity. }
      reflexivity.
  - repeat mstep. destruct (board_transport (board w)); repeat mstep; reflexivity.
Qed.

Lemma disconnect_when_disconnected (w : World) :
  state (board w) = "disconnect"%string ->
  disconnect w = (Ok tt, w) /\ handleDisconnectError w = (Ok tt, w).
Proof.
  intros Hst. unfold handleDisconnectError, disconnect.
  rewrite !bind_gets, Hst. split; reflexivity.
Qed.

(** X15. After [releaseBoard] the board is neither connected nor ready, and
    [disconnect] and [handleDisconnectError] return at once: nothing is
    sent, no event is emitted a second time.  The same holds for a board
    that was never connected. *)
Theorem teardown_happens_once (w : World) :
  let w' := snd (releaseBoard w) in
  isConnected (board w') = false
  /\ isReady (board w') = false
  /\ disconnect w' = (Ok tt, w')
  /\ handleDisconnectError w' = (Ok tt, w')
  /\ disconnect disconnected_world = (Ok tt, disconnected_world)
  /\ handleDisconnectError disconnected_world = (Ok tt, disconnected_world).
Proof.
  intros w'. pose proof (releaseBoard_state w) as Hst. fold w' in Hst.
  unfold isConnected, isReady. rewrite Hst.
  destruct (disconnect_when_disconnected w' Hst) as [Hd Hh].
  repeat split; assumption || reflexivity.
Qed.

(** X16. [handleDisconnectError] on a board that is not disconnected: the
    connection-lost event goes out first and carries the extension id the
    board still has; the board is reset if the transport is open, the
    transport is closed, every listener is removed; the board ends
    disconnected, without Firmata object and without extension id. *)
Theorem handleDisconnectError_tears_down
  (w : World) (fid : nat) (f : Firmata) (t : Transport) :
  state (board w) <> "disconnect"%string ->
  firmata (board w) = Some fid ->
  heap w !! fid = Some f ->
  transport f = Some t ->
  exists w',
    handleDisconnectError w = (Ok tt, w')
    /\ emitted (board w')
       = emitted (board w)
         ++ [runtime_connection_lost (extensionId (board w));
             board_event "disconnect"; board_event "RELEASED"]
    /\ (calls <$> heap w' !! fid)
       = Some (calls f ++ (if isOpen t then [call_reset] else [])
                 ++ [call_transport_close])
    /\ (listeners <$> heap w' !! fid) = Some []
    /\ state (board w') = "disconnect"%string
    /\ firmata (board w') = None
    /\ extensionId (board w') = None
    /\ neoPixel (board w') = []
    /\ oneWireDevices (board w') = None.
Proof.
  intros Hst Hfid Hf Ht. apply String.eqb_neq in Hst.
  unfold handleDisconnectError. mstep. rewrite Hst. do 2 mstep.
  unfold disconnect. mstep. rewrite Hst. mstep. mstep. rewrite Hfid. do 2 mstep.
  rewrite Ht. unfold releaseBoard.
  destruct (isOpen t); repeat mstep; rewrite ?Hfid; repeat mstep; rewrite ?Ht;
    repeat mstep;
    destruct (board_transport (board w)) eqn:Hbt; repeat mstep;
    (eexists; split; [reflexivity|]; cbn;
     rewrite <- ?app_assoc, ?list_insert_insert_eq, (heap_insert_lookup _ _ f _ Hf), ?Hbt;
     cbn; rewrite <- ?app_assoc; repeat split; reflexivity).
Qed.

Lemma handleDisconnectError_tears_down_witness :
  exists w',
    handleDisconnectError used_world = (Ok tt, w')
    /\ emitted (board w')
       = [runtime_connection_lost None; board_event "disconnect"; board_event "RELEASED"]
    /\ (calls <$> heap w' !! 0%nat) = Some [call_reset; call_transport_close].
Proof.
  destruct (handleDisconnectError_tears_down used_world 0 fresh_firmata {| isOpen := true |})
    as (w' & Hrun & Hemitted & Hcalls & _).
  - discriminate.
  - reflexivity.
  - reflexivity.
  - reflexivity.
  - exists w'. split; [exact Hrun|]. split; [exact Hemitted | exact Hcalls].
Defined.

(** ** The pin table: what is written is what is read *)

Lemma getDigitalValue_run (w : World) (fid : nat) (f : Firmata) (pin : Z) :
  firmata (board w) = Some fid -> heap w !! fid = Some f ->
  getDigitalValue pin w
  = (match pin_at (pins f) pin with
     | Some p => Ok (Pin.value p)
     | None => Throw TypeError
     end, w).
Proof.
  intros Hfid Hf. unfold getDigitalValue. mstep.
  destruct (pin_at (pins f) pin) as [p|] eqn:Hp.
  - now mstep.
  - erewrite bind_throw; [reflexivity|].
    unfold firmata_pin. mstep. now rewrite Hp.
Qed.

(** X17. After [digitalWrite] of a value to a pin of the pin table,
    [getDigitalValue] of that pin is that value and a second [digitalWrite]
    of the same value changes nothing and sends nothing; the level of every
    other pin is as before. *)
Theorem digitalWrite_then_read
  (w : World) (fid : nat) (f : Firmata) (pin value : Z) (enqueue : bool) (p : Pin.t) :
  firmata (board w) = Some fid ->
  heap w !! fid = Some f ->
  pin_at (pins f) pin = Some p ->
  exists w',
    digitalWrite pin value enqueue w = (Ok tt, w')
    /\ getDigitalValue pin w' = (Ok value, w')
    /\ (forall again, digitalWrite pin value again w' = (Ok tt, w'))
    /\ (forall other, other <> pin ->
          fst (getDigitalValue other w') = fst (getDigitalValue other w)).
Proof.
  intros Hfid Hf Hp.
  assert (Hcached : forall (w0 : World) (f0 : Firmata) (p0 : Pin.t) (e : bool),
             firmata (board w0) = Some fid -> heap w0 !! fid = Some f0 ->
             pin_at (pins f0) pin = Some p0 -> Pin.value p0 = value ->
             digitalWrite pin value e w0 = (Ok tt, w0)).
  { intros w0 f0 p0 e H1 H2 H3 H4. unfold digitalWrite. do 2 mstep.
    apply Z.eqb_eq in H4. now rewrite H4. }
  destruct (Z.eq_dec (Pin.value p) value) as [Hv | Hv].
  - exists w. split; [now apply (Hcached w f p)|].
    split; [rewrite (getDigitalValue_run w fid f) by assumption; rewrite Hp; now subst|].
    split; [intros again; now apply (Hcached w f p) | reflexivity].
  - set (f' := written_firmata f pin value enqueue).
    set (w' := World_set_heap w (<[fid := f']> (heap w))).
    assert (Hf' : heap w' !! fid = Some f') by (cbn; now apply (heap_insert_lookup _ _ f)).
    assert (Hp' : pin_at (pins f') pin = Some (written_pin f value))
      by (cbn; now apply (pin_at_update_eq _ _ p)).
    exists w'. split.
    { unfold digitalWrite. do 2 mstep.
      apply Z.eqb_neq in Hv. rewrite Hv. do 2 mstep.
      erewrite firmata_do_ok; [|heap_lookup|eapply Firmata_digitalWrite_ok; pin_lookup].
      cbn. rewrite list_insert_insert_eq. unfold w', f', written_firmata, Firmata_log. cbn.
      rewrite pin_update_update, <- app_assoc. reflexivity. }
    split; [rewrite (getDigitalValue_run w' fid f') by assumption; now rewrite Hp'|].
    split; [intros again; now apply (Hcached w' f' (written_pin f value))|].
    intros other Hother.
    rewrite (getDigitalValue_run w' fid f'), (getDigitalValue_run w fid f) by assumption.
    cbn [fst pins f' written_firmata]. now rewrite pin_at_update_ne by congruence.
Qed.

Lemma digitalWrite_then_read_witness :
  exists w',
    digitalWrite 13 1 false ready_world = (Ok tt, w')
    /\ getDigitalValue 13 w' = (Ok 1, w').
Proof.
  destruct (digitalWrite_then_read ready_world 0 fresh_firmata 13 1 false
              {| Pin.mode := 0; Pin.value := 0 |} eq_refl eq_refl eq_refl)
    as (w' & Hwrite & Hread & _).
  exists w'. split; [exact Hwrite | exact Hread].
Defined.

(** X18. A pin outside the pin table: the methods that read the table at once
    throw a [TypeError]; those that read it inside a promise reject with
    it.  In both cases nothing is sent and nothing changes. *)
Theorem pin_outside_table_is_TypeError
  (w : World) (fid : nat) (f : Firmata) (pin : Z) :
  firmata (board w) = Some fid ->
  heap w !! fid = Some f ->
  pin_at (pins f) pin = None ->
  getDigitalValue pin w = (Throw TypeError, w)
  /\ (forall value enqueue, digitalWrite pin value enqueue w = (Throw TypeError, w))
  /\ (forall reply,
        searchOneWireDevices pin reply w = (Ok (Rejected (thrown TypeError)), w))
  /\ (forall data reply,
        oneWireWrite pin data reply w = (Ok (Rejected (thrown TypeError)), w))
  /\ (forall length timeout reply answer,
        oneWireRead pin length timeout reply answer w
        = (Ok (Rejected (thrown TypeError)), w))
  /\ (forall data length timeout reply answer,
        oneWireWriteAndRead pin data length timeout reply answer w
        = (Ok (Rejected (thrown TypeError)), w)).
Proof.
  intros Hfid Hf Hp.
  assert (Hpin : firmata_pin fid pin w = (Throw TypeError, w))
    by (unfold firmata_pin; mstep; now rewrite Hp).
  assert (Hsearch : forall reply,
             searchOneWireDevices pin reply w = (Ok (Rejected (thrown TypeError)), w)).
  { intros reply. unfold searchOneWireDevices. apply in_promise_throw.
    mstep. erewrite bind_throw; [reflexivity | exact Hpin]. }
  split; [rewrite (getDigitalValue_run w fid f) by assumption; now rewrite Hp|].
  split.
  { intros value enqueue. unfold digitalWrite. mstep.
    erewrite bind_throw; [reflexivity | exact Hpin]. }
  split; [exact Hsearch|].
  split.
  { intros data reply. unfold oneWireWrite.
    erewrite bind_ok; [|apply Hsearch]. reflexivity. }
  split.
  - intros length timeout reply answer. unfold oneWireRead. mstep.
    erewrite bind_ok; [|apply Hsearch]. cbn. mstep. reflexivity.
  - intros data length timeout reply answer. unfold oneWireWriteAndRead. mstep.
    erewrite bind_ok; [|apply Hsearch]. cbn. mstep. reflexivity.
Qed.

Lemma pin_outside_table_is_TypeError_witness :
  getDigitalValue 20 ready_world = (Throw TypeError, ready_world)
  /\ digitalWrite (-1) 1 false ready_world = (Throw TypeError, ready_world).
Proof.
  split.
  - exact (proj1 (pin_outside_table_is_TypeError ready_world 0 fresh_firmata 20
                    eq_refl eq_refl eq_refl)).
  - exact (proj1 (proj2 (pin_outside_table_is_TypeError ready_world 0 fresh_firmata (-1)
                           eq_refl eq_refl eq_refl)) 1 false).
Defined.

(** ** OneWire reads and writes *)

Lemma in_promise_total {A} (m : M (Settled A)) (w : World) :
  exists s w',
    in_promise m w = (Ok s, w')
    /\ (m w = (Ok s, w') \/ exists e, m w = (Throw e, w') /\ s = Rejected (thrown e)).
Proof.
  unfold in_promise. destruct (m w) as [[s|e] w']; do 2 eexists; eauto.
Qed.

(** The promise raced against the timer in [oneWireRead] and
    [oneWireWriteAndRead]: when it resolves, it resolves with the data the
    board sent. *)
Lemma read_request_settles
  (found : Settled (option (list Device))) (send : option Device -> Call)
  (answer : ReadReply) (w : World) :
  exists request w',
    match found with
    | Resolved devices =>
        in_promise
          (let* d := first_device devices in
           let* fid := this_firmata in
           firmata_do fid (Firmata_send (send d)) >>
           ret (read_outcome answer))
    | Rejected r => ret (Rejected r)
    | Pending => ret Pending
    end w = (Ok request, w')
    /\ forall data, request = Resolved data -> answer = read_data data.
Proof.
  destruct found as [|devices|r]; try (do 2 eexists; split; [reflexivity | discriminate]).
  match goal with
  | |- context [in_promise ?m w] =>
      destruct (in_promise_total m w) as (s & w' & Hrun & Hcase)
  end.
  exists s, w'. split; [exact Hrun|].
  destruct Hcase as [Hok | (e & _ & ->)]; [|discriminate].
  apply bind_inv_ok in Hok as (d & w1 & _ & Hok).
  apply bind_inv_ok in Hok as (fid & w2 & _ & Hok).
  apply bind_inv_ok in Hok as ([] & w3 & _ & Hok).
  injection Hok as <- _. destruct answer; cbn; congruence.
Qed.

Lemma race_timeout_settles {A} (request : Settled A) (timeout : Z) :
  race_timeout request timeout <> Pending
  /\ forall data, race_timeout request timeout = Resolved data -> request = Resolved data.
Proof. destruct request; cbn; split; congruence. Qed.

(** X19. [oneWireRead] and [oneWireWriteAndRead] never throw and never return a
    promise that stays pending, whatever the state of the board and whether
    or not the board answers; and when the promise resolves, it resolves
    with the data the board sent for the read. *)
Theorem oneWireRead_always_settles
  (w : World) (pin length : Z) (data : list Z) (timeout : option Z)
  (reply : SearchReply) (answer : ReadReply) :
  (exists s w',
     oneWireRead pin length timeout reply answer w = (Ok s, w')
     /\ s <> Pending
     /\ forall d, s = Resolved d -> answer = read_data d)
  /\ (exists s w',
        oneWireWriteAndRead pin data length timeout reply answer w = (Ok s, w')
        /\ s <> Pending
        /\ forall d, s = Resolved d -> answer = read_data d).
Proof.
  destruct (in_promise_total
              (let* fid := this_firmata in
               let* p := firmata_pin fid pin in
               let* f := firmata_get fid in
               if negb (Pin.mode p =? ONEWIRE (MODES f)) then
                 firmata_do fid (Firmata_send (call_sendOneWireConfig pin true)) >>
                 firmata_do fid (Firmata_send (call_sendOneWireSearch pin)) >>
                 match reply with
                 | no_search_reply => ret Pending
                 | search_error e => ret (Rejected (device_error e))
                 | search_found founds =>
                     if (List.length founds <? 1)%nat then ret (Rejected no_device)
                     else
                       firmata_do fid (Firmata_pinMode pin (ONEWIRE (MODES f))) >>
                       modify (fun b => Board_set_oneWireDevices b (Some founds)) >>
                       firmata_do fid (Firmata_send (call_sendOneWireDelay pin 1)) >>
                       let* ds := gets oneWireDevices in
                       ret (Resolved ds)
                 end
               else
                 let* ds := gets oneWireDevices in
                 ret (Resolved ds)) w)
    as (found & w1 & Hsearch & _).
  fold (searchOneWireDevices pin reply) in Hsearch.
  split.
  - destruct (read_request_settles found
                (fun d => call_sendOneWireRead pin d length) answer w1)
      as (request & w2 & Hrequest & Hdata).
    unfold oneWireRead. mstep. erewrite bind_ok; [|exact Hsearch].
    erewrite bind_ok; [|exact Hrequest].
    do 2 eexists. split; [reflexivity|].
    match goal with
    | |- context [race_timeout request ?t] =>
        destruct (race_timeout_settles request t) as [Hpending Hresolved]
    end.
    split; [exact Hpending|]. intros d Hd. apply Hdata, Hresolved, Hd.
  - destruct (read_request_settles found
                (fun d => call_sendOneWireWriteAndRead pin d data length) answer w1)
      as (request & w2 & Hrequest & Hdata).
    unfold oneWireWriteAndRead. mstep. erewrite bind_ok; [|exact Hsearch].
    erewrite bind_ok; [|exact Hrequest].
    do 2 eexists. split; [reflexivity|].
    match goal with
    | |- context [race_timeout request ?t] =>
        destruct (race_timeout_settles request t) as [Hpending Hresolved]
    end.
    split; [exact Hpending|]. intros d Hd. apply Hdata, Hresolved, Hd.
Qed.

Lemma oneWireRead_always_settles_witness :
  exists s w',
    oneWireRead 5 9 None no_search_reply no_read_reply ready_world = (Ok s, w')
    /\ s <> Pending.
Proof.
  destruct (proj1 (oneWireRead_always_settles ready_world 5 9 [] None no_search_reply
                     no_read_reply))
    as (s & w' & Hrun & Hs & _).
  exists s, w'. split; [exact Hrun | exact Hs].
Defined.

(** X20. [oneWireWrite] on a pin that is not yet in one-wire mode sends
    the write only after a search that found a device: the bus
    configuration, the search, the pin mode and the delay go first, and the
    write is addressed to the first device found.  When the callback of the
    search is called with an error, or with no device, the promise rejects
    with that and no write is sent. *)
Theorem oneWireWrite_follows_search
  (w : World) (fid : nat) (f : Firmata) (pin : Z) (data : list Z) (p : Pin.t) :
  firmata (board w) = Some fid ->
  heap w !! fid = Some f ->
  pin_at (pins f) pin = Some p ->
  Pin.mode p <> ONEWIRE (MODES f) ->
  (forall d ds, exists w',
      oneWireWrite pin data (search_found (d :: ds)) w = (Ok (Resolved tt), w')
      /\ calls_of w'
         = calls f ++ [call_sendOneWireConfig pin true;
                       call_sendOneWireSearch pin;
                       call_pinMode pin (ONEWIRE (MODES f));
                       call_sendOneWireDelay pin 1;
                       call_sendOneWireWrite pin (Some d) data])
  /\ (forall e, exists w',
        oneWireWrite pin data (search_error e) w = (Ok (Rejected (device_error e)), w')
        /\ calls_of w'
           = calls f ++ [call_sendOneWireConfig pin true; call_sendOneWireSearch pin])
  /\ (exists w',
        oneWireWrite pin data (search_found []) w = (Ok (Rejected no_device), w')
        /\ calls_of w'
           = calls f ++ [call_sendOneWireConfig pin true; call_sendOneWireSearch pin]).
Proof.
  intros Hfid Hf Hp Hm.
  assert (Hfailed : forall reply reason,
             match reply with
             | search_error e => reason = device_error e
             | search_found [] => reason = no_device
             | _ => False
             end ->
             exists w',
               oneWireWrite pin data reply w = (Ok (Rejected reason), w')
               /\ calls_of w'
                  = calls f ++ [call_sendOneWireConfig pin true;
                                call_sendOneWireSearch pin]).
  { intros reply reason Hreply.
    assert (Hsearch : searchOneWireDevices pin reply w
                      = (Ok (Rejected reason),
                         World_set_heap w (<[fid := searched_firmata f pin]> (heap w)))).
    { apply Z.eqb_neq in Hm. unfold searchOneWireDevices. apply in_promise_ok.
      do 3 mstep. rewrite Hm. cbn. do 2 mstep. rewrite list_insert_insert_eq.
      destruct reply as [|e|[|d ds]]; try contradiction; subst reason; reflexivity. }
    eexists. split.
    - unfold oneWireWrite. erewrite bind_ok; [|exact Hsearch]. reflexivity.
    - unfold calls_of. cbn. rewrite Hfid, (heap_insert_lookup _ _ f _ Hf). cbn.
      now rewrite <- app_assoc. }
  split; [|split].
  - intros d ds.
    set (w0 := found_world w fid f pin p (d :: ds)).
    set (f0 := found_firmata f pin p).
    assert (Hf0 : heap w0 !! fid = Some f0)
      by (cbn; now apply (heap_insert_lookup _ _ f)).
    eexists. split.
    + unfold oneWireWrite.
      erewrite bind_ok; [|now apply (searchOneWireDevices_found w fid f pin p)].
      apply in_promise_ok. fold w0. cbn [first_device head]. mstep.
      erewrite (bind_ok this_firmata); [|apply this_firmata_ok; exact Hfid].
      erewrite bind_ok; [reflexivity|].
      now apply (firmata_do_ok w0 fid f0).
    + unfold calls_of. cbn. rewrite Hfid, list_insert_insert_eq.
      rewrite (heap_insert_lookup _ _ f _ Hf). cbn. now rewrite <- !app_assoc.
  - intros e. now apply Hfailed.
  - now apply Hfailed.
Qed.

Lemma oneWireWrite_follows_search_witness :
  exists w',
    oneWireWrite 5 [68] (search_found [device_A]) ready_world = (Ok (Resolved tt), w')
    /\ last (calls_of w') = Some (call_sendOneWireWrite 5 (Some device_A) [68]).
Proof.
  destruct (proj1 (oneWireWrite_follows_search ready_world 0 fresh_firmata 5 [68]
                     {| Pin.mode := 0; Pin.value := 0 |}
                     eq_refl eq_refl eq_refl ltac:(discriminate)) device_A [])
    as (w' & Hrun & Hcalls).
  exists w'. split; [exact Hrun|]. rewrite Hcalls. reflexivity.
Defined.

(** X21. The first [oneWireRead] on a pin configures the bus, searches it, puts
    the pin in one-wire mode, sends the delay and then the read, addressed
    to the first device found.  The next [oneWireRead] on that pin sends the
    read alone, to the same device, whatever a search would answer. *)
Theorem oneWireRead_searches_once
  (w : World) (fid : nat) (f : Firmata) (pin length : Z) (timeout : option Z)
  (p : Pin.t) (d : Device) (ds : list Device)
  (answer answer' : ReadReply) (reply' : SearchReply) :
  firmata (board w) = Some fid ->
  heap w !! fid = Some f ->
  pin_at (pins f) pin = Some p ->
  Pin.mode p <> ONEWIRE (MODES f) ->
  let limit := timeout_or timeout (oneWireReadWaitingTime (settings (board w))) in
  exists w1 w2,
    oneWireRead pin length timeout (search_found (d :: ds)) answer w
    = (Ok (race_timeout (read_outcome answer) limit), w1)
    /\ calls_of w1
       = calls f ++ [call_sendOneWireConfig pin true;
                     call_sendOneWireSearch pin;
                     call_pinMode pin (ONEWIRE (MODES f));
                     call_sendOneWireDelay pin 1;
                     call_sendOneWireRead pin (Some d) length]
    /\ oneWireRead pin length timeout reply' answer' w1
       = (Ok (race_timeout (read_outcome answer') limit), w2)
    /\ calls_of w2 = calls_of w1 ++ [call_sendOneWireRead pin (Some d) length].
Proof.
  intros Hfid Hf Hp Hm limit.
  set (w0 := found_world w fid f pin p (d :: ds)).
  set (f0 := found_firmata f pin p).
  assert (Hf0 : heap w0 !! fid = Some f0) by (cbn; now apply (heap_insert_lookup _ _ f)).
  set (f1 := Firmata_log f0 (call_sendOneWireRead pin (Some d) length)).
  set (w1 := World_set_heap w0 (<[fid := f1]> (heap w0))).
  assert (Hf1 : heap w1 !! fid = Some f1) by (cbn; now apply (heap_insert_lookup _ _ f0)).
  assert (Hp1 : pin_at (pins f1) pin = Some (Pin.set_mode p (ONEWIRE (MODES f))))
    by (cbn; now apply (pin_at_update_eq _ _ p)).
  set (f2 := Firmata_log f1 (call_sendOneWireRead pin (Some d) length)).
  set (w2 := World_set_heap w1 (<[fid := f2]> (heap w1))).
  assert (Hf2 : heap w2 !! fid = Some f2) by (cbn; now apply (heap_insert_lookup _ _ f1)).
  exists w1, w2. split; [|split; [|split]].
  - unfold oneWireRead. mstep.
    erewrite bind_ok; [|now apply (searchOneWireDevices_found w fid f pin p)].
    erewrite bind_ok; [reflexivity|].
    apply in_promise_ok. fold w0. cbn [first_device head]. mstep.
    erewrite (bind_ok this_firmata); [|apply this_firmata_ok; exact Hfid].
    erewrite bind_ok; [reflexivity|].
    now apply (firmata_do_ok w0 fid f0).
  - unfold calls_of. cbn [w1 w0 World_set_heap found_world board firmata
                            Board_set_oneWireDevices].
    rewrite Hfid. fold w0. change (heap (World_set_heap w0 (<[fid:=f1]> (heap w0))))
      with (heap w1). rewrite Hf1. cbn. now rewrite <- !app_assoc.
  - unfold oneWireRead. mstep.
    erewrite bind_ok;
      [|now apply (searchOneWireDevices_cached w1 fid f1 pin
                     (Pin.set_mode p (ONEWIRE (MODES f))))].
    erewrite bind_ok; [reflexivity|].
    apply in_promise_ok. cbn [w1 w0 World_set_heap found_world board oneWireDevices
                                 Board_set_oneWireDevices first_device head].
    mstep. fold w0. fold w1.
    erewrite (bind_ok this_firmata); [|apply this_firmata_ok; exact Hfid].
    erewrite bind_ok; [reflexivity|].
    now apply (firmata_do_ok w1 fid f1).
  - unfold calls_of. cbn [w2 w1 w0 World_set_heap found_world board firmata
                             Board_set_oneWireDevices].
    rewrite Hfid. fold w0. fold w1.
    change (heap (World_set_heap w1 (<[fid:=f2]> (heap w1)))) with (heap w2).
    change (heap (World_set_heap w0 (<[fid:=f1]> (heap w0)))) with (heap w1).
    rewrite Hf1, Hf2. reflexivity.
Qed.

Lemma oneWireRead_searches_once_witness :
  exists w1 w2,
    oneWireRead 5 9 None (search_found [device_A]) (read_data [1; 2]) ready_world
    = (Ok (Resolved [1; 2]), w1)
    /\ oneWireRead 5 9 None no_search_reply no_read_reply w1
       = (Ok (Rejected (timeout_reason 100)), w2)
    /\ calls_of w2 = calls_of w1 ++ [call_sendOneWireRead 5 (Some device_A) 9].
Proof.
  destruct (oneWireRead_searches_once ready_world 0 fresh_firmata 5 9 None
              {| Pin.mode := 0; Pin.value := 0 |} device_A [] (read_data [1; 2])
              no_read_reply no_search_reply eq_refl eq_refl eq_refl ltac:(discriminate))
    as (w1 & w2 & Hfirst & _ & Hsecond & Hcalls).
  exists w1, w2. split; [exact Hfirst|]. split; [exact Hsecond | exact Hcalls].
Defined.

(** ** A query that is answered *)

(** *** A promise that has settled keeps its outcome *)

Lemma race_settle_keeps (w : World) (id id' : nat) (s s' : Settled Value) :
  result_of w id = Some s -> s <> Pending ->
  result_of (race_settle id' s' w) id = Some s.
Proof.
  intros Hres Hs. unfold race_settle.
  destruct (requests w !! id') as [r'|] eqn:Hr'; [|exact Hres].
  destruct (Nat.eq_dec id' id) as [-> | Hne].
  - assert (Hr : req_result r' = s)
      by (unfold result_of in Hres; rewrite Hr' in Hres; now injection Hres).
    rewrite Hr. destruct s; [congruence | exact Hres | exact Hres].
  - destruct (req_result r'), s'; try exact Hres;
      unfold result_of; now rewrite ?update_request_other.
Qed.

Lemma set_request_result (w : World) (id id' : nat) (s : Settled Value) :
  result_of (update_request id' (fun r => Request_set_request r s) w) id = result_of w id.
Proof.
  unfold result_of. cbn. destruct (Nat.eq_dec id' id) as [-> | Hne].
  - rewrite list_lookup_alter_eq. now destruct (requests w !! id).
  - now rewrite list_lookup_alter_ne.
Qed.

Lemma settle_request_keeps (w : World) (id id' : nat) (s s' : Settled Value) :
  result_of w id = Some s -> s <> Pending ->
  result_of (settle_request id' s' w) id = Some s.
Proof.
  intros Hres Hs. unfold settle_request.
  destruct (requests w !! id') as [r'|]; [|exact Hres].
  destruct (req_request r'); try exact Hres.
  apply race_settle_keeps; [|exact Hs]. now rewrite set_request_result.
Qed.

Lemma run_listener_keeps (w : World) (id : nat) (s : Settled Value)
  (data : list Z) (l : Listener) :
  result_of w id = Some s -> s <> Pending ->
  result_of (run_listener data w l) id = Some s.
Proof.
  intros Hres Hs. destruct l as [id'|id']; cbn [run_listener].
  - now apply settle_request_keeps.
  - destruct data; now apply settle_request_keeps.
Qed.

Lemma run_task_keeps (w : World) (id : nat) (s : Settled Value) (t : Task) :
  result_of w id = Some s -> s <> Pending -> result_of (run_task w t) id = Some s.
Proof.
  intros Hres Hs. destruct t as [id'|fid ev data]; cbn [run_task].
  - destruct (requests w !! id'); [now apply race_settle_keeps | exact Hres].
  - destruct (heap w !! fid) as [f|]; [|exact Hres].
    assert (Hstart : result_of
                       (update_firmata fid (Firmata_removeAllListeners (Some ev)) w) id
                     = Some s) by exact Hres.
    revert Hstart.
    generalize (update_firmata fid (Firmata_removeAllListeners (Some ev)) w).
    induction (List.filter (listens_to ev) (listeners f)) as [|entry tl IH];
      intros w0 Hw0; [exact Hw0|].
    cbn. apply IH. now apply run_listener_keeps.
Qed.

Lemma run_tasks_keeps (w : World) (id : nat) (s : Settled Value) (ts : list Task) :
  result_of w id = Some s -> s <> Pending -> result_of (run_tasks w ts) id = Some s.
Proof.
  revert w. induction ts as [|t tl IH]; intros w Hres Hs; [exact Hres|].
  cbn. apply IH; [now apply run_task_keeps | exact Hs].
Qed.

(** *** The listener settles a waiting request *)

Lemma settle_request_waiting (w : World) (id : nat) (r : Request) (s : Settled Value) :
  requests w !! id = Some r -> req_request r = Pending -> req_result r = Pending ->
  s <> Pending ->
  result_of (settle_request id s w) id = Some s
  /\ board (settle_request id s w) = board w.
Proof.
  intros Hr Hrequest Hresult Hs. unfold settle_request. rewrite Hr, Hrequest.
  unfold race_settle. cbn [update_request requests World_set_requests].
  rewrite list_lookup_alter_eq, Hr. cbn. rewrite Hresult.
  destruct s as [|v|reason]; [congruence| |];
    unfold result_of; cbn; rewrite list_lookup_alter_eq;
    rewrite ?list_lookup_alter_eq, Hr; cbn; auto.
Qed.

Lemma run_listener_shrinks (w : World) (data : list Z) (l : Listener) :
  shrinks w (run_listener data w l).
Proof.
  apply (run_listener_other w (S (listener_req l)) data l). lia.
Qed.

Lemma shrinks_no_listeners (w w' : World) (fid : nat) (ev : EventName) :
  shrinks w w' -> listeners_for w fid ev = [] -> listeners_for w' fid ev = [].
Proof.
  intros Hshr Hnone. unfold listeners_for in *.
  destruct (heap w' !! fid) as [f'|] eqn:Hf'; [|reflexivity].
  destruct (Hshr fid f' Hf') as (f & Hf & Hsub). rewrite Hf in Hnone.
  destruct (List.filter (listens_to ev) (listeners f')) as [|entry tl] eqn:Hfilter;
    [reflexivity|].
  assert (Hin : In entry (List.filter (listens_to ev) (listeners f')))
    by (rewrite Hfilter; now left).
  apply filter_In in Hin as [Hin Hev].
  assert (Hin' : In entry (List.filter (listens_to ev) (listeners f)))
    by (apply filter_In; auto).
  rewrite Hnone in Hin'. destruct Hin'.
Qed.

Lemma removed_no_listeners (w : World) (fid : nat) (ev : EventName) :
  listeners_for (update_firmata fid (Firmata_removeAllListeners (Some ev)) w) fid ev = [].
Proof.
  unfold listeners_for. cbn. rewrite list_lookup_alter_eq.
  destruct (heap w !! fid) as [f|]; [|reflexivity]. cbn.
  induction (listeners f) as [|entry tl IH]; [reflexivity|].
  cbn. destruct (listens_to ev entry) eqn:Hl; cbn; [exact IH|].
  now rewrite Hl.
Qed.

(** *** Starting a query registers its listener last *)

Lemma start_query_listening (q : QueryCall) (w : World) (fid : nat) :
  can_start q w fid ->
  exists w1 f f1,
    start_query q w = (Ok (in_flight (List.length (requests w))), w1)
    /\ heap w !! fid = Some f
    /\ heap w1 = <[fid := f1]> (heap w)
    /\ listeners f1
       = listeners f ++ [(event_of q, listener_of q (List.length (requests w)))]
    /\ requests w1
       = requests w
         ++ [{| req_event := event_of q; req_firmata := fid;
                req_delay := delay_of q (board w);
                req_request := Pending; req_result := Pending |}]
    /\ board w1 = board w
    /\ match q with
       | query_distance pin _ => exists p, pin_at (pins f1) pin = Some p
       | _ => True
       end.
Proof.
  intros (Hfid & (f & Hf & Hpin) & Hversion & Hbound).
  destruct q as [timeout | pin timeout | pin timeout];
    cbn [start_query event_of delay_of listener_of].
  - unfold boardVersion. mstep. rewrite Hversion. do 2 mstep. rewrite Hfid.
    rewrite bind_new_request. repeat mstep.
    do 3 eexists. split; [reflexivity|]. split; [exact Hf|]. cbn.
    rewrite list_insert_insert_eq. auto 6.
  - destruct Hpin as [p Hp]. unfold getDistanceByUltrasonic. do 4 mstep.
    rewrite bind_new_request. repeat mstep.
    do 3 eexists. split; [reflexivity|]. split; [exact Hf|]. cbn.
    rewrite !list_insert_insert_eq.
    split; [reflexivity|]. split; [reflexivity|]. split; [reflexivity|].
    split; [reflexivity|]. cbn. eexists. now apply (pin_at_update_eq _ _ p).
  - unfold getWaterTemp. do 2 mstep. rewrite Hfid.
    rewrite bind_new_request. repeat mstep.
    do 3 eexists. split; [reflexivity|]. split; [exact Hf|]. cbn.
    rewrite list_insert_insert_eq. auto 6.
Qed.

Lemma reply_of_settles (q : QueryCall) (data : list Z) : reply_of q data <> Pending.
Proof. destruct q, data; discriminate. Qed.

(** The listener of the query, run on a world where the request waits. *)
Lemma run_listener_waiting
  (q : QueryCall) (w : World) (id : nat) (r : Request) (data : list Z) :
  requests w !! id = Some r -> req_request r = Pending -> req_result r = Pending ->
  let w' := run_listener data w (listener_of q id) in
  result_of w' id = Some (reply_of q data)
  /\ match q with
     | query_version _ => version (board w') = Some (decode_version data)
     | _ => True
     end.
Proof.
  intros Hr Hrequest Hresult.
  destruct q as [timeout | pin timeout | pin timeout];
    cbn [listener_of reply_of run_listener].
  - match goal with
    | |- context [settle_request id ?s ?w0] =>
        destruct (settle_request_waiting w0 id r s Hr Hrequest Hresult) as [Hres Hboard];
          [discriminate|]
    end.
    cbv zeta. split; [exact Hres|]. rewrite Hboard. reflexivity.
  - destruct data; (split; [|exact I]);
      now apply (settle_request_waiting w id r).
  - destruct data; (split; [|exact I]);
      now apply (settle_request_waiting w id r).
Qed.

(** X22. When the event a query waits for is the next thing to happen, the
    promise of the query settles as the listener of the query says: a
    version query resolves with the version decoded from the data, a sensor
    query rejects with "not available" on empty data and resolves with the
    decoded number otherwise.  The listeners of the event are gone, and
    whatever happens afterwards, the timer of the query included, the
    promise keeps that outcome.  After a version reply the version is
    stored, and the next [boardVersion] answers with it at once. *)
Theorem answered_query_stays_settled
  (q : QueryCall) (w : World) (fid : nat) (data : list Z) (after : list Task) :
  can_start q w fid ->
  exists id w1,
    start_query q w = (Ok (in_flight id), w1)
    /\ let w2 := run_task w1 (firmata_emits fid (event_of q) data) in
       let w3 := run_tasks w2 (timer_fires id :: after) in
       result_of w2 id = Some (reply_of q data)
       /\ listeners_for w2 fid (event_of q) = []
       /\ result_of w3 id = Some (reply_of q data)
       /\ match q with
          | query_version _ =>
              version (board w2) = Some (decode_version data)
              /\ forall timeout,
                   boardVersion timeout w2
                   = (Ok (settled (Resolved (version_string (decode_version data)))), w2)
          | _ => True
          end.
Proof.
  intros Hstart.
  destruct (start_query_listening q w fid Hstart)
    as (w1 & f & f1 & Hrun & Hf & Hheap & Hls & Hreqs & _).
  assert (Hf1 : heap w1 !! fid = Some f1)
    by (rewrite Hheap; now apply (heap_insert_lookup _ _ f)).
  assert (Hbound : listeners_bounded w) by apply Hstart.
  set (id := List.length (requests w)) in *.
  exists id, w1. split; [exact Hrun|]. intros w2 w3.
  set (w0 := update_firmata fid (Firmata_removeAllListeners (Some (event_of q))) w1).
  set (earlier := List.filter (listens_to (event_of q)) (listeners f)).
  set (wa := fold_left (fun w entry => run_listener data w (snd entry)) earlier w0).
  assert (Hw2 : w2 = run_listener data wa (listener_of q id)).
  { unfold w2. cbn [run_task]. rewrite Hf1, Hls, List.filter_app. cbn [List.filter].
    replace (listens_to (event_of q) (event_of q, listener_of q id)) with true
      by (symmetry; now apply listens_to_iff).
    now rewrite fold_left_app. }
  destruct (run_listeners_other w0 id data earlier) as [Hsame Hshr].
  { intros entry Hin. apply filter_In in Hin as [Hin _].
    specialize (Hbound fid f entry Hf Hin). fold id in Hbound. lia. }
  fold wa in Hsame, Hshr.
  assert (Hr : requests wa !! id
               = Some {| req_event := event_of q; req_firmata := fid;
                         req_delay := delay_of q (board w);
                         req_request := Pending; req_result := Pending |}).
  { rewrite Hsame. unfold w0. cbn. rewrite Hreqs. now apply list_lookup_middle. }
  destruct (run_listener_waiting q wa id _ data Hr eq_refl eq_refl) as [Hres Hversion].
  rewrite <- Hw2 in Hres, Hversion.
  split; [exact Hres|]. split.
  { rewrite Hw2. eapply shrinks_no_listeners; [apply run_listener_shrinks|].
    eapply shrinks_no_listeners; [exact Hshr|]. apply removed_no_listeners. }
  split; [apply run_tasks_keeps; [exact Hres | apply reply_of_settles]|].
  destruct q as [timeout | |]; [|exact I ..].
  split; [exact Hversion|]. intros timeout'.
  unfold boardVersion. rewrite bind_gets, Hversion. reflexivity.
Qed.

Lemma answered_query_stays_settled_witness :
  exists id w1,
    start_query (query_version (Some 200)) ready_world = (Ok (in_flight id), w1)
    /\ result_of (run_tasks (run_task w1 (firmata_emits 0 board_version_reply [64; 8]))
                    [timer_fires id]) id
       = Some (Resolved (version_string
                           {| Version.type := 1; Version.major := 1; Version.minor := 0 |})).
Proof.
  destruct (answered_query_stays_settled (query_version (Some 200)) ready_world 0 [64; 8] []
              ready_world_can_start)
    as (id & w1 & Hrun & _ & _ & Hafter & _).
  exists id, w1. split; [exact Hrun | exact Hafter].
Defined.

(** *** The fields of the version *)

(** X23. The version reply carries fourteen bits in two 7-bit bytes, low byte
    first: the type is the top four, the major number the next four, the
    minor number the low six, and together they give the payload back. *)
Theorem decode_version_fields (d0 d1 : Z) :
  0 <= d0 < 128 -> 0 <= d1 < 128 ->
  let v := decode_version [d0; d1] in
  let payload := d0 + 128 * d1 in
  Version.type v = payload / 1024
  /\ Version.major v = (payload / 64) mod 16
  /\ Version.minor v = payload mod 64
  /\ 1024 * Version.type v + 64 * Version.major v + Version.minor v = payload.
Proof.
  intros H0 H1 v payload.
  assert (Hvalue : Firmata_decode d0 d1 = payload).
  { unfold Firmata_decode, JS.or. rewrite (shl_small d1 7) by lia.
    rewrite (toInt32_small d0), (toInt32_small (d1 * 2 ^ 7)) by lia.
    replace (d1 * 2 ^ 7) with (2 ^ 7 * d1) by lia.
    rewrite lor_disjoint by lia. reflexivity. }
  assert (Hp : 0 <= payload < 16384) by (unfold payload; lia).
  assert (Htype : Version.type v = payload / 1024).
  { unfold v, decode_version. cbn [Version.type byte_at nth]. rewrite Hvalue.
    unfold JS.and. rewrite (shr_small payload 10) by lia.
    rewrite (toInt32_small (payload / 2 ^ 10)), (toInt32_small 15)
      by (try lia; Z.to_euclidean_division_equations; lia).
    change 15 with (Z.ones 4). rewrite Z.land_ones by lia.
    change (2 ^ 10) with 1024. apply Z.mod_small.
    Z.to_euclidean_division_equations; lia. }
  assert (Hmajor : Version.major v = (payload / 64) mod 16).
  { unfold v, decode_version. cbn [Version.major byte_at nth]. rewrite Hvalue.
    unfold JS.and. rewrite (shr_small payload 6) by lia.
    rewrite (toInt32_small (payload / 2 ^ 6)), (toInt32_small 15)
      by (try lia; Z.to_euclidean_division_equations; lia).
    change 15 with (Z.ones 4). rewrite Z.land_ones by lia. reflexivity. }
  assert (Hminor : Version.minor v = payload mod 64).
  { unfold v, decode_version. cbn [Version.minor byte_at nth]. rewrite Hvalue.
    unfold JS.and. rewrite (toInt32_small payload), (toInt32_small 63) by lia.
    change 63 with (Z.ones 6). rewrite Z.land_ones by lia. reflexivity. }
  repeat split; try assumption.
  rewrite Htype, Hmajor, Hminor. Z.to_euclidean_division_equations; lia.
Qed.

Lemma decode_version_fields_witness :
  Version.type (decode_version [64; 16]) = 2
  /\ Version.major (decode_version [64; 16]) = 1
  /\ Version.minor (decode_version [64; 16]) = 0.
Proof.
  destruct (decode_version_fields 64 16 ltac:(lia) ltac:(lia)) as (Ht & Hmj & Hmn & _).
  split; [exact Ht|]. split; [exact Hmj | exact Hmn].
Defined.

(** ** Two queries for one event *)

Lemma listener_of_req (q : QueryCall) (id : nat) : listener_req (listener_of q id) = id.
Proof. now destruct q. Qed.

(** A request no listener refers to stays so, and only its timer settles
    its promise. *)
Lemma orphaned_task (w : World) (id : nat) (d : Z) (t : Task) :
  orphaned w id d -> orphaned (run_task w t) id d.
Proof.
  intros [(r & Hr & Hd & Hrequest & Hresult) Hunref].
  destruct (Nat.eq_dec
              (match t with timer_fires id' => id' | firmata_emits _ _ _ => S id end) id)
    as [Heq | Hne].
  - destruct t as [id'|]; [|lia]. subst id'.
    cbn [run_task]. rewrite Hr. unfold race_settle. rewrite Hr.
    destruct Hresult as [Hresult | Hresult]; rewrite Hresult;
      [|split; [exists r; auto 6 | exact Hunref]].
    split.
    + exists (Request_set_result r (Rejected (timeout_reason (req_delay r)))).
      cbn. rewrite list_lookup_alter_eq, Hr, Hd. cbn. auto 6.
    + intros fid' f' entry Hf' Hin.
      destruct (update_firmata_shrinks w (req_firmata r) (Some (req_event r)) fid' f' Hf')
        as (f & Hf & Hsub).
      eauto.
  - destruct (run_task_other w id t) as [Hsame Hshr].
    { destruct t as [id'|fid' ev' data]; [exact Hne|].
      intros entry Hin. unfold listeners_for in Hin.
      destruct (heap w !! fid') as [f|] eqn:Hf; [|destruct Hin].
      apply filter_In in Hin as [Hin _]. now apply (Hunref fid' f). }
    split.
    + exists r. rewrite Hsame. auto 6.
    + intros fid' f' entry Hf' Hin.
      destruct (Hshr fid' f' Hf') as (f & Hf & Hsub). eauto.
Qed.

Lemma orphaned_tasks (w : World) (id : nat) (d : Z) (ts : list Task) :
  orphaned w id d -> orphaned (run_tasks w ts) id d.
Proof.
  revert w. induction ts as [|t tl IH]; intros w Horphan; [exact Horphan|].
  cbn. apply IH. now apply orphaned_task.
Qed.

(** A query for the same event can be started while the first is in
    flight. *)
Lemma can_start_again (q1 q2 : QueryCall) (w w1 : World) (fid : nat) (f f1 : Firmata) :
  can_start q1 w fid -> event_of q1 = event_of q2 ->
  heap w !! fid = Some f ->
  heap w1 = <[fid := f1]> (heap w) ->
  listeners f1 = listeners f ++ [(event_of q1, listener_of q1 (List.length (requests w)))] ->
  List.length (requests w1) = S (List.length (requests w)) ->
  board w1 = board w ->
  match q1 with
  | query_distance pin _ => exists p, pin_at (pins f1) pin = Some p
  | _ => True
  end ->
  can_start q2 w1 fid.
Proof.
  intros (Hfid & _ & Hversion & Hbound) Hev Hf Hheap Hls Hlen Hboard Hpin.
  assert (Hf1 : heap w1 !! fid = Some f1)
    by (rewrite Hheap; now apply (heap_insert_lookup _ _ f)).
  split; [now rewrite Hboard|]. split; [|split].
  - exists f1. split; [exact Hf1|].
    destruct q2 as [|pin2|]; [exact I| |exact I].
    destruct q1; try discriminate. now injection Hev as ->.
  - destruct q2; [|exact I ..]. destruct q1; try discriminate. now rewrite Hboard.
  - intros fid' f' entry Hf' Hin. rewrite Hlen.
    destruct (Nat.eq_dec fid fid') as [<- | Hne].
    + rewrite Hf1 in Hf'. injection Hf' as <-. rewrite Hls in Hin.
      apply in_app_or in Hin as [Hin | [<- | []]].
      * specialize (Hbound fid f entry Hf Hin). lia.
      * cbn. rewrite listener_of_req. lia.
    + rewrite Hheap, list_lookup_insert_ne in Hf' by exact Hne.
      specialize (Hbound fid' f' entry Hf' Hin). lia.
Qed.

(** X24. Two queries that wait for the same event, the second started while
    the first is in flight.  When the timer of the first fires, its
    [catch] handler removes the listeners of the event, the one of the
    second query included: whatever happens afterwards, the event emitted
    with data included, the second query is never answered.  Its promise is
    pending until its own timer rejects it with the timeout. *)
Theorem timeout_cancels_sibling_query
  (q1 q2 : QueryCall) (w : World) (fid : nat) (after : list Task) :
  can_start q1 w fid ->
  event_of q1 = event_of q2 ->
  exists id1 id2 w1 w2,
    start_query q1 w = (Ok (in_flight id1), w1)
    /\ start_query q2 w1 = (Ok (in_flight id2), w2)
    /\ id1 <> id2
    /\ let w3 := run_tasks (run_task w2 (timer_fires id1)) after in
       request_of w3 id2 = Some Pending
       /\ (result_of w3 id2 = Some Pending
           \/ result_of w3 id2
              = Some (Rejected (timeout_reason (delay_of q2 (board w))))).
Proof.
  intros Hstart Hev.
  destruct (start_query_listening q1 w fid Hstart)
    as (w1 & f & f1 & Hrun1 & Hf & Hheap1 & Hls1 & Hreqs1 & Hboard1 & Hpin1).
  assert (Hlen1 : List.length (requests w1) = S (List.length (requests w)))
    by (rewrite Hreqs1, length_app; cbn; lia).
  pose proof (can_start_again q1 q2 w w1 fid f f1 Hstart Hev Hf Hheap1 Hls1 Hlen1
                Hboard1 Hpin1) as Hstart2.
  destruct (start_query_listening q2 w1 fid Hstart2)
    as (w2 & f1' & f2 & Hrun2 & Hf1 & Hheap2 & Hls2 & Hreqs2 & Hboard2 & _).
  destruct (start_query_armed q2 w1 fid Hstart2) as (w2' & Hrun2' & Harmed).
  rewrite Hrun2 in Hrun2'. injection Hrun2' as <-.
  set (id1 := List.length (requests w)) in *.
  set (id2 := List.length (requests w1)) in *.
  exists id1, id2, w1, w2.
  split; [exact Hrun1|]. split; [exact Hrun2|]. split; [lia|].
  intros w3.
  assert (Horphan : orphaned (run_task w2 (timer_fires id1)) id2 (delay_of q2 (board w1))).
  { destruct Harmed as [(r2 & Hr2 & _ & _ & Hd2 & Hrequest2 & Hresult2) Honly].
    assert (Hr1 : requests w2 !! id1
                  = Some {| req_event := event_of q1; req_firmata := fid;
                            req_delay := delay_of q1 (board w);
                            req_request := Pending; req_result := Pending |}).
    { rewrite Hreqs2, Hreqs1. rewrite lookup_app_l by (rewrite length_app; cbn; lia).
      now apply list_lookup_middle. }
    cbn [run_task]. rewrite Hr1. unfold race_settle. rewrite Hr1.
    cbn [req_result req_firmata req_event]. split.
    - exists r2. rewrite update_request_other by lia. cbn. rewrite Hr2. auto 6.
    - intros fid' f' entry Hf' Hin Hid. cbn in Hf'.
      destruct (Nat.eq_dec fid fid') as [<- | Hne].
      + rewrite list_lookup_alter_eq in Hf'.
        destruct (heap w2 !! fid) as [f0|] eqn:Hf0; [|discriminate].
        injection Hf' as <-. cbn in Hin. apply filter_In in Hin as [Hin Hev'].
        destruct (Honly fid f0 entry Hf0 Hin Hid) as [_ Hentry].
        rewrite <- Hev in Hentry. apply listens_to_iff in Hentry.
        now rewrite Hentry in Hev'.
      + rewrite list_lookup_alter_ne in Hf' by exact Hne.
        destruct (Honly fid' f' entry Hf' Hin Hid) as [Heq _]. congruence. }
  apply (orphaned_tasks _ _ _ after) in Horphan. fold w3 in Horphan.
  destruct Horphan as [(r & Hr & _ & Hrequest & Hresult) _].
  unfold request_of, result_of. rewrite Hr. cbn. rewrite Hrequest, <- Hboard1.
  split; [reflexivity|]. destruct Hresult as [-> | ->]; auto.
Qed.

Lemma timeout_cancels_sibling_query_witness :
  exists id1 id2 w1 w2,
    start_query (query_version (Some 200)) ready_world = (Ok (in_flight id1), w1)
    /\ start_query (query_version (Some 5000)) w1 = (Ok (in_flight id2), w2)
    /\ request_of (run_tasks (run_task w2 (timer_fires id1))
                     [firmata_emits 0 board_version_reply [64; 8]]) id2
       = Some Pending.
Proof.
  destruct (timeout_cancels_sibling_query (query_version (Some 200))
              (query_version (Some 5000)) ready_world 0
              [firmata_emits 0 board_version_reply [64; 8]]
              ready_world_can_start eq_refl)
    as (id1 & id2 & w1 & w2 & Hrun1 & Hrun2 & _ & Hrequest & _).
  exists id1, id2, w1, w2. split; [exact Hrun1|]. split; [exact Hrun2 | exact Hrequest].
Defined.

